(** * C-To-Multi-Transpiler: lexer, parser and code generators

    A shallow embedding of the three stages of the transpiler
    (LexicalAnalyzer, SyntaxAnalyzer, CodeGenerator) and of the functions
    of the page that run them, followed by the properties of them that
    its specification states (C1 to C10) and by further properties of the
    code (X1 to X24).

    Data.  A JavaScript string is a sequence of UTF-16 code units; a code
    unit is an [N] and a string a [list N].  [lit] turns a Rocq string
    literal (ASCII) into such a string.  A value that JavaScript allows to
    be [null] is an [option].

    Control.  The tokenizer and the parser loop on a cursor; their loops
    take a budget of iterations ([fuel]) and the theorems show that the
    budget they are given is never used up.  A [TypeError] that
    JavaScript throws is an outcome of its own in the result types.

    The first part of the file holds the definitions, the second the
    lemmas and theorems. *)

From Stdlib Require Import String Ascii NArith ZArith List Bool Lia Arith
  Sorted.
Import ListNotations.
Open Scope N_scope.

(* ================================================================== *)
(** * Strings of UTF-16 code units *)
(* ================================================================== *)

Definition char := N.
Definition jsstring := list char.

Definition lit (s : string) : jsstring :=
  map N_of_ascii (list_ascii_of_string s).

Fixpoint streq (a b : jsstring) : bool :=
  match a, b with
  | [], [] => true
  | x :: a', y :: b' => (x =? y) && streq a' b'
  | _, _ => false
  end.

(** [value === text] for a value that may be [null]. *)
Definition is_str (v : option jsstring) (s : jsstring) : bool :=
  match v with
  | Some x => streq x s
  | None => false
  end.

Definition is_text (v : option jsstring) (s : string) : bool :=
  is_str v (lit s).

(** [[a, b, c].includes(v)] over string constants. *)
Definition one_of (l : list string) (v : option jsstring) : bool :=
  existsb (is_text v) l.

(** [text.includes(ch)] for a one-unit string [ch]. *)
Definition includes_char (text : string) (c : char) : bool :=
  existsb (N.eqb c) (lit text).

Definition NL : char := 10.
Definition QUOTE : char := 34.
Definition APOSTROPHE : char := 39.
Definition BACKSLASH : char := 92.
Definition STAR : char := 42.
Definition SLASH : char := 47.
Definition UNDERSCORE : char := 95.
Definition DOT : char := 46.

(* ================================================================== *)
(** * LexicalAnalyzer *)
(* ================================================================== *)

Inductive TokenType :=
  KEYWORD | IDENTIFIER | NUMBER | STRING | OPERATOR | DELIMITER | NEWLINE | EOF.

Definition TokenType_eqb (a b : TokenType) : bool :=
  match a, b with
  | KEYWORD, KEYWORD | IDENTIFIER, IDENTIFIER | NUMBER, NUMBER
  | STRING, STRING | OPERATOR, OPERATOR | DELIMITER, DELIMITER
  | NEWLINE, NEWLINE | EOF, EOF => true
  | _, _ => false
  end.

(** [type Token = { type; value: string | null; line?; column? }]. *)
Record Token := mkToken {
  type : TokenType;
  value : option jsstring;
  line : option nat;
  column : option nat
}.

(** The token pushed by a reader: a text and the place where it starts. *)
Definition tok (ty : TokenType) (v : jsstring) (l c : nat) : Token :=
  mkToken ty (Some v) (Some l) (Some c).

(** [{ type: "EOF", value: null }]. *)
Definition eof_token : Token := mkToken EOF None None None.

Definition keywords : list string :=
  [ "int"; "float"; "double"; "char"; "void"; "if"; "else"; "while"; "for";
    "return"; "include"; "main"; "printf"; "scanf"; "bool"; "long"; "short";
    "break"; "continue"; "switch"; "case"; "default"; "const"; "static";
    "struct"; "union"; "enum"; "typedef"; "extern"; "register"; "auto";
    "volatile"; "signed"; "unsigned"; "goto"; "do"; "sizeof" ]%string.

(** [/[a-zA-Z]/.test(char)] *)
Definition isLetter (c : char) : bool :=
  ((65 <=? c) && (c <=? 90)) || ((97 <=? c) && (c <=? 122)).

(** [/[0-9]/.test(char)] *)
Definition isDigit (c : char) : bool := (48 <=? c) && (c <=? 57).

Definition isOperator (c : char) : bool := includes_char "+-*/%=<>!&|^~" c.

Definition isDelimiter (c : char) : bool := includes_char "(){}[];,#." c.

(** [/\s/.test(char)]: the white space and line terminator code units of
    ECMAScript. *)
Definition isSpace (c : char) : bool :=
  ((9 <=? c) && (c <=? 13)) || (c =? 32) || (c =? 160) || (c =? 5760)
  || ((8192 <=? c) && (c <=? 8202)) || (c =? 8232) || (c =? 8233)
  || (c =? 8239) || (c =? 8287) || (c =? 12288) || (c =? 65279).

(** The analyzer's cursor.  The source keeps [code] and an index
    [position]; the embedding keeps [rest], the part of [code] from
    [position] on, so that
    - [this.position < this.code.length] is [rest <> []],
    - [this.code[this.position]] is the head of [rest],
    - [this.peek()] is the second unit of [rest],
    - [this.position < this.code.length - 1] is: [rest] has two units.
    [line] and [column] are kept as in the source. *)
Record Place := mkPlace { at_line : nat; at_column : nat }.

(** [advance()] when the unit under the cursor is [c]. *)
Definition advance (c : char) (p : Place) : Place :=
  if c =? NL then mkPlace (S (at_line p)) 1
  else mkPlace (at_line p) (S (at_column p)).

(** [advance()] with the cursor at the end of the code, where no unit
    is left to compare with the line feed. *)
Definition advance_off_end (p : Place) : Place :=
  mkPlace (at_line p) (S (at_column p)).

Fixpoint skipSingleLineComment (rest : jsstring) (p : Place)
  : jsstring * Place :=
  match rest with
  | c :: r =>
      if negb (c =? NL) then skipSingleLineComment r (advance c p)
      else (rest, p)
  | [] => (rest, p)
  end.

(** The loop of [skipMultiLineComment], after the two opening units. *)
Fixpoint skipMultiLineComment_loop (rest : jsstring) (p : Place)
  : jsstring * Place :=
  match rest with
  | c :: ((c2 :: r2) as r) =>
      if (c =? STAR) && (c2 =? SLASH)
      then (r2, advance c2 (advance c p))
      else skipMultiLineComment_loop r (advance c p)
  | _ => (rest, p)
  end.

(** The two calls of [advance] over the opener, then the loop.  (The
    loop of [tokenize] calls it with the two units of the opener under
    the cursor.) *)
Definition skipMultiLineComment (rest : jsstring) (p : Place)
  : jsstring * Place :=
  match rest with
  | c :: c2 :: r => skipMultiLineComment_loop r (advance c2 (advance c p))
  | [c] => ([], advance_off_end (advance c p))
  | [] => ([], advance_off_end (advance_off_end p))
  end.

Fixpoint skipWhitespace (rest : jsstring) (p : Place) : jsstring * Place :=
  match rest with
  | c :: r =>
      if isSpace c && negb (c =? NL) then skipWhitespace r (advance c p)
      else (rest, p)
  | [] => (rest, p)
  end.

Fixpoint readIdentifier_loop (rest : jsstring) (p : Place) (v : jsstring)
  : jsstring * Place * jsstring :=
  match rest with
  | c :: r =>
      if isLetter c || isDigit c || (c =? UNDERSCORE)
      then readIdentifier_loop r (advance c p) (v ++ [c])
      else (rest, p, v)
  | [] => (rest, p, v)
  end.

Definition readIdentifier (rest : jsstring) (p : Place)
  : jsstring * Place * Token :=
  let '(rest', p', v) := readIdentifier_loop rest p [] in
  let ty :=
    if existsb (is_text (Some v)) keywords then KEYWORD else IDENTIFIER in
  (rest', p', tok ty v (at_line p) (at_column p)).

Fixpoint readNumber_loop (rest : jsstring) (p : Place) (hasDecimal : bool)
  (v : jsstring) : jsstring * Place * jsstring :=
  match rest with
  | c :: r =>
      if isDigit c || ((c =? DOT) && negb hasDecimal)
      then readNumber_loop r (advance c p)
             (if c =? DOT then true else hasDecimal) (v ++ [c])
      else (rest, p, v)
  | [] => (rest, p, v)
  end.

Definition readNumber (rest : jsstring) (p : Place)
  : jsstring * Place * Token :=
  let '(rest', p', v) := readNumber_loop rest p false [] in
  (rest', p', tok NUMBER v (at_line p) (at_column p)).

(** The loop shared by [readString] (closing unit [QUOTE]) and
    [readCharLiteral] (closing unit [APOSTROPHE]): the two loops of the
    source differ in that unit only. *)
Fixpoint readQuoted_loop (q : char) (rest : jsstring) (p : Place)
  (v : jsstring) : jsstring * Place * jsstring :=
  match rest with
  | c :: r =>
      if negb (c =? q) then
        match r with
        | c2 :: r2 =>
            if c =? BACKSLASH
            then readQuoted_loop q r2 (advance c2 (advance c p))
                   (v ++ [c] ++ [c2])
            else readQuoted_loop q r (advance c p) (v ++ [c])
        | [] => readQuoted_loop q r (advance c p) (v ++ [c])
        end
      else (rest, p, v)
  | [] => (rest, p, v)
  end.

Definition readQuoted (q : char) (rest : jsstring) (p : Place)
  : jsstring * Place * Token :=
  match rest with
  | open :: r =>
      let '(rest', p', v) := readQuoted_loop q r (advance open p) [] in
      let '(rest'', p'') :=
        match rest' with
        | close :: r' => (r', advance close p')
        | [] => (rest', p')
        end in
      (rest'', p'', tok STRING v (at_line p) (at_column p))
  | [] => (rest, advance_off_end p, tok STRING [] (at_line p) (at_column p))
  end.

Definition readString := readQuoted QUOTE.
Definition readCharLiteral := readQuoted APOSTROPHE.

Definition twoCharOperators : list string :=
  [ "=="; "!="; "<="; ">="; "++"; "--"; "&&"; "||"; "+="; "-="; "*="; "/=";
    "%="; "<<"; ">>" ]%string.

(** [readOperator] and [readDelimiter] start by reading the unit under
    the cursor: they are given that unit, [c], and the rest [r] after
    it. *)
Definition readOperator (c : char) (r : jsstring) (p : Place)
  : jsstring * Place * Token :=
  let p1 := advance c p in
  match r with
  | next :: r2 =>
      if existsb (is_text (Some [c; next])) twoCharOperators
      then (r2, advance next p1,
            tok OPERATOR [c; next] (at_line p) (at_column p))
      else (r, p1, tok OPERATOR [c] (at_line p) (at_column p))
  | [] => (r, p1, tok OPERATOR [c] (at_line p) (at_column p))
  end.

Definition readDelimiter (c : char) (r : jsstring) (p : Place)
  : jsstring * Place * Token :=
  (r, advance c p, tok DELIMITER [c] (at_line p) (at_column p)).

(** The state of a [LexicalAnalyzer]. *)
Record Lexer := mkLexer {
  rest : jsstring;
  place : Place;
  tokens : list Token
}.

Definition skipped (st : Lexer) (r : jsstring * Place) : Lexer :=
  mkLexer (fst r) (snd r) (tokens st).

Definition pushed (st : Lexer) (r : jsstring * Place * Token) : Lexer :=
  let '(rest', p', t) := r in mkLexer rest' p' (tokens st ++ [t]).

Definition peek (rest : jsstring) : option char := nth_error rest 1.

Definition peek_is (rest : jsstring) (c : char) : bool :=
  match peek rest with Some x => x =? c | None => false end.

(** The [if]/[else if] chain of the body of the loop of [tokenize], for
    the unit [c] under the cursor. *)
Definition dispatch (c : char) (st : Lexer) : Lexer :=
  let r := rest st in
  let p := place st in
  if (c =? SLASH) && peek_is r SLASH then
    skipped st (skipSingleLineComment r p)
  else if (c =? SLASH) && peek_is r STAR then
    skipped st (skipMultiLineComment r p)
  else if isLetter c || (c =? UNDERSCORE) then pushed st (readIdentifier r p)
  else if isDigit c then pushed st (readNumber r p)
  else if c =? QUOTE then pushed st (readString r p)
  else if c =? APOSTROPHE then pushed st (readCharLiteral r p)
  else if isOperator c then pushed st (readOperator c (tl r) p)
  else if isDelimiter c then pushed st (readDelimiter c (tl r) p)
  else if c =? NL then
    mkLexer (tl r) (advance c p)
      (tokens st ++ [tok NEWLINE [NL] (at_line p) (at_column p)])
  else mkLexer (tl r) (advance c p) (tokens st).

(** The [while] loop of [tokenize]; [None] when [fuel] iterations were
    not enough to leave it. *)
Fixpoint tokenize_loop (fuel : nat) (st : Lexer) : option Lexer :=
  match fuel with
  | O => None
  | S fuel' =>
      match rest st with
      | [] => Some st
      | _ :: _ =>
          let st1 := skipped st (skipWhitespace (rest st) (place st)) in
          match rest st1 with
          | [] => Some st1
          | c :: _ => tokenize_loop fuel' (dispatch c st1)
          end
      end
  end.

Definition new_LexicalAnalyzer (code : jsstring) : Lexer :=
  mkLexer code (mkPlace 1 1) [].

(** [tokenize()] on a state: the loop, then the end-of-input token. *)
Definition tokenize_from (fuel : nat) (st : Lexer) : option (list Token) :=
  match tokenize_loop fuel st with
  | Some st' => Some (tokens st' ++ [eof_token])
  | None => None
  end.

(** [new LexicalAnalyzer(code).tokenize()].  Every iteration of the loop
    moves the cursor, so one unit of fuel per code unit and one for the
    last test is enough (lemma [tokenize_loop_total]). *)
Definition tokenize (code : jsstring) : option (list Token) :=
  tokenize_from (S (length code)) (new_LexicalAnalyzer code).

(** Kind and text of a token, without the place. *)
Definition kind_text (t : Token) : TokenType * option jsstring :=
  (type t, value t).

Definition kinds_texts (o : option (list Token))
  : option (list (TokenType * option jsstring)) :=
  option_map (map kind_text) o.

(* ================================================================== *)
(** * The syntax tree *)
(* ================================================================== *)

(** The value of a [Literal]: [parseFloat(lexeme)] for a NUMBER token, the
    text of a STRING token.  The number is kept as the lexeme it is
    parsed from. *)
Inductive LiteralValue :=
| NumberOf (lexeme : jsstring)
| Text (s : option jsstring).

(** [{ type: paramType, name: paramName.value }] *)
Record Param := mkParam { param_type : jsstring; param_name : option jsstring }.

(** One constructor for each shape of node that the parser builds; the
    constructor is the node's [type].  A field that can hold [null] is an
    [option]. *)
#[local] Set Warnings "-register-all".
Inductive Node : Type :=
| Include (library : option jsstring)
| Function_ (returnType name : option jsstring) (parameters : list Param)
    (body : list Node)
| Block (body : list Node)
| Variable_ (dataType name : option jsstring) (value : option Node)
| Assignment (identifier : option jsstring) (operator : jsstring)
    (value : option Node)
| IfStatement (condition then_ else_ : option Node)
| WhileLoop (condition body : option Node)
| ForLoop (init condition update body : option Node)
| ReturnStatement (value : option Node)
| PrintfStatement (arguments : list Node)
| ScanfStatement (arguments : list Node)
| FunctionCall (name : option jsstring) (arguments : list Node)
| BinaryExpression (left : option Node) (operator : jsstring)
    (right : option Node)
| UnaryExpression (operator : jsstring) (operand : option Node)
| Literal (value : LiteralValue) (dataType : jsstring)
| Identifier (name : option jsstring).

(** The [body] field of a root object, as the generators test it. *)
Inductive BodyField :=
| Missing                       (* no such field: [undefined] *)
| NotArray (truthy : bool)      (* a value that is not an array *)
| ArrayOf (nodes : list Node).

(** [{ type, body }] *)
Record ASTNode := mkAST { ast_type : jsstring; ast_body : BodyField }.

(** [array.push(node)] guarded by [if (node)]. *)
Definition push_if (l : list Node) (n : option Node) : list Node :=
  match n with Some x => l ++ [x] | None => l end.

(* ================================================================== *)
(** * SyntaxAnalyzer *)
(* ================================================================== *)

(** What a call of a parsing method does: it returns a value and leaves
    the cursor at a position; or it throws a [TypeError] (a property of
    [null] is read); or the embedding's recursion budget is used up. *)
Inductive res (A : Type) : Type :=
| Ok (a : A) (position : nat)
| TypeError
| OutOfFuel.
Arguments Ok {A} a position.
Arguments TypeError {A}.
Arguments OutOfFuel {A}.

Definition bind {A B : Type} (r : res A) (k : A -> nat -> res B) : res B :=
  match r with
  | Ok a p => k a p
  | TypeError => TypeError
  | OutOfFuel => OutOfFuel
  end.

Notation "'let*' ( x , p ) := r 'in' k" :=
  (bind r (fun x p => k))
  (at level 10, x name, p name, r at level 100, k at level 200).

Definition typeKeywords : list string :=
  [ "int"; "float"; "double"; "char"; "void"; "long"; "short" ]%string.

Definition assignmentOperators : list string :=
  [ "="; "+="; "-="; "*="; "/="; "++"; "--" ]%string.

(** The six levels of binary operators of [parseExpression].  In the
    source each level is a method of its own ([parseOrExpression], ...,
    [parseMultiplicativeExpression]); the methods differ in the operators
    they accept and in the method they call for their operands. *)
Inductive Level := LOr | LAnd | LEquality | LRelational | LAdditive
                 | LMultiplicative.

Definition operators_of (lv : Level) : list string :=
  match lv with
  | LOr => [ "||" ]
  | LAnd => [ "&&" ]
  | LEquality => [ "=="; "!=" ]
  | LRelational => [ "<"; ">"; "<="; ">=" ]
  | LAdditive => [ "+"; "-" ]
  | LMultiplicative => [ "*"; "/"; "%" ]
  end%string.

Section SyntaxAnalyzer.

(** [this.tokens]: the tokens given to the constructor, NEWLINE tokens
    removed. *)
Variable tokens : list Token.

Definition getCurrentToken (position : nat) : option Token :=
  nth_error tokens position.

Definition skipToken (expectedValue : string) (position : nat) : nat :=
  match getCurrentToken position with
  | Some token =>
      if is_text (value token) expectedValue then S position else position
  | None => position
  end.

(** [token && token.value === text] *)
Definition current_is (position : nat) (text : string) : bool :=
  match getCurrentToken position with
  | Some token => is_text (value token) text
  | None => false
  end.

Definition parseInclude (position : nat) : res (option Node) :=
  let position := S position in
  match getCurrentToken position with
  | Some includeToken =>
      if is_text (value includeToken) "include" then
        let position := S position in
        match getCurrentToken position with
        | Some delimiter =>
            if is_text (value delimiter) "<" || is_str (value delimiter) [QUOTE]
            then
              let position := S position in
              match getCurrentToken position with
              | Some library =>
                  Ok (Some (Include (value library))) (S (S position))
              | None => Ok None position
              end
            else Ok None position
        | None => Ok None position
        end
      else Ok None position
  | None => Ok None position
  end.

(** The parameter loop of [parseFunction]. *)
Fixpoint parseFunction_params (fuel : nat) (params : list Param)
  (position : nat) : res (list Param) :=
  match fuel with
  | O => OutOfFuel
  | S n =>
      match getCurrentToken position with
      | None => Ok params position
      | Some token =>
          if is_text (value token) ")" then Ok params (S position)
          else if is_text (value token) "," then
            parseFunction_params n params (S position)
          else if TokenType_eqb (type token) KEYWORD
                  && one_of typeKeywords (value token) then
            match value token with
            | Some paramType =>
                let position := S position in
                match getCurrentToken position with
                | Some paramName =>
                    if TokenType_eqb (type paramName) IDENTIFIER then
                      parseFunction_params n
                        (params ++ [mkParam paramType (value paramName)])
                        (S position)
                    else parseFunction_params n params position
                | None => parseFunction_params n params position
                end
            | None => parseFunction_params n params (S position)
            end
          else parseFunction_params n params (S position)
      end
  end.

(** [blockNode ? blockNode.body : []] *)
Definition body_of (blockNode : option Node) : list Node :=
  match blockNode with
  | Some (Block b) => b
  | _ => []
  end.

#[local] Set Warnings "-non-full-mutual".
Fixpoint parseStatement (fuel : nat) (position : nat) : res (option Node) :=
  match fuel with
  | O => OutOfFuel
  | S n =>
      match getCurrentToken position with
      | None => Ok None position
      | Some token =>
          if TokenType_eqb (type token) NEWLINE then Ok None (S position)
          else if TokenType_eqb (type token) DELIMITER
                  && is_text (value token) "#" then parseInclude position
          else if TokenType_eqb (type token) KEYWORD then
            if is_text (value token) "if" then parseIfStatement n position
            else if is_text (value token) "while" then
              parseWhileStatement n position
            else if is_text (value token) "for" then
              parseForStatement n position
            else if is_text (value token) "return" then
              parseReturnStatement n position
            else if is_text (value token) "printf" then
              parsePrintfStatement n position
            else if is_text (value token) "scanf" then
              parseScanfStatement n position
            else if one_of typeKeywords (value token) then
              parseDeclarationOrFunction n position
            else Ok None (S position)
          else if TokenType_eqb (type token) IDENTIFIER then
            parseAssignmentOrFunctionCall n position
          else if TokenType_eqb (type token) DELIMITER
                  && is_text (value token) "{" then
            let* (block, position) := parseBlock n position in
            Ok (Some block) position
          else Ok None (S position)
      end
  end

with parseDeclarationOrFunction (fuel : nat) (position : nat)
  : res (option Node) :=
  match fuel with
  | O => OutOfFuel
  | S n =>
      match getCurrentToken position with
      | None => Ok None position
      | Some typeToken =>
          let position := S position in
          match getCurrentToken position with
          | Some nameToken =>
              if TokenType_eqb (type nameToken) IDENTIFIER then
                let position := S position in
                if current_is position "(" then
                  parseFunction n (value typeToken) (value nameToken) position
                else
                  parseVariable n (value typeToken) (value nameToken) position
              else Ok None position
          | None => Ok None position
          end
      end
  end

with parseFunction (fuel : nat) (returnType name : option jsstring)
  (position : nat) : res (option Node) :=
  match fuel with
  | O => OutOfFuel
  | S n =>
      let position := S position in
      let* (params, position) := parseFunction_params n [] position in
      if current_is position "{" then
        let* (blockNode, position) := parseBlock n position in
        Ok (Some (Function_ returnType name params
                    (body_of (Some blockNode)))) position
      else Ok (Some (Function_ returnType name params [])) position
  end

with parseBlock (fuel : nat) (position : nat) : res Node :=
  match fuel with
  | O => OutOfFuel
  | S n =>
      let* (statements, position) := parseBlock_loop n [] (S position) in
      Ok (Block statements) position
  end

with parseBlock_loop (fuel : nat) (statements : list Node) (position : nat)
  : res (list Node) :=
  match fuel with
  | O => OutOfFuel
  | S n =>
      match getCurrentToken position with
      | None => Ok statements position
      | Some token =>
          if is_text (value token) "}" then Ok statements (S position)
          else
            let* (stmt, position) := parseStatement n position in
            parseBlock_loop n (push_if statements stmt) position
      end
  end

with parseVariable (fuel : nat) (varType name : option jsstring)
  (position : nat) : res (option Node) :=
  match fuel with
  | O => OutOfFuel
  | S n =>
      if current_is position "=" then
        let* (v, position) := parseExpression n (S position) in
        Ok (Some (Variable_ varType name v)) (skipToken ";" position)
      else Ok (Some (Variable_ varType name None)) (skipToken ";" position)
  end

with parseIfStatement (fuel : nat) (position : nat) : res (option Node) :=
  match fuel with
  | O => OutOfFuel
  | S n =>
      let position := skipToken "(" (S position) in
      let* (condition, position) := parseExpression n position in
      let position := skipToken ")" position in
      let* (thenStatement, position) := parseStatement n position in
      if current_is position "else" then
        let* (elseStatement, position) := parseStatement n (S position) in
        Ok (Some (IfStatement condition thenStatement elseStatement)) position
      else Ok (Some (IfStatement condition thenStatement None)) position
  end

with parseWhileStatement (fuel : nat) (position : nat) : res (option Node) :=
  match fuel with
  | O => OutOfFuel
  | S n =>
      let position := skipToken "(" (S position) in
      let* (condition, position) := parseExpression n position in
      let position := skipToken ")" position in
      let* (body, position) := parseStatement n position in
      Ok (Some (WhileLoop condition body)) position
  end

with parseForStatement (fuel : nat) (position : nat) : res (option Node) :=
  match fuel with
  | O => OutOfFuel
  | S n =>
      let position := skipToken "(" (S position) in
      let* (init, position) :=
        match getCurrentToken position with
        | Some initToken =>
            if TokenType_eqb (type initToken) KEYWORD then
              parseDeclarationOrFunction n position
            else if TokenType_eqb (type initToken) IDENTIFIER then
              parseAssignmentOrFunctionCall n position
            else Ok None position
        | None => Ok None position
        end in
      let position := skipToken ";" position in
      let* (condition, position) := parseExpression n position in
      let position := skipToken ";" position in
      let* (update, position) := parseExpression n position in
      let position := skipToken ")" position in
      let* (body, position) := parseStatement n position in
      Ok (Some (ForLoop init condition update body)) position
  end

with parseReturnStatement (fuel : nat) (position : nat) : res (option Node) :=
  match fuel with
  | O => OutOfFuel
  | S n =>
      let position := S position in
      match getCurrentToken position with
      | Some nextToken =>
          if negb (is_text (value nextToken) ";") then
            let* (v, position) := parseExpression n position in
            Ok (Some (ReturnStatement v)) (skipToken ";" position)
          else Ok (Some (ReturnStatement None)) (skipToken ";" position)
      | None => Ok (Some (ReturnStatement None)) (skipToken ";" position)
      end
  end

with parsePrintfStatement (fuel : nat) (position : nat) : res (option Node) :=
  match fuel with
  | O => OutOfFuel
  | S n =>
      let position := skipToken "(" (S position) in
      let* (args, position) := parseArguments n [] position in
      Ok (Some (PrintfStatement args)) (skipToken ";" position)
  end

with parseScanfStatement (fuel : nat) (position : nat) : res (option Node) :=
  match fuel with
  | O => OutOfFuel
  | S n =>
      let position := skipToken "(" (S position) in
      let* (args, position) := parseArguments n [] position in
      Ok (Some (ScanfStatement args)) (skipToken ";" position)
  end

(** The argument loop, written out three times in the source (in
    [parsePrintfStatement], [parseScanfStatement] and the call branch of
    [parseAssignmentOrFunctionCall]). *)
with parseArguments (fuel : nat) (args : list Node) (position : nat)
  : res (list Node) :=
  match fuel with
  | O => OutOfFuel
  | S n =>
      match getCurrentToken position with
      | None => Ok args position
      | Some token =>
          if is_text (value token) ")" then Ok args (S position)
          else if is_text (value token) "," then
            parseArguments n args (S position)
          else
            let* (expr, position) := parseExpression n position in
            parseArguments n (push_if args expr) position
      end
  end

with parseAssignmentOrFunctionCall (fuel : nat) (position : nat)
  : res (option Node) :=
  match fuel with
  | O => OutOfFuel
  | S n =>
      match getCurrentToken position with
      | None => Ok None position
      | Some identifier =>
          let position := S position in
          match getCurrentToken position with
          | Some next =>
              if is_text (value next) "(" then
                let* (args, position) := parseArguments n [] (S position) in
                Ok (Some (FunctionCall (value identifier) args))
                   (skipToken ";" position)
              else if one_of assignmentOperators (value next) then
                match value next with
                | Some operator =>
                    if is_text (value next) "++" || is_text (value next) "--"
                    then
                      Ok (Some (Assignment (value identifier) operator None))
                         (skipToken ";" (S position))
                    else
                      let* (v, position) := parseExpression n (S position) in
                      Ok (Some (Assignment (value identifier) operator v))
                         (skipToken ";" position)
                | None => parseExpression n (pred position)
                end
              else parseExpression n (pred position)
          | None => parseExpression n (pred position)
          end
      end
  end

with parseExpression (fuel : nat) (position : nat) : res (option Node) :=
  match fuel with
  | O => OutOfFuel
  | S n => parseBinary n LOr position
  end

(** [parseOrExpression], ..., [parseMultiplicativeExpression]: the
    operand of the level, then the loop of the level. *)
with parseBinary (fuel : nat) (lv : Level) (position : nat)
  : res (option Node) :=
  match fuel with
  | O => OutOfFuel
  | S n =>
      let* (left, position) :=
        match lv with
        | LOr => parseBinary n LAnd position
        | LAnd => parseBinary n LEquality position
        | LEquality => parseBinary n LRelational position
        | LRelational => parseBinary n LAdditive position
        | LAdditive => parseBinary n LMultiplicative position
        | LMultiplicative => parsePrimaryExpression n position
        end in
      parseBinary_loop n lv left position
  end

(** The [while (true)] loop of a level, folding to the left. *)
with parseBinary_loop (fuel : nat) (lv : Level) (left : option Node)
  (position : nat) : res (option Node) :=
  match fuel with
  | O => OutOfFuel
  | S n =>
      match getCurrentToken position with
      | None => Ok left position
      | Some token =>
          if one_of (operators_of lv) (value token) then
            match value token with
            | Some operator =>
                let* (right, position) :=
                  match lv with
                  | LOr => parseBinary n LAnd (S position)
                  | LAnd => parseBinary n LEquality (S position)
                  | LEquality => parseBinary n LRelational (S position)
                  | LRelational => parseBinary n LAdditive (S position)
                  | LAdditive => parseBinary n LMultiplicative (S position)
                  | LMultiplicative => parsePrimaryExpression n (S position)
                  end in
                parseBinary_loop n lv
                  (Some (BinaryExpression left operator right)) position
            | None => Ok left position
            end
          else Ok left position
      end
  end

with parsePrimaryExpression (fuel : nat) (position : nat)
  : res (option Node) :=
  match fuel with
  | O => OutOfFuel
  | S n =>
      match getCurrentToken position with
      | None => Ok None position
      | Some token =>
          if TokenType_eqb (type token) NUMBER then
            match value token with
            | Some lexeme =>
                Ok (Some (Literal (NumberOf lexeme)
                            (if existsb (N.eqb DOT) lexeme
                             then lit "float" else lit "int")))
                   (S position)
            | None => TypeError
            end
          else if TokenType_eqb (type token) STRING then
            Ok (Some (Literal (Text (value token)) (lit "string")))
               (S position)
          else if TokenType_eqb (type token) IDENTIFIER then
            if current_is (S position) "(" then
              parseAssignmentOrFunctionCall n (pred (S position))
            else Ok (Some (Identifier (value token))) (S position)
          else if is_text (value token) "(" then
            let* (expr, position) := parseExpression n (S position) in
            Ok expr (skipToken ")" position)
          else if is_text (value token) "&" then
            let* (expr, position) := parsePrimaryExpression n (S position) in
            Ok (Some (UnaryExpression (lit "&") expr)) position
          else Ok None (S position)
      end
  end.

(** The loop of [parse]. *)
Fixpoint parse_loop (fuel : nat) (body : list Node) (position : nat)
  : res (list Node) :=
  match fuel with
  | O => OutOfFuel
  | S n =>
      match getCurrentToken position with
      | None => Ok body position
      | Some token =>
          if negb (TokenType_eqb (type token) EOF) then
            let* (node, position) := parseStatement n position in
            parse_loop n (push_if body node) position
          else Ok body position
      end
  end.

End SyntaxAnalyzer.

(** The constructor's [tokens.filter(token => token.type !== "NEWLINE")]. *)
Definition without_newlines (tokens : list Token) : list Token :=
  filter (fun token => negb (TokenType_eqb (type token) NEWLINE)) tokens.

(** Twelve units of budget for each token and twelve more are enough for
    every token list (lemma [parse_outcome]). *)
Definition parse_budget (tokens : list Token) : nat :=
  12 * S (length tokens).

(** [new SyntaxAnalyzer(tokens).parse()], with a given budget. *)
Definition parse_with (fuel : nat) (tokens : list Token) : res ASTNode :=
  let* (body, position) := parse_loop (without_newlines tokens) fuel [] 0 in
  Ok (mkAST (lit "Program") (ArrayOf body)) position.

Definition parse (tokens : list Token) : res ASTNode :=
  parse_with (parse_budget (without_newlines tokens)) tokens.

(** [tokenize] then [parse]. *)
Definition parse_source (code : jsstring) : res ASTNode :=
  match tokenize code with
  | Some tokens => parse tokens
  | None => OutOfFuel
  end.

(* ================================================================== *)
(** * CodeGenerator: the parts of JavaScript it uses *)
(* ================================================================== *)

(** The result of a generator method: the returned value, or a thrown
    [TypeError]. *)
Inductive completion (A : Type) : Type :=
| Returns (a : A)
| Throws.
Arguments Returns {A} a.
Arguments Throws {A}.

Definition andThen {A B : Type} (c : completion A) (k : A -> completion B)
  : completion B :=
  match c with
  | Returns a => k a
  | Throws => Throws
  end.

(** [code += call()] *)
Definition plus (code : completion jsstring) (more : completion jsstring)
  : completion jsstring :=
  andThen code (fun a => andThen more (fun b => Returns (a ++ b))).

Infix "+++" := plus (at level 61, left associativity).

(** The text of a string-or-null value in a template literal or under
    [String(...)]. *)
Definition tpl (v : option jsstring) : jsstring :=
  match v with
  | Some s => s
  | None => lit "null"
  end.

(** [strings.join(sep)]; [null] elements count as empty strings. *)
Fixpoint join (sep : jsstring) (l : list (option jsstring)) : jsstring :=
  match l with
  | [] => []
  | [x] => match x with Some s => s | None => [] end
  | x :: l' => match x with Some s => s | None => [] end ++ sep ++ join sep l'
  end.

Fixpoint trimStart (s : jsstring) : jsstring :=
  match s with
  | c :: r => if isSpace c then trimStart r else s
  | [] => []
  end.

Definition trim (s : jsstring) : jsstring :=
  rev (trimStart (rev (trimStart s))).

Fixpoint starts_with (prefix s : jsstring) : bool :=
  match prefix, s with
  | [], _ => true
  | a :: prefix', b :: s' => (a =? b) && starts_with prefix' s'
  | _ :: _, [] => false
  end.

(** [s.includes(sub)] *)
Fixpoint includes (sub s : jsstring) : bool :=
  starts_with sub s
  || match s with
     | [] => false
     | _ :: r => includes sub r
     end.

(** [s.replace(/a/g, by)] for a pattern of one unit. *)
Fixpoint replaceAll1 (a : char) (by_ : jsstring) (s : jsstring) : jsstring :=
  match s with
  | [] => []
  | x :: r =>
      if x =? a then by_ ++ replaceAll1 a by_ r else x :: replaceAll1 a by_ r
  end.

(** [s.replace(/ab/g, by)] for a pattern of two units. *)
Fixpoint replaceAll2 (a b : char) (by_ : jsstring) (s : jsstring) : jsstring :=
  match s with
  | x :: ((y :: r') as r) =>
      if (x =? a) && (y =? b) then by_ ++ replaceAll2 a b by_ r'
      else x :: replaceAll2 a b by_ r
  | _ => s
  end.

(** [s.replace(/;\s*$/, "")]: the first semicolon that only white space
    follows is removed with what follows it. *)
Fixpoint dropLastSemicolon (s : jsstring) : jsstring :=
  match s with
  | [] => []
  | c :: r =>
      if (c =? 59) && forallb isSpace r then []
      else c :: dropLastSemicolon r
  end.

(** What reading a field of a node can give. *)
Inductive FieldValue :=
| FUndefined
| FNull
| FString (s : jsstring)
| FNumber (lexeme : jsstring)
| FObject (n : Node).

Definition of_text (v : option jsstring) : FieldValue :=
  match v with Some s => FString s | None => FNull end.

Definition of_node (v : option Node) : FieldValue :=
  match v with Some n => FObject n | None => FNull end.

(** [node.value] *)
Definition field_value (node : Node) : FieldValue :=
  match node with
  | Variable_ _ _ v | Assignment _ _ v | ReturnStatement v => of_node v
  | Literal (NumberOf lexeme) _ => FNumber lexeme
  | Literal (Text s) _ => of_text s
  | _ => FUndefined
  end.

(** [node.name] *)
Definition field_name (node : Node) : FieldValue :=
  match node with
  | Function_ _ name _ _ | Variable_ _ name _ | FunctionCall name _
  | Identifier name => of_text name
  | _ => FUndefined
  end.

(** [node.identifier] *)
Definition field_identifier (node : Node) : FieldValue :=
  match node with
  | Assignment identifier _ _ => of_text identifier
  | _ => FUndefined
  end.

Definition isPlainInteger (lexeme : jsstring) : bool :=
  negb (Nat.eqb (length lexeme) 0) && forallb isDigit lexeme
  && Nat.leb (length lexeme) 15.

Fixpoint dropZeros (lexeme : jsstring) : jsstring :=
  match lexeme with
  | c :: ((_ :: _) as r) => if c =? 48 then dropZeros r else lexeme
  | _ => lexeme
  end.

Section CodeGenerator.

(** Numbers are IEEE doubles in JavaScript.  For a lexeme of at most 15
    digits, [parseFloat] is exact and [String] gives the digits without
    leading zeros; that case is computed.  The text and the truth value
    of the number of any other lexeme are left to these two functions. *)
Variable float_text : jsstring -> jsstring.
Variable float_truthy : jsstring -> bool.

(** A lookup [table[key]] in an object literal finds, for a key that is
    not in the literal and names a property all objects inherit
    ([constructor], [toString], ...), that property, a truthy value.
    [inherited key] is the text of it in a template, when there is one. *)
Variable inherited : jsstring -> option jsstring.

(** [String(parseFloat(lexeme))] *)
Definition numberText (lexeme : jsstring) : jsstring :=
  if isPlainInteger lexeme then dropZeros lexeme else float_text lexeme.

(** Whether [parseFloat(lexeme)] is truthy (not zero, not NaN). *)
Definition numberTruthy (lexeme : jsstring) : bool :=
  if isPlainInteger lexeme then negb (forallb (N.eqb 48) lexeme)
  else float_truthy lexeme.

Definition truthy (v : FieldValue) : bool :=
  match v with
  | FUndefined | FNull => false
  | FString s => negb (Nat.eqb (length s) 0)
  | FNumber lexeme => numberTruthy lexeme
  | FObject _ => true
  end.

(** [a || b] *)
Definition or_else (a b : FieldValue) : FieldValue :=
  if truthy a then a else b.

(** The text of a name in a template literal. *)
Definition nameText (v : FieldValue) : jsstring :=
  match v with
  | FUndefined => lit "undefined"
  | FNull => lit "null"
  | FString s => s
  | FNumber lexeme => numberText lexeme
  | FObject _ => lit "[object Object]"
  end.

(** [table[key] || fallback], as a text. *)
Definition lookup (table : list (string * string)) (fallback : string)
  (key : jsstring) : jsstring :=
  match find (fun entry => streq key (lit (fst entry))) table with
  | Some entry => lit (snd entry)
  | None =>
      match inherited key with
      | Some text => text
      | None => lit fallback
      end
  end.

Definition mapJavaType (cType : option jsstring) : jsstring :=
  lookup [ ("int", "int"); ("float", "float"); ("double", "double");
           ("char", "char"); ("void", "void"); ("long", "long");
           ("short", "short"); ("bool", "boolean") ]%string
    "Object" (tpl cType).

Definition getDefaultValue (javaType : jsstring) : jsstring :=
  lookup [ ("int", "0"); ("float", "0.0f"); ("double", "0.0");
           ("char", "'\0'"); ("boolean", "false"); ("long", "0L");
           ("short", "0") ]%string
    "null" javaType.

Definition getPythonDefaultValue (cType : option jsstring) : jsstring :=
  lookup [ ("int", "0"); ("float", "0.0"); ("double", "0.0");
           ("char", "''"); ("void", "None"); ("long", "0");
           ("short", "0") ]%string
    "None" (tpl cType).

(** The text of [expr.value] of a [Literal]. *)
Definition literalText (v : LiteralValue) : jsstring :=
  match v with
  | NumberOf lexeme => numberText lexeme
  | Text s => tpl s
  end.

(* ================================================================== *)
(** * CodeGenerator: the typed dialect (Java) *)
(* ================================================================== *)

(** The result is a string or [null] (the [name] of an [Identifier]
    whose token had no text). *)
Fixpoint generateJavaExpression (expr : Node) : option jsstring :=
  let sub (e : option Node) : option jsstring :=
    match e with
    | Some n => generateJavaExpression n
    | None => Some []
    end in
  match expr with
  | Literal v dataType =>
      if streq dataType (lit "string")
      then Some ([QUOTE] ++ literalText v ++ [QUOTE])
      else Some (literalText v)
  | Identifier name => name
  | BinaryExpression lhs operator rhs =>
      Some (tpl (sub lhs) ++ lit " " ++ operator ++ lit " " ++ tpl (sub rhs))
  | UnaryExpression operator operand =>
      if streq operator (lit "&") then sub operand
      else Some (operator ++ tpl (sub operand))
  | FunctionCall name arguments =>
      Some (tpl name ++ lit "("
            ++ join (lit ", ") (map generateJavaExpression arguments)
            ++ lit ")")
  | _ => Some []
  end.

(** [this.generateJavaExpression(expr)] for an [expr] that may be [null]. *)
Definition javaExpression (e : option Node) : option jsstring :=
  match e with
  | Some n => generateJavaExpression n
  | None => Some []
  end.

Definition generateJavaPrintf (arguments : list Node) (indent : jsstring)
  : completion jsstring :=
  match arguments with
  | [] => Returns (indent ++ lit "System.out.println();" ++ [NL])
  | first :: others =>
      let formatStr := generateJavaExpression first in
      let args := map generateJavaExpression others in
      match args with
      | _ :: _ =>
          Returns (indent ++ lit "System.out.printf(" ++ tpl formatStr
                   ++ lit ", " ++ join (lit ", ") args ++ lit ");" ++ [NL])
      | [] =>
          match formatStr with
          | None => Throws
          | Some text =>
              let cleanFormat :=
                replaceAll2 BACKSLASH 110 [] (replaceAll1 QUOTE [] text) in
              if includes (lit "%") cleanFormat
              then Returns (indent ++ lit "System.out.printf(" ++ text
                            ++ lit ");" ++ [NL])
              else Returns (indent ++ lit "System.out.println(" ++ text
                            ++ lit ");" ++ [NL])
          end
      end
  end.

(** The test of the format text that [generateJavaScanf] and
    [generatePythonScanf] share: the call for the marker that
    [formatStr.value] includes, [forInt] when the value is falsy or has
    none of the markers. *)
Definition scanfCall (formatStr : Node) (forInt forFloat forText : string)
  : completion jsstring :=
  let v := field_value formatStr in
  if truthy v then
    match v with
    | FString s =>
        if includes (lit "%d") s then Returns (lit forInt)
        else if includes (lit "%f") s then Returns (lit forFloat)
        else if includes (lit "%s") s then Returns (lit forText)
        else Returns (lit forInt)
    | _ => Throws
    end
  else Returns (lit forInt).

Definition generateJavaScanf (arguments : list Node) (indent : jsstring)
  : completion jsstring :=
  match arguments with
  | formatStr :: second :: _ =>
      let variable := tpl (generateJavaExpression second) in
      andThen
        (scanfCall formatStr "scanner.nextInt();" "scanner.nextFloat();"
           "scanner.next();")
        (fun call => Returns (indent ++ variable ++ lit " = " ++ call ++ [NL]))
  | _ => Returns (indent ++ lit "// Scanner input needed" ++ [NL])
  end.

(** [generateJavaStatements], over the method for one statement. *)
Definition javaStatements (statement : Node -> jsstring -> completion jsstring)
  : list Node -> jsstring -> completion jsstring :=
  fix each (statements : list Node) (indent : jsstring) :=
    match statements with
    | [] => Returns []
    | stmt :: others => statement stmt indent +++ each others indent
    end.

(** The body of a loop or of a branch: the statements of a [Block], or
    the one statement, four columns further in. *)
Definition javaBody (statement : Node -> jsstring -> completion jsstring)
  (body : option Node) (indent : jsstring) : completion jsstring :=
  match body with
  | Some (Block statements) =>
      javaStatements statement statements (indent ++ lit "    ")
  | Some node => statement node (indent ++ lit "    ")
  | None => Returns []
  end.

Definition generateJavaIfStatement
  (statement : Node -> jsstring -> completion jsstring)
  (condition then_ else_ : option Node) (indent : jsstring)
  : completion jsstring :=
  Returns (indent ++ lit "if (" ++ tpl (javaExpression condition)
           ++ lit ") {" ++ [NL])
  +++ javaBody statement then_ indent
  +++ Returns (indent ++ lit "}")
  +++ match else_ with
      | Some e =>
          Returns (lit " else {" ++ [NL])
          +++ match e with
              | Block statements =>
                  javaStatements statement statements (indent ++ lit "    ")
              | IfStatement _ _ _ =>
                  andThen (statement e []) (fun code =>
                    Returns (indent ++ lit "    " ++ trim code ++ [NL]))
              | _ => statement e (indent ++ lit "    ")
              end
          +++ Returns (indent ++ lit "}")
      | None => Returns []
      end
  +++ Returns [NL].

Definition generateJavaForLoop
  (statement : Node -> jsstring -> completion jsstring)
  (init condition update body : option Node) (indent : jsstring)
  : completion jsstring :=
  andThen
    match init with
    | Some node =>
        andThen (statement node []) (fun code =>
          Returns (trim (dropLastSemicolon code)))
    | None => Returns []
    end
    (fun initCode =>
       let condCode :=
         match condition with
         | Some e => tpl (generateJavaExpression e)
         | None => []
         end in
       let updateCode :=
         match update with
         | Some e => tpl (generateJavaExpression e)
         | None => []
         end in
       Returns (indent ++ lit "for (" ++ initCode ++ lit "; " ++ condCode
                ++ lit "; " ++ updateCode ++ lit ") {" ++ [NL])
       +++ javaBody statement body indent
       +++ Returns (indent ++ lit "}" ++ [NL])).

Fixpoint generateJavaStatement (node : Node) (indent : jsstring)
  : completion jsstring :=
  match node with
  | Variable_ dataType name v =>
      let javaType := mapJavaType dataType in
      let text :=
        match v with
        | Some e => tpl (generateJavaExpression e)
        | None => getDefaultValue javaType
        end in
      Returns (indent ++ javaType ++ lit " " ++ tpl name ++ lit " = " ++ text
               ++ lit ";" ++ [NL])
  | Assignment identifier operator v =>
      if streq operator (lit "++") || streq operator (lit "--") then
        Returns (indent ++ tpl identifier ++ operator ++ lit ";" ++ [NL])
      else
        Returns (indent ++ tpl identifier ++ lit " " ++ operator ++ lit " "
                 ++ tpl (javaExpression v) ++ lit ";" ++ [NL])
  | PrintfStatement arguments => generateJavaPrintf arguments indent
  | ScanfStatement arguments => generateJavaScanf arguments indent
  | FunctionCall name arguments =>
      Returns (indent ++ tpl name ++ lit "("
               ++ join (lit ", ") (map generateJavaExpression arguments)
               ++ lit ");" ++ [NL])
  | IfStatement condition then_ else_ =>
      generateJavaIfStatement generateJavaStatement condition then_ else_
        indent
  | WhileLoop condition body =>
      Returns (indent ++ lit "while (" ++ tpl (javaExpression condition)
               ++ lit ") {" ++ [NL])
      +++ javaBody generateJavaStatement body indent
      +++ Returns (indent ++ lit "}" ++ [NL])
  | ForLoop init condition update body =>
      generateJavaForLoop generateJavaStatement init condition update body
        indent
  | ReturnStatement v =>
      let retValue :=
        match v with
        | Some e => tpl (generateJavaExpression e)
        | None => []
        end in
      Returns (indent ++ lit "return " ++ retValue ++ lit ";" ++ [NL])
  | Block body => javaStatements generateJavaStatement body indent
  | _ => Returns []
  end.

Definition generateJavaStatements :=
  javaStatements generateJavaStatement.

Definition javaParameter (p : Param) : option jsstring :=
  Some (mapJavaType (Some (param_type p)) ++ lit " " ++ tpl (param_name p)).

(** The body of the [for (const node of this.ast.body)] loop of
    [generateJava]: what the node adds to [classContent], and whether it
    is the function [main]. *)
Definition generateJava_node (node : Node) : completion jsstring * bool :=
  match node with
  | Include _ => (Returns [], false)
  | Function_ returnType name parameters body =>
      if is_text name "main" then
        (Returns (lit "    public static void main(String[] args) {" ++ [NL]
                  ++ lit "        Scanner scanner = new Scanner(System.in);"
                  ++ [NL])
         +++ generateJavaStatements body (lit "        ")
         +++ Returns (lit "        scanner.close();" ++ [NL]
                      ++ lit "    }" ++ [NL; NL]),
         true)
      else
        (Returns (lit "    public static " ++ mapJavaType returnType
                  ++ lit " " ++ tpl name ++ lit "("
                  ++ join (lit ", ") (map javaParameter parameters)
                  ++ lit ") {" ++ [NL])
         +++ generateJavaStatements body (lit "        ")
         +++ Returns (lit "    }" ++ [NL; NL]),
         false)
  | _ => (generateJavaStatement node (lit "    "), false)
  end.

Fixpoint generateJava_loop (body : list Node)
  (classContent : completion jsstring) (hasMain : bool)
  : completion jsstring * bool :=
  match body with
  | [] => (classContent, hasMain)
  | node :: others =>
      let '(code, isMain) := generateJava_node node in
      generateJava_loop others (classContent +++ code) (hasMain || isMain)
  end.

Definition generateJava (ast : ASTNode) : completion jsstring :=
  match ast_body ast with
  | ArrayOf body =>
      let '(classContent, hasMain) :=
        generateJava_loop body (Returns []) false in
      if hasMain then
        andThen classContent (fun classContent =>
          Returns (lit "import java.util.Scanner;" ++ [NL; NL]
                   ++ lit "public class Main {" ++ [NL] ++ classContent
                   ++ lit "}"))
      else classContent
  | Missing | NotArray _ => Returns (lit "// Error: Invalid AST structure")
  end.

(* ================================================================== *)
(** * CodeGenerator: the indentation dialect (Python) *)
(* ================================================================== *)

Fixpoint generatePythonExpression (expr : Node) : option jsstring :=
  let sub (e : option Node) : option jsstring :=
    match e with
    | Some n => generatePythonExpression n
    | None => Some []
    end in
  match expr with
  | Literal v dataType =>
      if streq dataType (lit "string")
      then Some ([QUOTE] ++ literalText v ++ [QUOTE])
      else Some (literalText v)
  | Identifier name => name
  | BinaryExpression lhs operator rhs =>
      let op :=
        if streq operator (lit "&&") then lit "and"
        else if streq operator (lit "||") then lit "or"
        else operator in
      Some (tpl (sub lhs) ++ lit " " ++ op ++ lit " " ++ tpl (sub rhs))
  | UnaryExpression operator operand =>
      if streq operator (lit "&") then sub operand
      else Some (operator ++ tpl (sub operand))
  | FunctionCall name arguments =>
      Some (tpl name ++ lit "("
            ++ join (lit ", ") (map generatePythonExpression arguments)
            ++ lit ")")
  | _ => Some []
  end.

Definition pythonExpression (e : option Node) : option jsstring :=
  match e with
  | Some n => generatePythonExpression n
  | None => Some []
  end.

(** [this.generatePythonExpression(v)] for a field value [v] that is
    truthy: a value that is not a node has no [type], which selects the
    [default] branch. *)
Definition pythonExpressionOf (v : FieldValue) : option jsstring :=
  match v with
  | FObject n => generatePythonExpression n
  | _ => Some []
  end.

Definition generatePythonPrintf (arguments : list Node) (indent : jsstring)
  : completion jsstring :=
  match arguments with
  | [] => Returns (indent ++ lit "print()" ++ [NL])
  | formatStr :: args =>
      match args with
      | _ :: _ =>
          match or_else (field_value formatStr) (FObject formatStr) with
          | FString text =>
              let pythonFormat :=
                replaceAll2 37 99 (lit "{}")
                  (replaceAll2 37 102 (lit "{}")
                     (replaceAll2 37 115 (lit "{}")
                        (replaceAll2 37 100 (lit "{}") text))) in
              let argValues :=
                join (lit ", ") (map generatePythonExpression args) in
              Returns (indent ++ lit "print(" ++ [QUOTE] ++ pythonFormat
                       ++ [QUOTE] ++ lit ".format(" ++ argValues ++ lit "))"
                       ++ [NL])
          | _ => Throws
          end
      | [] =>
          Returns (indent ++ lit "print("
                   ++ tpl (generatePythonExpression formatStr) ++ lit ")"
                   ++ [NL])
      end
  end.

Definition generatePythonScanf (arguments : list Node) (indent : jsstring)
  : completion jsstring :=
  match arguments with
  | formatStr :: second :: _ =>
      let variable := tpl (generatePythonExpression second) in
      andThen (scanfCall formatStr "int(input())" "float(input())" "input()")
        (fun call => Returns (indent ++ variable ++ lit " = " ++ call ++ [NL]))
  | _ => Returns (indent ++ lit "# Input needed" ++ [NL])
  end.

(** The loop of [generatePythonStatements]: the code and [hasContent]. *)
Definition pythonStatements_loop
  (statement : Node -> jsstring -> completion jsstring)
  : list Node -> jsstring -> completion (jsstring * bool) :=
  fix each (statements : list Node) (indent : jsstring) :=
    match statements with
    | [] => Returns ([], false)
    | stmt :: others =>
        andThen (statement stmt indent) (fun stmtCode =>
          andThen (each others indent) (fun '(code, hasContent) =>
            if negb (Nat.eqb (length (trim stmtCode)) 0)
            then Returns (stmtCode ++ code, true)
            else Returns (code, hasContent)))
    end.

Definition pythonStatements
  (statement : Node -> jsstring -> completion jsstring)
  (statements : list Node) (indent : jsstring) : completion jsstring :=
  andThen (pythonStatements_loop statement statements indent)
    (fun '(code, hasContent) =>
       if hasContent then Returns code
       else Returns (code ++ indent ++ lit "pass" ++ [NL])).

Definition pythonBody (statement : Node -> jsstring -> completion jsstring)
  (body : option Node) (indent : jsstring) : completion jsstring :=
  match body with
  | Some (Block statements) =>
      pythonStatements statement statements (indent ++ lit "    ")
  | Some node => statement node (indent ++ lit "    ")
  | None => Returns []
  end.

Definition generatePythonIfStatement
  (statement : Node -> jsstring -> completion jsstring)
  (condition then_ else_ : option Node) (indent : jsstring)
  : completion jsstring :=
  Returns (indent ++ lit "if " ++ tpl (pythonExpression condition)
           ++ lit ":" ++ [NL])
  +++ pythonBody statement then_ indent
  +++ match else_ with
      | Some e =>
          match e with
          | IfStatement _ _ _ =>
              andThen (statement e []) (fun code =>
                Returns (indent ++ lit "el" ++ trim code ++ [NL]))
          | _ =>
              Returns (indent ++ lit "else:" ++ [NL])
              +++ pythonBody statement else_ indent
          end
      | None => Returns []
      end.

Definition generatePythonForLoop
  (statement : Node -> jsstring -> completion jsstring)
  (init condition update body : option Node) (indent : jsstring)
  : completion jsstring :=
  match init, condition, update with
  | Some init, Some condition, Some _ =>
      let initVar := or_else (field_name init) (field_identifier init) in
      let startVal :=
        if truthy (field_value init)
        then tpl (pythonExpressionOf (field_value init))
        else lit "0" in
      let endVal :=
        match condition with
        | BinaryExpression _ operator rhs =>
            if streq operator (lit "<") then tpl (pythonExpression rhs)
            else if streq operator (lit "<=")
            then tpl (pythonExpression rhs) ++ lit " + 1"
            else lit "10"
        | _ => lit "10"
        end in
      Returns (indent ++ lit "for " ++ nameText initVar ++ lit " in range("
               ++ startVal ++ lit ", " ++ endVal ++ lit "):" ++ [NL])
      +++ pythonBody statement body indent
  | _, _, _ => Returns (indent ++ lit "# For loop conversion needed" ++ [NL])
  end.

Fixpoint generatePythonStatement (node : Node) (indent : jsstring)
  : completion jsstring :=
  match node with
  | Variable_ dataType name v =>
      let text :=
        match v with
        | Some e => tpl (generatePythonExpression e)
        | None => getPythonDefaultValue dataType
        end in
      Returns (indent ++ tpl name ++ lit " = " ++ text ++ [NL])
  | Assignment identifier operator v =>
      if streq operator (lit "++") then
        Returns (indent ++ tpl identifier ++ lit " += 1" ++ [NL])
      else if streq operator (lit "--") then
        Returns (indent ++ tpl identifier ++ lit " -= 1" ++ [NL])
      else
        Returns (indent ++ tpl identifier ++ lit " " ++ operator ++ lit " "
                 ++ tpl (pythonExpression v) ++ [NL])
  | PrintfStatement arguments => generatePythonPrintf arguments indent
  | ScanfStatement arguments => generatePythonScanf arguments indent
  | FunctionCall name arguments =>
      Returns (indent ++ tpl name ++ lit "("
               ++ join (lit ", ") (map generatePythonExpression arguments)
               ++ lit ")" ++ [NL])
  | IfStatement condition then_ else_ =>
      generatePythonIfStatement generatePythonStatement condition then_ else_
        indent
  | WhileLoop condition body =>
      Returns (indent ++ lit "while " ++ tpl (pythonExpression condition)
               ++ lit ":" ++ [NL])
      +++ pythonBody generatePythonStatement body indent
  | ForLoop init condition update body =>
      generatePythonForLoop generatePythonStatement init condition update
        body indent
  | ReturnStatement v =>
      let retValue :=
        match v with
        | Some e => tpl (generatePythonExpression e)
        | None => []
        end in
      Returns (indent ++ lit "return " ++ retValue ++ [NL])
  | Block body => pythonStatements generatePythonStatement body indent
  | _ => Returns []
  end.

Definition generatePythonStatements :=
  pythonStatements generatePythonStatement.

(** The body of the loop of [generatePython]. *)
Definition generatePython_node (node : Node) : completion jsstring * bool :=
  match node with
  | Include _ => (Returns [], false)
  | Function_ returnType name parameters body =>
      if is_text name "main" then
        (Returns (lit "def main():" ++ [NL])
         +++ generatePythonStatements body (lit "    ")
         +++ Returns [NL],
         true)
      else
        (Returns (lit "def " ++ tpl name ++ lit "("
                  ++ join (lit ", ") (map param_name parameters)
                  ++ lit "):" ++ [NL])
         +++ generatePythonStatements body (lit "    ")
         +++ Returns [NL],
         false)
  | _ => (generatePythonStatement node [], false)
  end.

Fixpoint generatePython_loop (body : list Node)
  (pythonCode : completion jsstring) (hasMain : bool)
  : completion jsstring * bool :=
  match body with
  | [] => (pythonCode, hasMain)
  | node :: others =>
      let '(code, isMain) := generatePython_node node in
      generatePython_loop others (pythonCode +++ code) (hasMain || isMain)
  end.

Definition generatePython (ast : ASTNode) : completion jsstring :=
  match ast_body ast with
  | ArrayOf body =>
      let '(pythonCode, hasMain) :=
        generatePython_loop body (Returns []) false in
      if hasMain then
        pythonCode
        +++ Returns (lit "if __name__ == " ++ [QUOTE] ++ lit "__main__"
                     ++ [QUOTE] ++ lit ":" ++ [NL] ++ lit "    main()" ++ [NL])
      else pythonCode
  | Missing | NotArray _ => Returns (lit "# Error: Invalid AST structure")
  end.

End CodeGenerator.

(* ================================================================== *)
(** * The page: the phases of a run *)
(* ================================================================== *)

(** [array.indexOf(text)], from the index [i] on: the index of the first
    element that is [text], or -1. *)
Fixpoint indexOf_from (l : list string) (text : jsstring) (i : Z) : Z :=
  match l with
  | [] => (-1)%Z
  | s :: r => if streq text (lit s) then i else indexOf_from r text (i + 1)%Z
  end.

Definition indexOf (l : list string) (text : jsstring) : Z :=
  indexOf_from l text 0%Z.

Definition phases : list string :=
  [ "source"; "lexical"; "syntax"; "codegen"; "complete" ]%string.

(** [getPhaseStatus(phase)], for the value [compilerPhase] of the state
    of the page. *)
Definition getPhaseStatus (compilerPhase phase : jsstring) : string :=
  let currentIndex := indexOf phases compilerPhase in
  let phaseIndex := indexOf phases phase in
  if streq compilerPhase (lit "error") then
    if (phaseIndex <=? currentIndex)%Z then "error" else "pending"
  else if (currentIndex >? phaseIndex)%Z then "completed"
  else if (currentIndex =? phaseIndex)%Z then "active"
  else "pending".


Section Page.

Variable float_text : jsstring -> jsstring.
Variable float_truthy : jsstring -> bool.
Variable inherited : jsstring -> option jsstring.

(** [error.message] of the error that a run catches: a text of the
    engine. *)
Variable message : jsstring.



End Page.

(* ================================================================== *)
(** * Notions used in the statements and in the proofs *)
(* ================================================================== *)

(** ** Of the lexer *)

(** A token that a reader pushes: not the end-of-input token, and with a
    text. *)
Definition read_token (t : Token) : Prop :=
  type t <> EOF /\ value t <> None.

(** What a reader gives: a shorter rest and one such token. *)
Definition reads (r : jsstring) (out : jsstring * Place * Token) : Prop :=
  (length (fst (fst out)) <= length r)%nat /\ read_token (snd out).

Definition no_eof (l : list Token) : Prop := Forall read_token l.

(** Whether the scan of a literal finds its closing unit [q] in [s]: the
    first [q] that is not the second unit of a backslash pair. *)
Fixpoint has_closing (q : char) (s : jsstring) : bool :=
  match s with
  | [] => false
  | c :: r =>
      if c =? q then true
      else
        match r with
        | c2 :: r2 =>
            if c =? BACKSLASH then has_closing q r2 else has_closing q r
        | [] => false
        end
  end.

(** The units for which the loop of [tokenize] takes its last branch:
    no white space, no start of a token, no line feed. *)
Definition unsupported (c : char) : bool :=
  negb (isSpace c || isLetter c || (c =? UNDERSCORE) || isDigit c
        || (c =? QUOTE) || (c =? APOSTROPHE) || isOperator c
        || isDelimiter c || (c =? NL)).

(** White space that [skipWhitespace] skips. *)
Definition blank (c : char) : bool := isSpace c && negb (c =? NL).

(** The place after [advance()] over each unit of [s]. *)
Definition advance_over (s : jsstring) (p : Place) : Place :=
  fold_left (fun p c => advance c p) s p.

(** What an iteration of the loop of [tokenize] does after
    [skipWhitespace], [next] being the iterations that follow. *)
Definition after_whitespace (next : Lexer -> option Lexer) (st1 : Lexer)
  : option Lexer :=
  match rest st1 with
  | [] => Some st1
  | c :: _ => next (dispatch c st1)
  end.

(** The tokens returned, when the loop is left in the state [o]. *)
Definition finished (o : option Lexer) : option (list Token) :=
  match o with
  | Some st' => Some (tokens st' ++ [eof_token])
  | None => None
  end.

(** The rest and the text of what a loop reads. *)
Definition read_of (out : jsstring * Place * jsstring) : jsstring * jsstring :=
  (fst (fst out), snd out).

(** The rest, the kind and the text of what a reader gives. *)
Definition token_of (out : jsstring * Place * Token)
  : jsstring * (TokenType * option jsstring) :=
  (fst (fst out), kind_text (snd out)).

(** Two states of the analyzer that differ in places only. *)
Definition same_text (a b : Lexer) : Prop :=
  rest a = rest b /\
  map kind_text (tokens a) = map kind_text (tokens b).

(** ** Of the parser *)

Section ParserInvariant.

Variable tokens : list Token.

(** A NUMBER token without a text: the one thing that makes
    [parsePrimaryExpression] throw. *)
Definition bad_number : Prop :=
  exists t, In t tokens /\ type t = NUMBER /\ value t = None.

(** What is proved of every parsing method, called at [pos] with [fuel]:
    - when it returns, the cursor has not moved back, and for a [strict]
      method it has moved forward if there was a token at [pos];
    - when it throws, some NUMBER token has no text;
    - when the budget runs out, the budget was less than twelve units for
      each token left plus the [rank] of the method. *)
Definition post {A : Type} (rank : nat) (strict : bool) (fuel pos : nat)
  (r : res A) : Prop :=
  match r with
  | Ok _ pos' =>
      (pos <= pos')%nat /\
      (strict = true -> (pos < length tokens)%nat -> (pos < pos')%nat)
  | TypeError => bad_number
  | OutOfFuel => (fuel < 12 * (length tokens - pos) + rank)%nat
  end.

Definition rank_of (lv : Level) : nat :=
  match lv with
  | LOr => 8
  | LAnd => 7
  | LEquality => 6
  | LRelational => 5
  | LAdditive => 4
  | LMultiplicative => 3
  end%nat.

(** The statement about all the methods of the mutual recursion, for one
    budget. *)
Record all_post (fuel : nat) : Prop := mk_all_post {
  post_statement : forall pos,
    post 11 true fuel pos (parseStatement tokens fuel pos);
  post_declaration : forall pos,
    post 1 true fuel pos (parseDeclarationOrFunction tokens fuel pos);
  post_function : forall rt nm pos, (pos < length tokens)%nat ->
    post 1 true fuel pos (parseFunction tokens fuel rt nm pos);
  post_block : forall pos, (pos < length tokens)%nat ->
    post 1 true fuel pos (parseBlock tokens fuel pos);
  post_block_loop : forall sts pos,
    post 12 false fuel pos (parseBlock_loop tokens fuel sts pos);
  post_variable : forall vt nm pos,
    post 1 false fuel pos (parseVariable tokens fuel vt nm pos);
  post_if : forall pos, (pos < length tokens)%nat ->
    post 1 true fuel pos (parseIfStatement tokens fuel pos);
  post_while : forall pos, (pos < length tokens)%nat ->
    post 1 true fuel pos (parseWhileStatement tokens fuel pos);
  post_for : forall pos, (pos < length tokens)%nat ->
    post 1 true fuel pos (parseForStatement tokens fuel pos);
  post_return : forall pos, (pos < length tokens)%nat ->
    post 1 true fuel pos (parseReturnStatement tokens fuel pos);
  post_printf : forall pos, (pos < length tokens)%nat ->
    post 1 true fuel pos (parsePrintfStatement tokens fuel pos);
  post_scanf : forall pos, (pos < length tokens)%nat ->
    post 1 true fuel pos (parseScanfStatement tokens fuel pos);
  post_arguments : forall args pos,
    post 10 false fuel pos (parseArguments tokens fuel args pos);
  post_assignment : forall pos,
    post 10 true fuel pos (parseAssignmentOrFunctionCall tokens fuel pos);
  post_expression : forall pos,
    post 9 true fuel pos (parseExpression tokens fuel pos);
  post_binary : forall lv pos,
    post (rank_of lv) true fuel pos (parseBinary tokens fuel lv pos);
  post_binary_loop : forall lv lhs pos,
    post 1 false fuel pos (parseBinary_loop tokens fuel lv lhs pos);
  post_primary : forall pos,
    post 2 true fuel pos (parsePrimaryExpression tokens fuel pos)
}.

End ParserInvariant.

(** ** Of the generators *)

(** The counting loop of the specification, with [<] or [<=] for
    [op]. *)
Definition counting_loop (op : string) : jsstring :=
  lit "for (i = 0; i " ++ lit op ++ lit " 5; i++) { printf(" ++ [QUOTE]
  ++ lit "%d" ++ [QUOTE] ++ lit ", i); }".

(** Induction on nodes, with the hypothesis for the nodes held in
    lists and in fields that may be [null]. *)
Section NodeInduction.

Variable P : Node -> Prop.

Definition if_any (o : option Node) : Prop :=
  match o with
  | Some n => P n
  | None => True
  end.

Hypothesis P_Include : forall l, P (Include l).
Hypothesis P_Function : forall rt nm ps body,
  Forall P body -> P (Function_ rt nm ps body).
Hypothesis P_Block : forall body, Forall P body -> P (Block body).
Hypothesis P_Variable : forall dt nm v, if_any v -> P (Variable_ dt nm v).
Hypothesis P_Assignment : forall id op v, if_any v -> P (Assignment id op v).
Hypothesis P_If : forall c t e,
  if_any c -> if_any t -> if_any e -> P (IfStatement c t e).
Hypothesis P_While : forall c b, if_any c -> if_any b -> P (WhileLoop c b).
Hypothesis P_For : forall i c u b,
  if_any i -> if_any c -> if_any u -> if_any b -> P (ForLoop i c u b).
Hypothesis P_Return : forall v, if_any v -> P (ReturnStatement v).
Hypothesis P_Printf : forall args, Forall P args -> P (PrintfStatement args).
Hypothesis P_Scanf : forall args, Forall P args -> P (ScanfStatement args).
Hypothesis P_Call : forall nm args, Forall P args -> P (FunctionCall nm args).
Hypothesis P_Binary : forall l op r,
  if_any l -> if_any r -> P (BinaryExpression l op r).
Hypothesis P_Unary : forall op e, if_any e -> P (UnaryExpression op e).
Hypothesis P_Literal : forall v dt, P (Literal v dt).
Hypothesis P_Identifier : forall nm, P (Identifier nm).

Fixpoint Node_induction (n : Node) : P n :=
  let all :=
    fix all (l : list Node) : Forall P l :=
      match l with
      | [] => Forall_nil P
      | x :: l' => Forall_cons x (Node_induction x) (all l')
      end in
  let any (o : option Node) : if_any o :=
    match o with
    | Some x => Node_induction x
    | None => I
    end in
  match n with
  | Include l => P_Include l
  | Function_ rt nm ps body => P_Function rt nm ps body (all body)
  | Block body => P_Block body (all body)
  | Variable_ dt nm v => P_Variable dt nm v (any v)
  | Assignment id op v => P_Assignment id op v (any v)
  | IfStatement c t e => P_If c t e (any c) (any t) (any e)
  | WhileLoop c b => P_While c b (any c) (any b)
  | ForLoop i c u b => P_For i c u b (any i) (any c) (any u) (any b)
  | ReturnStatement v => P_Return v (any v)
  | PrintfStatement args => P_Printf args (all args)
  | ScanfStatement args => P_Scanf args (all args)
  | FunctionCall nm args => P_Call nm args (all args)
  | BinaryExpression l op r => P_Binary l op r (any l) (any r)
  | UnaryExpression op e => P_Unary op e (any e)
  | Literal v dt => P_Literal v dt
  | Identifier nm => P_Identifier nm
  end.

End NodeInduction.

(** A text whose last unit is a line feed. *)
Inductive ends_nl : jsstring -> Prop :=
| ends_here : ends_nl [NL]
| ends_later : forall c s, ends_nl s -> ends_nl (c :: s).

(** A piece of generated code: nothing, or lines. *)
Definition lines (s : jsstring) : Prop := s = [] \/ ends_nl s.

(** The same of what a method returns, when it returns. *)
Definition Lines (c : completion jsstring) : Prop :=
  match c with
  | Returns s => lines s
  | Throws => True
  end.

Definition EndsNL (c : completion jsstring) : Prop :=
  match c with
  | Returns s => ends_nl s
  | Throws => True
  end.

(** The text that a method returned, if it did. *)
Definition returned (c : completion jsstring) : jsstring :=
  match c with
  | Returns s => s
  | Throws => []
  end.

Definition java_diagnostic : jsstring := lit "// Error: Invalid AST structure".
Definition python_diagnostic : jsstring := lit "# Error: Invalid AST structure".

(** A root whose [body] is missing or is not an array. *)
Definition malformed (ast : ASTNode) : Prop :=
  match ast_body ast with
  | ArrayOf _ => False
  | Missing | NotArray _ => True
  end.

(** ** The shape of the tokens *)

Definition isIdentifierUnit (c : char) : bool :=
  isLetter c || isDigit c || (c =? UNDERSCORE).

Definition isNumberUnit (c : char) : bool := isDigit c || (c =? DOT).

(** A letter or an underscore, then letters, digits and underscores. *)
Definition identifierShape (v : jsstring) : bool :=
  match v with
  | c :: r => (isLetter c || (c =? UNDERSCORE)) && forallb isIdentifierUnit r
  | [] => false
  end.

Definition dots (v : jsstring) : nat := length (filter (N.eqb DOT) v).

(** A digit, then digits with at most one decimal point among them. *)
Definition numberShape (v : jsstring) : bool :=
  match v with
  | c :: _ => isDigit c && forallb isNumberUnit v && Nat.leb (dots v) 1
  | [] => false
  end.

(** The texts that a token of each kind can have. *)
Definition text_of_kind (ty : TokenType) (v : jsstring) : bool :=
  match ty with
  | KEYWORD => identifierShape v && existsb (is_text (Some v)) keywords
  | IDENTIFIER =>
      identifierShape v && negb (existsb (is_text (Some v)) keywords)
  | NUMBER => numberShape v
  | STRING => true
  | OPERATOR =>
      match v with
      | [c] => isOperator c
      | [c; _] => isOperator c && existsb (is_text (Some v)) twoCharOperators
      | _ => false
      end
  | DELIMITER =>
      match v with
      | [c] => isDelimiter c
      | _ => false
      end
  | NEWLINE => streq v [NL]
  | EOF => false
  end.

(** The order of the places in a text. *)
Definition place_lt (p q : Place) : Prop :=
  (at_line p < at_line q)%nat \/
  (at_line p = at_line q /\ (at_column p < at_column q)%nat).

Definition place_le (p q : Place) : Prop :=
  (at_line p < at_line q)%nat \/
  (at_line p = at_line q /\ (at_column p <= at_column q)%nat).

(** Lines and columns are counted from 1. *)
Definition upright (p : Place) : Prop :=
  (1 <= at_line p)%nat /\ (1 <= at_column p)%nat.

(** The place a token carries, when it carries one. *)
Definition token_place (t : Token) : option Place :=
  match line t, column t with
  | Some l, Some c => Some (mkPlace l c)
  | _, _ => None
  end.

(** Both tokens carry a place, and the first one comes first. *)
Definition token_before (a b : Token) : Prop :=
  match token_place a, token_place b with
  | Some p, Some q => place_lt p q
  | _, _ => False
  end.

(** The token starts before the place [p]. *)
Definition starts_before (p : Place) (t : Token) : Prop :=
  match token_place t with
  | Some q => place_lt q p
  | None => False
  end.

(** A token with a text of its kind, at a line and a column counted
    from 1. *)
Definition lexed (t : Token) : Prop :=
  exists ty v l c,
    t = tok ty v l c /\ text_of_kind ty v = true /\
    (1 <= l)%nat /\ (1 <= c)%nat.

(** What the loop of [tokenize] keeps true of the state of the analyzer,
    for an input of [n] units. *)
Record lexer_invariant (n : nat) (st : Lexer) : Prop := mk_lexer_invariant {
  inv_count : (length (tokens st) + length (rest st) <= n)%nat;
  inv_lexed : Forall lexed (tokens st);
  inv_sorted : StronglySorted token_before (tokens st);
  inv_before : Forall (starts_before (place st)) (tokens st);
  inv_upright : upright (place st)
}.

(** A place [q] that the cursor reaches from the place [p]. *)
Definition reaches (p q : Place) : Prop :=
  place_le p q /\ (upright p -> upright q).

(** What a reader gives when it reads at the place [p] with [r] after the
    first unit: a shorter rest, a later place, and a token of some kind
    with a text of that kind, which starts at [p]. *)
Definition reads_at (p : Place) (r : jsstring)
  (out : jsstring * Place * Token) : Prop :=
  (length (fst (fst out)) <= length r)%nat /\
  (place_lt p (snd (fst out)) /\ (upright p -> upright (snd (fst out)))) /\
  exists ty v,
    snd out = tok ty v (at_line p) (at_column p) /\ text_of_kind ty v = true.

(** ** Comments and plain text *)

(** No line feed in the text. *)
Definition on_one_line (text : jsstring) : bool :=
  forallb (fun c => negb (c =? NL)) text.

(** The end of a line: the end of the input, or a line feed. *)
Definition at_line_end (tail : jsstring) : bool :=
  match tail with
  | [] => true
  | c :: _ => c =? NL
  end.

(** The units the loop of [tokenize] has a use for, but for the quotes. *)
Definition plain (c : char) : bool :=
  isSpace c || isLetter c || (c =? UNDERSCORE) || isDigit c || isOperator c
  || isDelimiter c.

(** The texts of the tokens, one after the other. *)
Definition texts (toks : list Token) : jsstring :=
  flat_map (fun t => match value t with Some v => v | None => [] end) toks.

(** The text without the white space that [skipWhitespace] skips. *)
Definition without_blanks (s : jsstring) : jsstring :=
  filter (fun c => negb (blank c)) s.

(** A reader that pushes the units it moves over. *)
Definition keeps_text (s : jsstring) (out : jsstring * Place * Token)
  : Prop :=
  exists v, value (snd out) = Some v /\ v ++ fst (fst out) = s /\
            without_blanks v = v.

(** The tokens pushed hold what was read of the input [code], but for the
    blanks. *)
Definition text_kept (code : jsstring) (st : Lexer) : Prop :=
  exists pre, code = pre ++ rest st /\
              texts (tokens st) = without_blanks pre.

(** ** The shape of the trees *)

(** [f] of the node, when there is one. *)
Definition opt_all (f : Node -> bool) (o : option Node) : bool :=
  match o with
  | Some n => f n
  | None => true
  end.

(** The operators of the six levels. *)
Definition binaryOperators : list string :=
  flat_map operators_of
    [LOr; LAnd; LEquality; LRelational; LAdditive; LMultiplicative].

(** The data type that [parsePrimaryExpression] gives a literal. *)
Definition literal_shape (v : LiteralValue) (dataType : jsstring) : bool :=
  match v with
  | NumberOf lexeme =>
      streq dataType
        (if existsb (N.eqb DOT) lexeme then lit "float" else lit "int")
  | Text _ => streq dataType (lit "string")
  end.

Section TreeShape.

(** The names that a tree may hold. *)
Variable named : option jsstring -> bool.

(** The trees of expressions: calls, binary expressions with an operator
    of the six levels, address-of expressions, literals and identifiers,
    of expressions again. *)
Fixpoint expression (n : Node) : bool :=
  match n with
  | FunctionCall name arguments => named name && forallb expression arguments
  | BinaryExpression lhs operator rhs =>
      one_of binaryOperators (Some operator)
      && opt_all expression lhs && opt_all expression rhs
  | UnaryExpression operator operand =>
      streq operator (lit "&") && opt_all expression operand
  | Literal v dataType => literal_shape v dataType
  | Identifier name => named name
  | _ => false
  end.

Definition parameter (p : Param) : bool :=
  one_of typeKeywords (Some (param_type p)) && named (param_name p).

(** The trees of statements: every field for an expression holds a tree
    of an expression or [null], every field for a statement a tree of a
    statement or [null], and every name is one of [named]. *)
Fixpoint statement (n : Node) : bool :=
  match n with
  | Include _ => true
  | Function_ _ name parameters body =>
      named name && forallb parameter parameters && forallb statement body
  | Block body => forallb statement body
  | Variable_ _ name v => named name && opt_all expression v
  | Assignment identifier operator v =>
      named identifier && one_of assignmentOperators (Some operator)
      && opt_all expression v
  | IfStatement condition then_ else_ =>
      opt_all expression condition && opt_all statement then_
      && opt_all statement else_
  | WhileLoop condition body =>
      opt_all expression condition && opt_all statement body
  | ForLoop init condition update body =>
      opt_all statement init && opt_all expression condition
      && opt_all expression update && opt_all statement body
  | ReturnStatement v => opt_all expression v
  | PrintfStatement arguments | ScanfStatement arguments =>
      forallb expression arguments
  | FunctionCall _ _ | BinaryExpression _ _ _ | UnaryExpression _ _
  | Literal _ _ | Identifier _ => expression n
  end.

End TreeShape.

(** [a === b] for two values that may be [null]. *)
Definition same_value (a b : option jsstring) : bool :=
  match a, b with
  | Some x, Some y => streq x y
  | None, None => true
  | _, _ => false
  end.

(** The text of an IDENTIFIER token of [tokens]. *)
Definition is_identifier (tokens : list Token) (name : option jsstring)
  : bool :=
  existsb (fun t => TokenType_eqb (type t) IDENTIFIER
                    && same_value (value t) name) tokens.

(** A word that is no keyword. *)
Definition identifier_name (name : option jsstring) : bool :=
  match name with
  | Some v => text_of_kind IDENTIFIER v
  | None => false
  end.

Section ParserShape.

Variable tokens : list Token.
Variable named : option jsstring -> bool.

(** What is proved of the value that a parsing method returns. *)
Definition gives {A : Type} (P : A -> bool) (r : res A) : Prop :=
  match r with
  | Ok a _ => P a = true
  | _ => True
  end.

(** An IDENTIFIER token, or none, at the position. *)
Definition identifier_at (pos : nat) : bool :=
  match getCurrentToken tokens pos with
  | Some t => TokenType_eqb (type t) IDENTIFIER
  | None => true
  end.

(** The statement about all the methods of the mutual recursion, for one
    budget. *)
Record all_shaped (fuel : nat) : Prop := mk_all_shaped {
  shaped_statement : forall pos,
    gives (opt_all (statement named)) (parseStatement tokens fuel pos);
  shaped_declaration : forall pos,
    gives (opt_all (statement named))
      (parseDeclarationOrFunction tokens fuel pos);
  shaped_function : forall rt nm pos, named nm = true ->
    gives (opt_all (statement named)) (parseFunction tokens fuel rt nm pos);
  shaped_block : forall pos,
    gives (statement named) (parseBlock tokens fuel pos);
  shaped_block_loop : forall sts pos, forallb (statement named) sts = true ->
    gives (forallb (statement named)) (parseBlock_loop tokens fuel sts pos);
  shaped_variable : forall vt nm pos, named nm = true ->
    gives (opt_all (statement named)) (parseVariable tokens fuel vt nm pos);
  shaped_if : forall pos,
    gives (opt_all (statement named)) (parseIfStatement tokens fuel pos);
  shaped_while : forall pos,
    gives (opt_all (statement named)) (parseWhileStatement tokens fuel pos);
  shaped_for : forall pos,
    gives (opt_all (statement named)) (parseForStatement tokens fuel pos);
  shaped_return : forall pos,
    gives (opt_all (statement named)) (parseReturnStatement tokens fuel pos);
  shaped_printf : forall pos,
    gives (opt_all (statement named)) (parsePrintfStatement tokens fuel pos);
  shaped_scanf : forall pos,
    gives (opt_all (statement named)) (parseScanfStatement tokens fuel pos);
  shaped_arguments : forall args pos,
    forallb (expression named) args = true ->
    gives (forallb (expression named)) (parseArguments tokens fuel args pos);
  shaped_assignment : forall pos, identifier_at pos = true ->
    gives (opt_all (statement named))
      (parseAssignmentOrFunctionCall tokens fuel pos);
  shaped_expression : forall pos,
    gives (opt_all (expression named)) (parseExpression tokens fuel pos);
  shaped_binary : forall lv pos,
    gives (opt_all (expression named)) (parseBinary tokens fuel lv pos);
  shaped_binary_loop : forall lv lhs pos,
    opt_all (expression named) lhs = true ->
    gives (opt_all (expression named))
      (parseBinary_loop tokens fuel lv lhs pos);
  shaped_primary : forall pos,
    gives (opt_all (expression named))
      (parsePrimaryExpression tokens fuel pos)
}.

End ParserShape.

(** ** Of the generators *)

(** A method that returns. *)
Definition Returned {A : Type} (c : completion A) : Prop :=
  match c with
  | Returns _ => True
  | Throws => False
  end.

(** A literal of a text that is not empty. *)
Definition is_format (n : Node) : bool :=
  match n with
  | Literal (Text (Some s)) _ => negb (Nat.eqb (length s) 0)
  | _ => false
  end.

(** A node whose [value] is a text, [null] or [undefined]. *)
Definition no_number (n : Node) : bool :=
  match field_value n with
  | FUndefined | FNull | FString _ => true
  | FNumber _ | FObject _ => false
  end.

(** In the statements of the tree, a [printf] with arguments after the
    first has a format as the first, and a [scanf] with two arguments has
    no number as the first. *)
Fixpoint formats_are_texts (n : Node) : bool :=
  match n with
  | PrintfStatement (first :: _ :: _) => is_format first
  | ScanfStatement (first :: _ :: _) => no_number first
  | Function_ _ _ _ body | Block body => forallb formats_are_texts body
  | IfStatement _ then_ else_ =>
      opt_all formats_are_texts then_ && opt_all formats_are_texts else_
  | WhileLoop _ body => opt_all formats_are_texts body
  | ForLoop init _ _ body =>
      opt_all formats_are_texts init && opt_all formats_are_texts body
  | _ => true
  end.

(** No operator [&&] or [||] in the tree. *)
Fixpoint no_logical_operator (n : Node) : bool :=
  match n with
  | BinaryExpression lhs operator rhs =>
      negb (streq operator (lit "&&")) && negb (streq operator (lit "||"))
      && opt_all no_logical_operator lhs && opt_all no_logical_operator rhs
  | UnaryExpression _ operand => opt_all no_logical_operator operand
  | FunctionCall _ arguments => forallb no_logical_operator arguments
  | _ => true
  end.

(** A literal whose text the scan of [readString] or [readCharLiteral]
    reads to its end without meeting the closing unit [q], and after
    which a unit [q] closes the literal: no [q] but as the second unit of
    a backslash pair, and no backslash left alone at the end. *)
Fixpoint literal_text (q : char) (s : jsstring) : bool :=
  match s with
  | [] => true
  | c :: r =>
      if c =? q then false
      else
        match r with
        | c2 :: r2 =>
            if c =? BACKSLASH then literal_text q r2 else literal_text q r
        | [] => negb (c =? BACKSLASH)
        end
  end.

(** ** The places of the tokens *)

(** The place of the unit that follows the text [pre] at the start of
    the input. *)
Definition place_after (pre : jsstring) : Place :=
  advance_over pre (mkPlace 1 1).

(** The last line of a text: what follows its last line feed. *)
Fixpoint last_line (s : jsstring) : jsstring :=
  match s with
  | [] => []
  | c :: r => if existsb (N.eqb NL) r then last_line r
              else if c =? NL then r else s
  end.

(** The token is at its place in [code]: it carries the place of a unit
    of the code, and its text is read there; for a STRING token, after
    the quote that is there. *)
Definition located (code : jsstring) (t : Token) : Prop :=
  exists pre v post,
    token_place t = Some (place_after pre) /\
    value t = Some v /\
    (code = pre ++ v ++ post \/
     type t = STRING /\ exists q, code = pre ++ q :: v ++ post).

(** The state of the analyzer is at its place in [code]. *)
Definition on_place (code : jsstring) (st : Lexer) : Prop :=
  exists pre,
    code = pre ++ rest st /\ place st = place_after pre /\
    Forall (located code) (tokens st).

(** What a reader gives when it reads [s] at the place [p]: a place
    after the units it has moved over, and a token with its text among
    them. *)
Definition reads_there (s : jsstring) (p : Place)
  (out : jsstring * Place * Token) : Prop :=
  exists moved v post,
    s = moved ++ fst (fst out) /\
    snd (fst out) = advance_over moved p /\
    token_place (snd out) = Some p /\
    value (snd out) = Some v /\
    (moved = v ++ post \/
     type (snd out) = STRING /\ exists q, moved = q :: v ++ post).

(** What a skip gives. *)
Definition skips_there (s : jsstring) (p : Place) (out : jsstring * Place)
  : Prop :=
  exists moved, s = moved ++ fst out /\ snd out = advance_over moved p.

(** ** What the parser reads of a token *)

(** The token without its place. *)
Definition strip (t : Token) : Token := mkToken (type t) (value t) None None.

Section ParserReads.

Variable tokens : list Token.

(** The statement about all the methods of the mutual recursion, for one
    budget: they do the same on the tokens without their places. *)
Record all_same (fuel : nat) : Prop := mk_all_same {
  same_statement : forall pos,
    parseStatement (map strip tokens) fuel pos =
    parseStatement tokens fuel pos;
  same_declaration : forall pos,
    parseDeclarationOrFunction (map strip tokens) fuel pos =
    parseDeclarationOrFunction tokens fuel pos;
  same_function : forall rt nm pos,
    parseFunction (map strip tokens) fuel rt nm pos =
    parseFunction tokens fuel rt nm pos;
  same_block : forall pos,
    parseBlock (map strip tokens) fuel pos = parseBlock tokens fuel pos;
  same_block_loop : forall sts pos,
    parseBlock_loop (map strip tokens) fuel sts pos =
    parseBlock_loop tokens fuel sts pos;
  same_variable : forall vt nm pos,
    parseVariable (map strip tokens) fuel vt nm pos =
    parseVariable tokens fuel vt nm pos;
  same_if : forall pos,
    parseIfStatement (map strip tokens) fuel pos =
    parseIfStatement tokens fuel pos;
  same_while : forall pos,
    parseWhileStatement (map strip tokens) fuel pos =
    parseWhileStatement tokens fuel pos;
  same_for : forall pos,
    parseForStatement (map strip tokens) fuel pos =
    parseForStatement tokens fuel pos;
  same_return : forall pos,
    parseReturnStatement (map strip tokens) fuel pos =
    parseReturnStatement tokens fuel pos;
  same_printf : forall pos,
    parsePrintfStatement (map strip tokens) fuel pos =
    parsePrintfStatement tokens fuel pos;
  same_scanf : forall pos,
    parseScanfStatement (map strip tokens) fuel pos =
    parseScanfStatement tokens fuel pos;
  same_arguments : forall args pos,
    parseArguments (map strip tokens) fuel args pos =
    parseArguments tokens fuel args pos;
  same_assignment : forall pos,
    parseAssignmentOrFunctionCall (map strip tokens) fuel pos =
    parseAssignmentOrFunctionCall tokens fuel pos;
  same_expression : forall pos,
    parseExpression (map strip tokens) fuel pos =
    parseExpression tokens fuel pos;
  same_binary : forall lv pos,
    parseBinary (map strip tokens) fuel lv pos =
    parseBinary tokens fuel lv pos;
  same_binary_loop : forall lv lhs pos,
    parseBinary_loop (map strip tokens) fuel lv lhs pos =
    parseBinary_loop tokens fuel lv lhs pos;
  same_primary : forall pos,
    parsePrimaryExpression (map strip tokens) fuel pos =
    parsePrimaryExpression tokens fuel pos
}.

End ParserReads.

(** ** The levels of the binary operators *)

(** The place of a level in the chain of the methods [parseOrExpression],
    ..., [parseMultiplicativeExpression], each of which calls the next
    for its operands. *)
Definition level_index (lv : Level) : nat :=
  match lv with
  | LOr => 0
  | LAnd => 1
  | LEquality => 2
  | LRelational => 3
  | LAdditive => 4
  | LMultiplicative => 5
  end%nat.

(** Tokens as the parser reads them: an identifier and an operator. *)
Definition identifier_token (name : option jsstring) : Token :=
  mkToken IDENTIFIER name None None.

Definition operator_token (operator : string) : Token :=
  mkToken OPERATOR (Some (lit operator)) None None.

(* ================================================================== *)
(** * The lexer always finishes *)
(* ================================================================== *)

Section LexerProgress.

Local Open Scope nat_scope.

Lemma skipSingleLineComment_length : forall r p,
  length (fst (skipSingleLineComment r p)) <= length r.
Proof.
  induction r as [|c r IH]; intros p; simpl; [lia|].
  destruct (negb (c =? NL)%N); simpl; [specialize (IH (advance c p))|]; lia.
Qed.

Lemma skipMultiLineComment_loop_length : forall n r p,
  length r <= n ->
  length (fst (skipMultiLineComment_loop r p)) <= length r.
Proof.
  induction n as [|n IH]; intros r p Hn.
  - destruct r; simpl in *; lia.
  - destruct r as [|c [|c2 r2]]; simpl in *; try lia.
    destruct ((c =? STAR)%N && (c2 =? SLASH)%N); simpl; [lia|].
    specialize (IH (c2 :: r2) (advance c p)). simpl in IH. lia.
Qed.

Lemma skipWhitespace_length : forall r p,
  length (fst (skipWhitespace r p)) <= length r.
Proof.
  induction r as [|c r IH]; intros p; simpl; [lia|].
  destruct (isSpace c && negb (c =? NL)%N); simpl;
    [specialize (IH (advance c p))|]; lia.
Qed.

Lemma readIdentifier_loop_length : forall r p v,
  length (fst (fst (readIdentifier_loop r p v))) <= length r.
Proof.
  induction r as [|c r IH]; intros p v; simpl; [lia|].
  destruct (isLetter c || isDigit c || (c =? UNDERSCORE)%N); simpl;
    [specialize (IH (advance c p) (v ++ [c]))|]; lia.
Qed.

Lemma readNumber_loop_length : forall r p d v,
  length (fst (fst (readNumber_loop r p d v))) <= length r.
Proof.
  induction r as [|c r IH]; intros p d v; simpl; [lia|].
  destruct (isDigit c || ((c =? DOT)%N && negb d)); simpl; [|lia].
  specialize (IH (advance c p) (if (c =? DOT)%N then true else d) (v ++ [c])).
  lia.
Qed.

Lemma readQuoted_loop_length : forall q n r p v,
  length r <= n ->
  length (fst (fst (readQuoted_loop q r p v))) <= length r.
Proof.
  induction n as [|n IH]; intros r p v Hn.
  - destruct r; simpl in *; lia.
  - destruct r as [|c r]; simpl in *; [lia|].
    destruct (negb (c =? q)%N); simpl; [|lia].
    destruct r as [|c2 r2].
    + simpl. lia.
    + destruct (c =? BACKSLASH)%N.
      * specialize (IH r2 (advance c2 (advance c p)) (v ++ [c] ++ [c2])).
        simpl in *. lia.
      * specialize (IH (c2 :: r2) (advance c p) (v ++ [c])). simpl in *. lia.
Qed.

Lemma readIdentifier_reads : forall c r p,
  isLetter c || (c =? UNDERSCORE)%N = true ->
  reads r (readIdentifier (c :: r) p).
Proof.
  intros c r p H. unfold readIdentifier. simpl.
  replace (isLetter c || isDigit c || (c =? UNDERSCORE)%N) with true
    by (destruct (isLetter c), (isDigit c), (c =? UNDERSCORE)%N;
        simpl in *; congruence).
  pose proof (readIdentifier_loop_length r (advance c p) [c]) as L.
  destruct (readIdentifier_loop r (advance c p) [c]) as [[r' p'] v].
  split; [simpl in *; lia|]. unfold tok. split; cbn [snd type value].
  - match goal with |- (if ?b then _ else _) <> _ => destruct b end;
      discriminate.
  - discriminate.
Qed.

Lemma readNumber_reads : forall c r p,
  isDigit c = true -> reads r (readNumber (c :: r) p).
Proof.
  intros c r p H. unfold readNumber. simpl. rewrite H. simpl.
  pose proof (readNumber_loop_length r (advance c p)
                (if (c =? DOT)%N then true else false) [c]) as L.
  destruct (readNumber_loop r (advance c p) _ [c]) as [[r' p'] v].
  split; simpl in *; [lia|split; discriminate].
Qed.

Lemma readQuoted_reads : forall q c r p, reads r (readQuoted q (c :: r) p).
Proof.
  intros q c r p. unfold readQuoted.
  pose proof (readQuoted_loop_length q (length r) r (advance c p) []
                (le_n _)) as L.
  destruct (readQuoted_loop q r (advance c p) []) as [[r' p'] v].
  destruct r' as [|c' r']; split; simpl in *; try lia; split; discriminate.
Qed.

Lemma readOperator_reads : forall c r p, reads r (readOperator c r p).
Proof.
  intros c r p. unfold readOperator. destruct r as [|next r2].
  - split; simpl; [lia|split; discriminate].
  - destruct (existsb _ twoCharOperators); split; simpl; try lia;
      split; discriminate.
Qed.

Lemma readDelimiter_reads : forall c r p, reads r (readDelimiter c r p).
Proof. intros c r p. split; simpl; [lia|split; discriminate]. Qed.

Lemma pushed_reads : forall st r out,
  reads r out -> no_eof (tokens st) ->
  length (rest (pushed st out)) <= length r /\ no_eof (tokens (pushed st out)).
Proof.
  intros st r [[r' p'] t] [L T] H. simpl in *. split; [exact L|].
  apply Forall_app. split; [exact H|]. constructor; [exact T|constructor].
Qed.

(** Every branch of the loop body moves the cursor and pushes no
    end-of-input token. *)
Lemma dispatch_progress : forall c r st,
  rest st = c :: r -> no_eof (tokens st) ->
  length (rest (dispatch c st)) <= length r /\
  no_eof (tokens (dispatch c st)).
Proof.
  intros c r st Hr Ht. unfold dispatch. rewrite Hr.
  destruct ((c =? SLASH)%N && peek_is (c :: r) SLASH) eqn:E1.
  { apply andb_prop in E1 as [Ec _]. apply N.eqb_eq in Ec. subst c.
    split; [|exact Ht]. simpl.
    apply (skipSingleLineComment_length r (advance SLASH (place st))). }
  destruct ((c =? SLASH)%N && peek_is (c :: r) STAR) eqn:E2.
  { apply andb_prop in E2 as [_ Ep]. split; [|exact Ht].
    destruct r as [|c2 r2]; [discriminate|]. simpl.
    pose proof (skipMultiLineComment_loop_length (length r2) r2
                  (advance c2 (advance c (place st))) (le_n _)). lia. }
  destruct (isLetter c || (c =? UNDERSCORE)%N) eqn:E3.
  { apply pushed_reads; [apply readIdentifier_reads|]; assumption. }
  destruct (isDigit c) eqn:E4.
  { apply pushed_reads; [apply readNumber_reads|]; assumption. }
  destruct (c =? QUOTE)%N.
  { apply pushed_reads; [apply readQuoted_reads|]; assumption. }
  destruct (c =? APOSTROPHE)%N.
  { apply pushed_reads; [apply readQuoted_reads|]; assumption. }
  destruct (isOperator c).
  { apply pushed_reads; [apply readOperator_reads|]; assumption. }
  destruct (isDelimiter c).
  { apply pushed_reads; [apply readDelimiter_reads|]; assumption. }
  destruct (c =? NL)%N; simpl; (split; [lia|]); [|exact Ht].
  apply Forall_app. split; [exact Ht|].
  constructor; [split; discriminate|constructor].
Qed.

Lemma tokenize_loop_step : forall fuel st,
  tokenize_loop (S fuel) st =
  match rest st with
  | [] => Some st
  | _ :: _ =>
      let st1 := skipped st (skipWhitespace (rest st) (place st)) in
      match rest st1 with
      | [] => Some st1
      | c :: _ => tokenize_loop fuel (dispatch c st1)
      end
  end.
Proof. reflexivity. Qed.

Lemma tokenize_from_step : forall fuel st,
  tokenize_from (S fuel) st =
  match rest st with
  | [] => Some (tokens st ++ [eof_token])
  | _ :: _ =>
      finished (after_whitespace (tokenize_loop fuel)
                  (skipped st (skipWhitespace (rest st) (place st))))
  end.
Proof.
  intros fuel st. unfold tokenize_from. rewrite tokenize_loop_step.
  destruct (rest st); reflexivity.
Qed.

Lemma skipWhitespace_app : forall ws r p,
  forallb blank ws = true ->
  skipWhitespace (ws ++ r) p = skipWhitespace r (advance_over ws p).
Proof.
  induction ws as [|w ws IH]; intros r p H; [reflexivity|].
  simpl in H. apply andb_prop in H as [Hw Hws]. unfold blank in Hw.
  simpl. rewrite Hw. apply IH, Hws.
Qed.

Lemma skipWhitespace_stops : forall c r p,
  blank c = false -> skipWhitespace (c :: r) p = (c :: r, p).
Proof. intros c r p H. unfold blank in H. simpl. now rewrite H. Qed.

(** With more fuel than code units left, the loop ends, at the end of the
    input, having pushed no end-of-input token. *)
Lemma tokenize_loop_total : forall fuel st,
  length (rest st) < fuel -> no_eof (tokens st) ->
  exists st', tokenize_loop fuel st = Some st' /\ rest st' = [] /\
              no_eof (tokens st').
Proof.
  induction fuel as [|fuel IH]; intros st Hf Ht; [lia|].
  rewrite tokenize_loop_step.
  pose proof (skipWhitespace_length (rest st) (place st)) as Hw.
  remember (skipped st (skipWhitespace (rest st) (place st))) as st1 eqn:E1.
  assert (Hl : length (rest st1) <= length (rest st))
    by (subst st1; exact Hw).
  assert (Ht1 : no_eof (tokens st1)) by (subst st1; exact Ht).
  cbv zeta. clear E1 Hw.
  destruct (rest st) as [|c0 r0] eqn:Hr.
  { exists st. auto. }
  destruct (rest st1) as [|c r] eqn:Hr1.
  { exists st1. auto. }
  destruct (dispatch_progress c r st1 Hr1 Ht1) as [L T].
  apply IH; [|exact T]. simpl in *. lia.
Qed.

End LexerProgress.

(** ** C1 *)

(** C1. For every input, [tokenize] returns (the loop leaves with the fuel
    it is given): the result is a sequence [body ++ [eof]] whose last
    element is the end-of-input token, of type EOF and value [null], and no
    token of [body] has type EOF. *)
Theorem tokenize_total : forall code : jsstring,
  exists body : list Token,
    tokenize code = Some (body ++ [eof_token]) /\
    type eof_token = EOF /\ value eof_token = None /\
    Forall (fun t => type t <> EOF) body.
Proof.
  intros code. unfold tokenize, tokenize_from.
  destruct (tokenize_loop_total (S (length code)) (new_LexicalAnalyzer code))
    as (st' & E & _ & T).
  - simpl. lia.
  - constructor.
  - rewrite E. exists (tokens st'). repeat split; auto.
    eapply Forall_impl; [|exact T]. intros t [Ht _]. exact Ht.
Qed.

(* ================================================================== *)
(** * Literals and comments that are not closed *)
(* ================================================================== *)

Lemma readQuoted_loop_open : forall q n body p v,
  (length body <= n)%nat -> has_closing q body = false ->
  exists p', readQuoted_loop q body p v = ([], p', v ++ body).
Proof.
  induction n as [|n IH]; intros body p v Hn Hc.
  - destruct body; [|simpl in Hn; lia]. exists p. simpl.
    now rewrite app_nil_r.
  - destruct body as [|c r]; [exists p; simpl; now rewrite app_nil_r|].
    simpl in *. destruct (c =? q); [discriminate|]. simpl.
    destruct r as [|c2 r2].
    + simpl. eexists. reflexivity.
    + destruct (c =? BACKSLASH).
      * destruct (IH r2 (advance c2 (advance c p)) (v ++ [c; c2]))
          as [p' E]; [simpl in Hn; lia|exact Hc|].
        exists p'. rewrite E. now rewrite <- !app_assoc.
      * destruct (IH (c2 :: r2) (advance c p) (v ++ [c])) as [p' E];
          [simpl in *; lia|exact Hc|].
        exists p'. rewrite E. now rewrite <- app_assoc.
Qed.

Lemma no_quote_no_closing : forall q body,
  ~ In q body -> has_closing q body = false.
Proof.
  intros q body. remember (length body) as n eqn:Hn.
  revert body Hn. induction n as [n IH] using lt_wf_ind.
  intros body Hn Hin. destruct body as [|c r]; [reflexivity|].
  simpl. destruct (c =? q) eqn:E.
  { apply N.eqb_eq in E. subst. exfalso. apply Hin. now left. }
  destruct r as [|c2 r2]; [reflexivity|].
  destruct (c =? BACKSLASH).
  - apply (IH (length r2)); [simpl in Hn; lia|reflexivity|].
    intros H. apply Hin. right. right. exact H.
  - apply (IH (length (c2 :: r2))); [simpl in *; lia|reflexivity|].
    intros H. apply Hin. right. exact H.
Qed.

(** ** C10 *)

(** C10. When the loop of [tokenize] comes, over white space [ws] or
    none, to an opening double quote, and the scan of the literal finds
    no closing quote in the rest [body] of the input, then [tokenize]
    ends, with any fuel of two or more, and returns the tokens pushed
    before, then one STRING token whose text is all of [body], unchanged
    (a backslash and the unit after it are copied as they are), with the
    line and column of the quote, then the end-of-input token. *)
Theorem unterminated_string_literal :
  forall (st : Lexer) (ws body : jsstring) (fuel : nat),
    rest st = ws ++ QUOTE :: body ->
    forallb blank ws = true ->
    has_closing QUOTE body = false ->
    let q := advance_over ws (place st) in
    tokenize_from (S (S fuel)) st =
    Some (tokens st ++ [ tok STRING body (at_line q) (at_column q);
                         eof_token ]).
Proof.
  intros st ws body fuel Hr W Hc q. rewrite tokenize_from_step, Hr.
  destruct (ws ++ QUOTE :: body) as [|y l] eqn:E;
    [symmetry in E; now apply app_cons_not_nil in E|].
  rewrite <- E, skipWhitespace_app by exact W.
  rewrite skipWhitespace_stops by reflexivity. fold q.
  unfold after_whitespace, skipped. cbn [fst snd rest].
  unfold dispatch. cbn [rest place tokens].
  change (QUOTE =? SLASH) with false.
  change (isLetter QUOTE || (QUOTE =? UNDERSCORE)) with false.
  change (isDigit QUOTE) with false.
  change (QUOTE =? QUOTE) with true.
  cbv iota. cbn [andb].
  unfold readString, readQuoted.
  destruct (readQuoted_loop_open QUOTE (length body) body
              (advance QUOTE q) [] (le_n _) Hc) as [p' E'].
  rewrite E'. cbn [pushed app].
  rewrite tokenize_loop_step. cbn [rest tokens finished].
  now rewrite <- app_assoc.
Qed.

(** An input whose literal, after two spaces, holds an escaped quote and
    ends in a backslash. *)
Lemma unterminated_string_literal_witness :
  forallb blank (lit "  ") = true /\
  has_closing QUOTE (lit "ab\" ++ QUOTE :: lit "c\") = false /\
  tokenize (lit "  " ++ QUOTE :: lit "ab\" ++ QUOTE :: lit "c\") =
  Some [ tok STRING (lit "ab\" ++ QUOTE :: lit "c\") 1 3; eof_token ].
Proof.
  split; [reflexivity|]. split; [reflexivity|].
  exact (unterminated_string_literal
           (new_LexicalAnalyzer
              (lit "  " ++ QUOTE :: lit "ab\" ++ QUOTE :: lit "c\"))
           (lit "  ") (lit "ab\" ++ QUOTE :: lit "c\") _
           eq_refl eq_refl eq_refl).
Defined.

(** ** C8 *)

Lemma skipMultiLineComment_loop_step : forall c c2 r2 p,
  skipMultiLineComment_loop (c :: c2 :: r2) p =
  if (c =? STAR) && (c2 =? SLASH) then (r2, advance c2 (advance c p))
  else skipMultiLineComment_loop (c2 :: r2) (advance c p).
Proof. reflexivity. Qed.

(** The loop of [skipMultiLineComment] stops one unit before the end of
    the input: when the comment is not closed and has a unit after the
    opener, the last unit of the input is left under the cursor. *)
Lemma skipMultiLineComment_leaves_last : forall n body p,
  (length body <= n)%nat -> body <> [] ->
  includes (lit "*/") body = false ->
  fst (skipMultiLineComment_loop body p) = [last body 0].
Proof.
  induction n as [|n IH]; intros body p Hn Hne Hi.
  - destruct body; [congruence|simpl in Hn; lia].
  - destruct body as [|c [|c2 r2]]; [congruence|reflexivity|].
    change (includes (lit "*/") (c :: c2 :: r2))
      with (((STAR =? c) && ((SLASH =? c2) && true))
            || includes (lit "*/") (c2 :: r2)) in Hi.
    apply orb_false_elim in Hi as [Hs Hi].
    rewrite skipMultiLineComment_loop_step.
    rewrite (N.eqb_sym c STAR), (N.eqb_sym c2 SLASH).
    rewrite andb_true_r in Hs. rewrite Hs.
    rewrite (IH (c2 :: r2) (advance c p));
      [reflexivity| |discriminate|exact Hi].
    simpl in *. lia.
Qed.

(** C8. On the input [/* abc], where the comment is never closed, the
    tokenizer does not take all the units up to the end of the input as
    comment: the last unit, [c], is read as an identifier. *)
Theorem unterminated_comment_last_unit :
  tokenize (lit "/* abc") =
  Some [ tok IDENTIFIER (lit "c") 1 6; eof_token ].
Proof. vm_compute. reflexivity. Qed.

(* ================================================================== *)
(** * Units the tokenizer has no use for *)
(* ================================================================== *)

Lemma unsupported_elim : forall c,
  unsupported c = true ->
  isSpace c = false /\ isLetter c = false /\ (c =? UNDERSCORE) = false /\
  isDigit c = false /\ (c =? QUOTE) = false /\ (c =? APOSTROPHE) = false /\
  isOperator c = false /\ isDelimiter c = false /\ (c =? NL) = false /\
  (c =? SLASH) = false.
Proof.
  intros c U. unfold unsupported in U.
  assert (Es : isOperator c = false -> (c =? SLASH) = false).
  { intros Ho. destruct (c =? SLASH) eqn:E; [|reflexivity].
    apply N.eqb_eq in E. subst c. discriminate. }
  destruct (isSpace c), (isLetter c), (c =? UNDERSCORE), (isDigit c),
    (c =? QUOTE), (c =? APOSTROPHE), (isOperator c), (isDelimiter c),
    (c =? NL); try discriminate U.
  repeat split; auto.
Qed.

Section PlaceIndependence.

(** The places do not decide what is read: two runs from the same rest
    differ in the places only. *)

Lemma skipSingleLineComment_place : forall r p p',
  fst (skipSingleLineComment r p) = fst (skipSingleLineComment r p').
Proof.
  induction r as [|c r IH]; intros p p'; simpl; [reflexivity|].
  destruct (negb (c =? NL)); [apply IH|reflexivity].
Qed.

Lemma skipMultiLineComment_loop_place : forall n r p p',
  (length r <= n)%nat ->
  fst (skipMultiLineComment_loop r p) = fst (skipMultiLineComment_loop r p').
Proof.
  induction n as [|n IH]; intros r p p' Hn.
  - destruct r; [reflexivity|simpl in Hn; lia].
  - destruct r as [|c [|c2 r2]]; try reflexivity.
    rewrite !skipMultiLineComment_loop_step.
    destruct ((c =? STAR) && (c2 =? SLASH)); [reflexivity|].
    apply IH. simpl in *. lia.
Qed.

Lemma skipWhitespace_place : forall r p p',
  fst (skipWhitespace r p) = fst (skipWhitespace r p').
Proof.
  induction r as [|c r IH]; intros p p'; simpl; [reflexivity|].
  destruct (isSpace c && negb (c =? NL)); [apply IH|reflexivity].
Qed.

Lemma readIdentifier_loop_place : forall r p p' v,
  read_of (readIdentifier_loop r p v) = read_of (readIdentifier_loop r p' v).
Proof.
  induction r as [|c r IH]; intros p p' v; simpl; [reflexivity|].
  destruct (isLetter c || isDigit c || (c =? UNDERSCORE));
    [apply IH|reflexivity].
Qed.

Lemma readNumber_loop_place : forall r p p' d v,
  read_of (readNumber_loop r p d v) = read_of (readNumber_loop r p' d v).
Proof.
  induction r as [|c r IH]; intros p p' d v; simpl; [reflexivity|].
  destruct (isDigit c || ((c =? DOT) && negb d)); [apply IH|reflexivity].
Qed.

Lemma readQuoted_loop_place : forall q n r p p' v,
  (length r <= n)%nat ->
  read_of (readQuoted_loop q r p v) = read_of (readQuoted_loop q r p' v).
Proof.
  induction n as [|n IH]; intros r p p' v Hn.
  - destruct r; [reflexivity|simpl in Hn; lia].
  - destruct r as [|c r]; [reflexivity|]. simpl.
    destruct (negb (c =? q)); [|reflexivity].
    destruct r as [|c2 r2]; [reflexivity|].
    destruct (c =? BACKSLASH); apply IH; simpl in *; lia.
Qed.

Lemma readIdentifier_place : forall r p p',
  token_of (readIdentifier r p) = token_of (readIdentifier r p').
Proof.
  intros r p p'. unfold readIdentifier.
  pose proof (readIdentifier_loop_place r p p' []) as E.
  destruct (readIdentifier_loop r p []) as [[r1 p1] v1].
  destruct (readIdentifier_loop r p' []) as [[r2 p2] v2].
  unfold read_of in E. simpl in E. injection E as -> ->. reflexivity.
Qed.

Lemma readNumber_place : forall r p p',
  token_of (readNumber r p) = token_of (readNumber r p').
Proof.
  intros r p p'. unfold readNumber.
  pose proof (readNumber_loop_place r p p' false []) as E.
  destruct (readNumber_loop r p false []) as [[r1 p1] v1].
  destruct (readNumber_loop r p' false []) as [[r2 p2] v2].
  unfold read_of in E. simpl in E. injection E as -> ->. reflexivity.
Qed.

Lemma readQuoted_place : forall q r p p',
  token_of (readQuoted q r p) = token_of (readQuoted q r p').
Proof.
  intros q r p p'. unfold readQuoted. destruct r as [|c r]; [reflexivity|].
  pose proof (readQuoted_loop_place q (length r) r (advance c p)
                (advance c p') [] (le_n _)) as E.
  destruct (readQuoted_loop q r (advance c p) []) as [[r1 p1] v1].
  destruct (readQuoted_loop q r (advance c p') []) as [[r2 p2] v2].
  unfold read_of in E. simpl in E. injection E as -> ->.
  destruct r2; reflexivity.
Qed.

Lemma readOperator_place : forall c r p p',
  token_of (readOperator c r p) = token_of (readOperator c r p').
Proof.
  intros c r p p'. unfold readOperator.
  destruct r as [|next r2]; try reflexivity.
  destruct (existsb _ twoCharOperators); reflexivity.
Qed.

Lemma readDelimiter_place : forall c r p p',
  token_of (readDelimiter c r p) = token_of (readDelimiter c r p').
Proof. reflexivity. Qed.

Lemma pushed_same : forall a b out out',
  same_text a b -> token_of out = token_of out' ->
  same_text (pushed a out) (pushed b out').
Proof.
  intros a b [[r1 p1] t1] [[r2 p2] t2] [_ Ht] E.
  unfold token_of in E. cbn [fst snd] in E.
  assert (Er : r1 = r2) by congruence.
  assert (Ek : kind_text t1 = kind_text t2) by congruence.
  split; simpl; [exact Er|].
  rewrite !map_app, Ht. cbn [map]. now rewrite Ek.
Qed.

Lemma dispatch_same : forall c a b,
  same_text a b -> same_text (dispatch c a) (dispatch c b).
Proof.
  intros c a b H. pose proof H as [Hr Ht]. unfold dispatch. rewrite <- Hr.
  destruct ((c =? SLASH) && peek_is (rest a) SLASH).
  { split; [apply skipSingleLineComment_place|exact Ht]. }
  destruct ((c =? SLASH) && peek_is (rest a) STAR).
  { split; [|exact Ht]. simpl. unfold skipMultiLineComment.
    destruct (rest a) as [|x [|y r]]; try reflexivity.
    apply (skipMultiLineComment_loop_place (length r)), le_n. }
  destruct (isLetter c || (c =? UNDERSCORE)).
  { apply pushed_same; [exact H|apply readIdentifier_place]. }
  destruct (isDigit c).
  { apply pushed_same; [exact H|apply readNumber_place]. }
  destruct (c =? QUOTE).
  { apply pushed_same; [exact H|apply readQuoted_place]. }
  destruct (c =? APOSTROPHE).
  { apply pushed_same; [exact H|apply readQuoted_place]. }
  destruct (isOperator c).
  { apply pushed_same; [exact H|apply readOperator_place]. }
  destruct (isDelimiter c).
  { apply pushed_same; [exact H|apply readDelimiter_place]. }
  destruct (c =? NL); split; simpl; try reflexivity; try exact Ht.
  rewrite !map_app, Ht. reflexivity.
Qed.

Lemma tokenize_from_same : forall fuel a b,
  same_text a b ->
  kinds_texts (tokenize_from fuel a) = kinds_texts (tokenize_from fuel b).
Proof.
  unfold tokenize_from.
  induction fuel as [|fuel IH]; intros a b H; [reflexivity|].
  pose proof H as [Hr Ht].
  rewrite !tokenize_loop_step. rewrite <- Hr.
  destruct (rest a) as [|c0 r0] eqn:Ea.
  { simpl. rewrite !map_app, Ht. reflexivity. }
  cbv zeta.
  assert (S1 : same_text (skipped a (skipWhitespace (c0 :: r0) (place a)))
                 (skipped b (skipWhitespace (c0 :: r0) (place b)))).
  { split; [apply skipWhitespace_place|exact Ht]. }
  destruct S1 as [Sr St]. rewrite <- Sr.
  destruct (rest (skipped a (skipWhitespace (c0 :: r0) (place a))))
    as [|c r] eqn:E1.
  { simpl. rewrite !map_app, Ht. reflexivity. }
  apply IH, dispatch_same. split; [rewrite E1; exact Sr|exact St].
Qed.

Lemma after_whitespace_same : forall fuel a b,
  same_text a b ->
  kinds_texts (finished (after_whitespace (tokenize_loop fuel) a)) =
  kinds_texts (finished (after_whitespace (tokenize_loop fuel) b)).
Proof.
  intros fuel a b H. pose proof H as [Hr Ht]. unfold after_whitespace.
  rewrite <- Hr. destruct (rest a) as [|c r].
  - simpl. rewrite !map_app, Ht. reflexivity.
  - apply (tokenize_from_same fuel), dispatch_same, H.
Qed.

(** White space before the rest of the input changes places only. *)
Lemma leading_blanks : forall fuel ws r p p' toks,
  forallb blank ws = true ->
  kinds_texts (tokenize_from fuel (mkLexer (ws ++ r) p toks)) =
  kinds_texts (tokenize_from fuel (mkLexer r p' toks)).
Proof.
  intros [|fuel] ws r p p' toks H; [reflexivity|].
  rewrite !tokenize_from_step. cbn [rest place tokens].
  destruct r as [|x r].
  - rewrite app_nil_r. destruct ws as [|w ws]; [reflexivity|].
    pose proof (skipWhitespace_app (w :: ws) [] p H) as E.
    rewrite app_nil_r in E. rewrite E. reflexivity.
  - destruct (ws ++ x :: r) as [|y l] eqn:E;
      [symmetry in E; now apply app_cons_not_nil in E|].
    rewrite <- E, skipWhitespace_app by exact H.
    apply after_whitespace_same. split; [|reflexivity].
    apply skipWhitespace_place.
Qed.

End PlaceIndependence.

(** ** C7 *)

(** C7, as the claim states it, fails: taking the [@] out of [a@b] joins
    two identifiers into one, and taking it out of [a @ b] moves the
    column of [b]. *)
Lemma stray_symbol_removed_differs :
  unsupported 64 = true /\
  kinds_texts (tokenize (lit "a@b")) <> kinds_texts (tokenize (lit "ab")) /\
  tokenize (lit "a @ b") <> tokenize (lit "a  b").
Proof. repeat split; vm_compute; discriminate. Qed.

(** C7, amended.  When the loop of [tokenize] comes, over white space
    [ws] or none, to a unit [c] it has no use for, with [post] after it,
    then from any place and with any tokens pushed before: the loop moves
    over [c] and pushes nothing for it; and the kinds and texts of all
    tokens returned are those returned when [c] is not there.  For the
    whole input [ws ++ c :: post] they are those of the input
    [ws ++ post].  (Lines and columns are not the same.) *)
Theorem stray_symbol_skipped :
  forall (ws : jsstring) (c : char) (post : jsstring),
    forallb blank ws = true ->
    unsupported c = true ->
    (forall p toks fuel,
       tokenize_from (S fuel) (mkLexer (ws ++ c :: post) p toks) =
       tokenize_from fuel
         (mkLexer post (advance c (advance_over ws p)) toks)) /\
    (forall p toks fuel,
       kinds_texts (tokenize_from (S fuel)
                      (mkLexer (ws ++ c :: post) p toks)) =
       kinds_texts (tokenize_from fuel (mkLexer (ws ++ post) p toks))) /\
    kinds_texts (tokenize (ws ++ c :: post)) =
    kinds_texts (tokenize (ws ++ post)).
Proof.
  intros ws c post W U.
  destruct (unsupported_elim c U)
    as (E1 & E2 & E3 & E4 & E5 & E6 & E7 & E8 & E9 & E0).
  assert (Eb : blank c = false) by (unfold blank; now rewrite E1).
  assert (Step : forall p toks fuel,
            tokenize_from (S fuel) (mkLexer (ws ++ c :: post) p toks) =
            tokenize_from fuel
              (mkLexer post (advance c (advance_over ws p)) toks)).
  { intros p toks fuel. rewrite tokenize_from_step. cbn [rest place].
    destruct (ws ++ c :: post) as [|y l] eqn:E;
      [symmetry in E; now apply app_cons_not_nil in E|].
    rewrite <- E, skipWhitespace_app by exact W.
    rewrite skipWhitespace_stops by exact Eb.
    unfold after_whitespace, skipped. cbn [fst snd rest].
    unfold dispatch. cbn [rest place tokens tl].
    rewrite E0, E2, E3, E4, E5, E6, E7, E8, E9. reflexivity. }
  split; [exact Step|].
  assert (Kinds : forall p toks fuel,
            kinds_texts (tokenize_from (S fuel)
                           (mkLexer (ws ++ c :: post) p toks)) =
            kinds_texts (tokenize_from fuel (mkLexer (ws ++ post) p toks))).
  { intros p toks fuel. rewrite Step. symmetry.
    apply leading_blanks, W. }
  split; [exact Kinds|]. unfold tokenize, new_LexicalAnalyzer.
  replace (length (ws ++ c :: post)) with (S (length (ws ++ post)))
    by (rewrite !length_app; simpl; lia).
  apply Kinds.
Qed.

(** The [@] of [a; @ b], after the identifier and the semicolon. *)
Lemma stray_symbol_skipped_witness :
  forallb blank (lit " ") = true /\
  unsupported 64 = true /\
  let before := [ tok IDENTIFIER (lit "a") 1 1; tok DELIMITER (lit ";") 1 2 ]
  in
  kinds_texts (tokenize_from 4 (mkLexer (lit " @ b") (mkPlace 1 3) before)) =
  kinds_texts (tokenize_from 3 (mkLexer (lit "  b") (mkPlace 1 3) before)) /\
  kinds_texts (tokenize (lit " @ b")) = kinds_texts (tokenize (lit "  b")).
Proof.
  split; [reflexivity|]. split; [reflexivity|].
  pose proof (stray_symbol_skipped (lit " ") 64 (lit " b") eq_refl eq_refl)
    as (_ & Kinds & Whole).
  split; [apply Kinds|exact Whole].
Defined.

(* ================================================================== *)
(** * The parser always finishes *)
(* ================================================================== *)

Section ParserProgress.

Local Open Scope nat_scope.

Variable tokens : list Token.

Lemma skipToken_bounds : forall s pos,
  pos <= skipToken tokens s pos <= S pos.
Proof.
  intros s pos. unfold skipToken.
  destruct (getCurrentToken tokens pos) as [t|]; [|lia].
  destruct (is_text (value t) s); lia.
Qed.

Lemma getCurrentToken_Some : forall pos t,
  getCurrentToken tokens pos = Some t -> pos < length tokens /\ In t tokens.
Proof.
  intros pos t H. split.
  - apply nth_error_Some. unfold getCurrentToken in H. congruence.
  - eapply nth_error_In. exact H.
Qed.

Lemma getCurrentToken_None : forall pos,
  getCurrentToken tokens pos = None -> length tokens <= pos.
Proof. intros pos H. apply nth_error_None. exact H. Qed.

Lemma current_is_lt : forall pos s,
  current_is tokens pos s = true -> pos < length tokens.
Proof.
  intros pos s H. unfold current_is in H.
  destruct (getCurrentToken tokens pos) eqn:E; [|discriminate].
  apply getCurrentToken_Some in E. tauto.
Qed.

Lemma parseInclude_post : forall rank fuel pos,
  post tokens rank true fuel pos (parseInclude tokens pos).
Proof.
  intros rank fuel pos. unfold parseInclude.
  repeat match goal with
         | |- context [match getCurrentToken tokens ?p with _ => _ end] =>
             destruct (getCurrentToken tokens p)
         | |- context [if ?c then _ else _] => destruct c
         end; simpl; lia.
Qed.

Lemma parseFunction_params_post : forall fuel params pos,
  post tokens 1 false fuel pos (parseFunction_params tokens fuel params pos).
Proof.
  induction fuel as [|fuel IH]; intros params pos; [simpl; lia|].
  cbn [parseFunction_params].
  destruct (getCurrentToken tokens pos) as [t|] eqn:E; [|simpl; lia].
  apply getCurrentToken_Some in E as [E _].
  assert (Next : forall ps d, d = 1 \/ d = 2 ->
            post tokens 1 false (S fuel) pos
              (parseFunction_params tokens fuel ps (d + pos))).
  { intros ps d Hd. specialize (IH ps (d + pos)).
    destruct (parseFunction_params tokens fuel ps (d + pos));
      simpl in *; [|exact IH|]; lia. }
  destruct (is_text (value t) ")"); [simpl; lia|].
  destruct (is_text (value t) ","); [apply (Next params 1); auto|].
  destruct (TokenType_eqb (type t) KEYWORD && one_of typeKeywords (value t));
    [|apply (Next params 1); auto].
  destruct (value t); [|apply (Next params 1); auto].
  destruct (getCurrentToken tokens (S pos)) as [t2|];
    [|apply (Next params 1); auto].
  destruct (TokenType_eqb (type t2) IDENTIFIER);
    [apply (Next _ 2)|apply (Next _ 1)]; auto.
Qed.

Lemma assignment_call_branch : forall n pos identifier,
  getCurrentToken tokens pos = Some identifier ->
  current_is tokens (S pos) "(" = true ->
  parseAssignmentOrFunctionCall tokens (S n) pos =
  let* (args, position) := parseArguments tokens n [] (S (S pos)) in
  Ok (Some (FunctionCall (value identifier) args))
     (skipToken tokens ";" position).
Proof.
  intros n pos identifier H1 H2. cbn [parseAssignmentOrFunctionCall].
  rewrite H1. unfold current_is in H2.
  destruct (getCurrentToken tokens (S pos)); [|discriminate].
  now rewrite H2.
Qed.

(** Replaces the positions that [skipToken] gives by variables with
    their bounds. *)
Ltac bound_skip s p :=
  let B := fresh "B" in
  let q := fresh "q" in
  pose proof (skipToken_bounds s p) as B;
  set (q := skipToken tokens s p) in *; clearbody q.

Ltac bound_skips :=
  repeat match goal with
         | |- context [skipToken tokens ?s ?p] => bound_skip s p
         | H : context [skipToken tokens ?s ?p] |- _ => bound_skip s p
         end.

(** The case analysis of a method body on the tokens it looks at. *)
Ltac look :=
  match goal with
  | |- context [match getCurrentToken tokens ?p with _ => _ end] =>
      let E := fresh "E" in
      destruct (getCurrentToken tokens p) eqn:E;
      [apply getCurrentToken_Some in E as [E ?]
      |apply getCurrentToken_None in E]
  | |- context [if current_is tokens ?p ?s then _ else _] =>
      let E := fresh "E" in
      destruct (current_is tokens p s) eqn:E;
      [apply current_is_lt in E|clear E]
  | |- context [if ?c then _ else _] => destruct c
  | |- context [match value ?t with _ => _ end] => destruct (value t)
  end.

(** The end of a path through a method body. *)
Ltac finish :=
  bound_skips; cbn [post bind]; try exact I;
  first [ lia | split; [lia | intros; lia] | assumption ].

(** What the induction hypothesis [Hn] says of the call [r]. *)
Ltac known Hn r P :=
  lazymatch r with
  | parseStatement _ _ ?p => pose proof (post_statement _ _ Hn p) as P
  | parseDeclarationOrFunction _ _ ?p =>
      pose proof (post_declaration _ _ Hn p) as P
  | parseFunction _ _ ?a ?b ?p =>
      pose proof (post_function _ _ Hn a b p ltac:(lia)) as P
  | parseBlock _ _ ?p => pose proof (post_block _ _ Hn p ltac:(lia)) as P
  | parseBlock_loop _ _ ?a ?p => pose proof (post_block_loop _ _ Hn a p) as P
  | parseVariable _ _ ?a ?b ?p => pose proof (post_variable _ _ Hn a b p) as P
  | parseIfStatement _ _ ?p => pose proof (post_if _ _ Hn p ltac:(lia)) as P
  | parseWhileStatement _ _ ?p =>
      pose proof (post_while _ _ Hn p ltac:(lia)) as P
  | parseForStatement _ _ ?p => pose proof (post_for _ _ Hn p ltac:(lia)) as P
  | parseReturnStatement _ _ ?p =>
      pose proof (post_return _ _ Hn p ltac:(lia)) as P
  | parsePrintfStatement _ _ ?p =>
      pose proof (post_printf _ _ Hn p ltac:(lia)) as P
  | parseScanfStatement _ _ ?p =>
      pose proof (post_scanf _ _ Hn p ltac:(lia)) as P
  | parseArguments _ _ ?a ?p => pose proof (post_arguments _ _ Hn a p) as P
  | parseAssignmentOrFunctionCall _ _ ?p =>
      pose proof (post_assignment _ _ Hn p) as P
  | parseExpression _ _ ?p => pose proof (post_expression _ _ Hn p) as P
  | parseBinary _ _ ?lv ?p => pose proof (post_binary _ _ Hn lv p) as P
  | parseBinary_loop _ _ ?lv ?a ?p =>
      pose proof (post_binary_loop _ _ Hn lv a p) as P
  | parsePrimaryExpression _ _ ?p => pose proof (post_primary _ _ Hn p) as P
  | parseFunction_params _ ?n ?a ?p =>
      pose proof (parseFunction_params_post n a p) as P
  end.

(** The next call of the method body: its three outcomes.  When it
    throws or runs out of budget, so does the method; when it returns,
    the proof goes on with what is known of the position it leaves. *)
Ltac call Hn :=
  let P := fresh "P" in
  lazymatch goal with
  | |- context [bind ?r _] =>
      known Hn r P; destruct r;
      cbn [post bind rank_of] in P |- *; [ | exact P | bound_skips; lia ]
  | |- post _ _ _ _ _ ?r =>
      known Hn r P; destruct r;
      cbn [post bind rank_of] in P |- *;
      [ bound_skips; lia | exact P | bound_skips; lia ]
  end.

Ltac walk Hn :=
  repeat first [ progress cbn [bind] | look | call Hn ]; try finish.

Lemma all_post_holds : forall fuel, all_post tokens fuel.
Proof.
  induction fuel as [fuel IH] using lt_wf_ind.
  destruct fuel as [|n].
  { constructor; intros; cbn; try destruct lv; cbn; lia. }
  pose proof (IH n (Nat.lt_succ_diag_r n)) as Hn.
  constructor.
  - (* parseStatement *)
    intros pos. cbn [parseStatement].
    look; [|finish].
    look; [finish|].
    look; [apply parseInclude_post|].
    walk Hn.
  - (* parseDeclarationOrFunction *)
    intros pos. cbn [parseDeclarationOrFunction]. walk Hn.
  - (* parseFunction *)
    intros rt nm pos L. cbn [parseFunction]. walk Hn.
  - (* parseBlock *)
    intros pos L. cbn [parseBlock]. walk Hn.
  - (* parseBlock_loop *)
    intros sts pos. cbn [parseBlock_loop]. walk Hn.
  - (* parseVariable *)
    intros vt nm pos. cbn [parseVariable]. walk Hn.
  - (* parseIfStatement *)
    intros pos L. cbn [parseIfStatement]. walk Hn.
  - (* parseWhileStatement *)
    intros pos L. cbn [parseWhileStatement]. walk Hn.
  - (* parseForStatement *)
    intros pos L. cbn [parseForStatement]. walk Hn.
  - (* parseReturnStatement *)
    intros pos L. cbn [parseReturnStatement]. walk Hn.
  - (* parsePrintfStatement *)
    intros pos L. cbn [parsePrintfStatement]. walk Hn.
  - (* parseScanfStatement *)
    intros pos L. cbn [parseScanfStatement]. walk Hn.
  - (* parseArguments *)
    intros args pos. cbn [parseArguments]. walk Hn.
  - (* parseAssignmentOrFunctionCall *)
    intros pos. cbn [parseAssignmentOrFunctionCall Nat.pred]. walk Hn.
  - (* parseExpression *)
    intros pos. cbn [parseExpression]. walk Hn.
  - (* parseBinary *)
    intros lv pos. cbn [parseBinary]. destruct lv; cbn [rank_of]; walk Hn.
  - (* parseBinary_loop *)
    intros lv lhs pos. cbn [parseBinary_loop]. destruct lv; walk Hn.
  - (* parsePrimaryExpression *)
    intros pos. cbn [parsePrimaryExpression Nat.pred].
    destruct (getCurrentToken tokens pos) as [t|] eqn:E;
      [|apply getCurrentToken_None in E; finish].
    pose proof (getCurrentToken_Some _ _ E) as [L Hin].
    destruct (TokenType_eqb (type t) NUMBER) eqn:En.
    { destruct (value t) eqn:Ev; [finish|]. cbn [post]. exists t.
      repeat split; auto. destruct (type t); try discriminate; reflexivity. }
    destruct (TokenType_eqb (type t) STRING); [finish|].
    destruct (TokenType_eqb (type t) IDENTIFIER); [|walk Hn].
    destruct (current_is tokens (S pos) "(") eqn:Ec; [|finish].
    destruct n as [|n']; [cbn; lia|].
    rewrite (assignment_call_branch n' pos t E Ec).
    pose proof (IH n' ltac:(lia)) as Hn'. apply current_is_lt in Ec.
    walk Hn'.
Qed.

(** Each turn of the loop of [parse] moves the cursor and adds at most
    one node. *)
Lemma parse_loop_post : forall fuel body pos,
  match parse_loop tokens fuel body pos with
  | Ok b _ => length b <= length body + (length tokens - pos)
  | TypeError => bad_number tokens
  | OutOfFuel => fuel < 12 * (length tokens - pos) + 12
  end.
Proof.
  induction fuel as [|n IH]; intros body pos; [simpl; lia|].
  cbn [parse_loop].
  destruct (getCurrentToken tokens pos) as [t|] eqn:E; [|lia].
  apply getCurrentToken_Some in E as [L _].
  destruct (negb (TokenType_eqb (type t) EOF)); [|lia].
  pose proof (post_statement tokens n (all_post_holds n) pos) as P.
  destruct (parseStatement tokens n pos) as [node pos'| |];
    cbn [post bind] in P |- *; [|exact P|lia].
  specialize (IH (push_if body node) pos').
  destruct (parse_loop tokens n (push_if body node) pos'); [|exact IH|lia].
  assert (length (push_if body node) <= S (length body)).
  { destruct node; simpl; [rewrite length_app; simpl|]; lia. }
  lia.
Qed.

End ParserProgress.

Lemma without_newlines_length : forall toks,
  (length (without_newlines toks) <= length toks)%nat.
Proof.
  induction toks as [|t toks IH]; simpl; [lia|].
  destruct (negb (TokenType_eqb (type t) NEWLINE)); simpl; lia.
Qed.

(** The outcome of [parse]. *)
Lemma parse_outcome : forall toks : list Token,
  match parse toks with
  | Ok ast _ =>
      exists body, ast = mkAST (lit "Program") (ArrayOf body) /\
                   (length body <= length toks)%nat
  | TypeError => exists t, In t toks /\ type t = NUMBER /\ value t = None
  | OutOfFuel => False
  end.
Proof.
  intros toks. unfold parse, parse_with, parse_budget.
  pose proof (parse_loop_post (without_newlines toks)
                (12 * S (length (without_newlines toks))) [] 0) as P.
  pose proof (without_newlines_length toks) as L.
  destruct (parse_loop (without_newlines toks) _ [] 0) as [body pos| |];
    cbn [bind].
  - exists body. split; [reflexivity|]. simpl in P. lia.
  - destruct P as (t & Hin & Hty & Hv). exists t. repeat split; auto.
    unfold without_newlines in Hin. apply filter_In in Hin. tauto.
  - lia.
Qed.

(** ** C2 *)

(** C2, as the claim states it, fails: for the two tokens [return] and a
    NUMBER token whose value is [null], [parse] returns no Program node;
    it throws (the text of the number is read to look for a decimal
    point). *)
Lemma parse_throws_on_number_without_text :
  parse [ mkToken KEYWORD (Some (lit "return")) None None;
          mkToken NUMBER None None None ] = TypeError.
Proof. vm_compute. reflexivity. Qed.

(** C2, amended.  For every token list, [parse] ends within its budget:
    it returns a Program node whose body has at most as many nodes as
    there are tokens, or it throws, which it does only when a NUMBER
    token has no text.  And with any budget, a call of [parseStatement]
    that returns, made with a token under the cursor, leaves the cursor
    further on. *)
Theorem parse_terminates : forall toks : list Token,
  match parse toks with
  | Ok ast _ =>
      exists body, ast = mkAST (lit "Program") (ArrayOf body) /\
                   (length body <= length toks)%nat
  | TypeError => exists t, In t toks /\ type t = NUMBER /\ value t = None
  | OutOfFuel => False
  end /\
  forall fuel pos,
    match parseStatement (without_newlines toks) fuel pos with
    | Ok _ pos' =>
        (pos < length (without_newlines toks))%nat -> (pos < pos')%nat
    | _ => True
    end.
Proof.
  intros toks. split; [apply parse_outcome|].
  intros fuel pos.
  pose proof (post_statement (without_newlines toks) fuel
                (all_post_holds (without_newlines toks) fuel) pos) as P.
  destruct (parseStatement (without_newlines toks) fuel pos); [|exact I..].
  cbn [post] in P. intros L. apply P; [reflexivity|exact L].
Qed.

(** The tokens of the tokenizer all have a text, but for the last. *)
Lemma tokenize_texts : forall code toks,
  tokenize code = Some toks ->
  forall t, In t toks -> type t = NUMBER -> value t <> None.
Proof.
  intros code toks H t Hin Hty. unfold tokenize, tokenize_from in H.
  destruct (tokenize_loop_total (S (length code)) (new_LexicalAnalyzer code))
    as (st' & E & _ & T); [simpl; lia|constructor|].
  rewrite E in H. injection H as <-.
  apply in_app_or in Hin as [Hin|[<-|[]]]; [|discriminate].
  unfold no_eof in T. rewrite Forall_forall in T. apply (T t Hin).
Qed.

(** On every source text, tokenizing and parsing returns a Program. *)
Lemma parse_source_returns : forall code,
  exists body pos,
    parse_source code = Ok (mkAST (lit "Program") (ArrayOf body)) pos.
Proof.
  intros code. unfold parse_source.
  destruct (tokenize code) as [toks|] eqn:E.
  - pose proof (parse_outcome toks) as P.
    destruct (parse toks) as [ast pos| |].
    + destruct P as (body & -> & _). exists body, pos. reflexivity.
    + destruct P as (t & Hin & Hty & Hv).
      exfalso. exact (tokenize_texts code _ E t Hin Hty Hv).
    + destruct P.
  - exfalso. unfold tokenize, tokenize_from in E.
    destruct (tokenize_loop_total (S (length code))
                (new_LexicalAnalyzer code)) as (st' & E' & _);
      [simpl; lia|constructor|].
    rewrite E' in E. discriminate.
Qed.

(* ================================================================== *)
(** * The examples of the specification, run *)
(* ================================================================== *)

(** ** C3 *)

(** C3. For the input [if (a) if (b) s1; else s2;] the parser attaches
    the [else] to neither [if]: the statement [s1] is read as an
    expression, which leaves its semicolon; both [if]s then look at the
    semicolon for an [else]; the loop of [parse] skips the semicolon and
    the [else], and [s2] becomes a statement of the program. *)
Theorem dangling_else_is_dropped :
  parse_source (lit "if (a) if (b) s1; else s2;") =
  Ok (mkAST (lit "Program")
        (ArrayOf
           [ IfStatement (Some (Identifier (Some (lit "a"))))
               (Some (IfStatement (Some (Identifier (Some (lit "b"))))
                        (Some (Identifier (Some (lit "s1")))) None))
               None;
             Identifier (Some (lit "s2")) ]))
     13.
Proof. vm_compute. reflexivity. Qed.

(** When the two statements are assignments, which take their semicolon,
    the [else] goes to the inner [if], and the outer one has none. *)
Lemma dangling_else_of_assignments :
  parse_source (lit "if (a) if (b) x = 1; else y = 2;") =
  Ok (mkAST (lit "Program")
        (ArrayOf
           [ IfStatement (Some (Identifier (Some (lit "a"))))
               (Some (IfStatement (Some (Identifier (Some (lit "b"))))
                        (Some (Assignment (Some (lit "x")) (lit "=")
                                 (Some (Literal (NumberOf (lit "1"))
                                          (lit "int")))))
                        (Some (Assignment (Some (lit "y")) (lit "=")
                                 (Some (Literal (NumberOf (lit "2"))
                                          (lit "int")))))))
               None ]))
     17.
Proof. vm_compute. reflexivity. Qed.

(** ** C4 *)

(** C4. The input [int add(int a, int b) { return a + b; }] gives the
    sixteen tokens of the claim, in their places on line 1, then the
    end-of-input token; and these tokens parse to a Program of one
    Function named [add], with the two parameters [int a] and [int b] and
    a body of one ReturnStatement of the BinaryExpression [a + b]. *)
Theorem add_function_example :
  let code := lit "int add(int a, int b) { return a + b; }" in
  let toks :=
    [ tok KEYWORD (lit "int") 1 1; tok IDENTIFIER (lit "add") 1 5;
      tok DELIMITER (lit "(") 1 8; tok KEYWORD (lit "int") 1 9;
      tok IDENTIFIER (lit "a") 1 13; tok DELIMITER (lit ",") 1 14;
      tok KEYWORD (lit "int") 1 16; tok IDENTIFIER (lit "b") 1 20;
      tok DELIMITER (lit ")") 1 21; tok DELIMITER (lit "{") 1 23;
      tok KEYWORD (lit "return") 1 25; tok IDENTIFIER (lit "a") 1 32;
      tok OPERATOR (lit "+") 1 34; tok IDENTIFIER (lit "b") 1 36;
      tok DELIMITER (lit ";") 1 37; tok DELIMITER (lit "}") 1 39;
      eof_token ] in
  tokenize code = Some toks /\
  parse toks =
  Ok (mkAST (lit "Program")
        (ArrayOf
           [ Function_ (Some (lit "int")) (Some (lit "add"))
               [ mkParam (lit "int") (Some (lit "a"));
                 mkParam (lit "int") (Some (lit "b")) ]
               [ ReturnStatement
                   (Some (BinaryExpression
                            (Some (Identifier (Some (lit "a"))))
                            (lit "+")
                            (Some (Identifier (Some (lit "b")))))) ] ]))
     16.
Proof. split; vm_compute; reflexivity. Qed.

(** ** C5 *)

(** C5. For [for (i = 0; i < 5; i++) { printf("%d", i); }] the parser
    reads the update [i++] as the expression [i], so that the closing
    parenthesis is not taken and the body of the ForLoop is [null]; the
    block becomes the next statement of the program.  The Python text is
    the header over [range(0, 5)] with nothing under it, then the [print]
    at the left margin.  With [<=] the bound is written [5 + 1]. *)
Theorem counting_loop_loses_its_body :
  forall (float_text : jsstring -> jsstring)
         (float_truthy : jsstring -> bool)
         (inherited : jsstring -> option jsstring),
  let print_i :=
    lit "print(" ++ [QUOTE] ++ lit "{}" ++ [QUOTE] ++ lit ".format(i))"
    ++ [NL] in
  let program (op : string) :=
    mkAST (lit "Program")
      (ArrayOf
         [ ForLoop
             (Some (Assignment (Some (lit "i")) (lit "=")
                      (Some (Literal (NumberOf (lit "0")) (lit "int")))))
             (Some (BinaryExpression (Some (Identifier (Some (lit "i"))))
                      (lit op)
                      (Some (Literal (NumberOf (lit "5")) (lit "int")))))
             (Some (Identifier (Some (lit "i"))))
             None;
           Block
             [ PrintfStatement
                 [ Literal (Text (Some (lit "%d"))) (lit "string");
                   Identifier (Some (lit "i")) ] ] ]) in
  parse_source (counting_loop "<") = Ok (program "<"%string) 22 /\
  generatePython float_text float_truthy inherited (program "<"%string) =
  Returns (lit "for i in range(0, 5):" ++ [NL] ++ print_i) /\
  parse_source (counting_loop "<=") = Ok (program "<="%string) 22 /\
  generatePython float_text float_truthy inherited (program "<="%string) =
  Returns (lit "for i in range(0, 5 + 1):" ++ [NL] ++ print_i).
Proof. intros. repeat split; vm_compute; reflexivity. Qed.

(* ================================================================== *)
(** * What the generators return *)
(* ================================================================== *)

Lemma ends_nl_app : forall a b, ends_nl b -> ends_nl (a ++ b).
Proof.
  induction a as [|c a IH]; intros b H; simpl; [exact H|].
  constructor. apply IH, H.
Qed.

Lemma lines_app : forall a b, lines a -> lines b -> lines (a ++ b).
Proof.
  intros a b Ha [->|Hb].
  - now rewrite app_nil_r.
  - right. apply ends_nl_app, Hb.
Qed.

Lemma ends_nl_last : forall s, ends_nl s -> last s 0 = NL.
Proof.
  induction 1 as [|c s H IH]; [reflexivity|].
  destruct s; [inversion H|exact IH].
Qed.

Lemma EndsNL_Lines : forall c, EndsNL c -> Lines c.
Proof. intros [s|]; simpl; [right; assumption|exact id]. Qed.

Lemma Lines_plus : forall a b, Lines a -> Lines b -> Lines (a +++ b).
Proof.
  intros [a|] [b|]; simpl; auto. apply lines_app.
Qed.

Lemma EndsNL_plus : forall a b, EndsNL b -> EndsNL (a +++ b).
Proof.
  intros [a|] [b|]; simpl; auto. apply ends_nl_app.
Qed.

Lemma EndsNL_plus_Lines : forall a b, EndsNL a -> Lines b -> EndsNL (a +++ b).
Proof.
  intros [a|] [b|]; simpl; auto. intros Ha [->|Hb].
  - now rewrite app_nil_r.
  - apply ends_nl_app, Hb.
Qed.

Lemma EndsNL_andThen : forall A (c : completion A) k,
  (forall a, EndsNL (k a)) -> EndsNL (andThen c k).
Proof. intros A [a|] k H; simpl; [apply H|exact I]. Qed.

(** A text written as pieces, the last of which is a line feed. *)
Ltac ends_with_nl :=
  cbn [EndsNL];
  repeat first [ apply ends_here
               | apply ends_later
               | apply ends_nl_app ].

Section GeneratedLines.

Variable float_text : jsstring -> jsstring.
Variable float_truthy : jsstring -> bool.
Variable inherited : jsstring -> option jsstring.

Local Notation "'javaStatement'" :=
  (generateJavaStatement float_text float_truthy inherited).
Local Notation "'pythonStatement'" :=
  (generatePythonStatement float_text float_truthy inherited).

Lemma javaStatements_Lines : forall body indent,
  Forall (fun n => forall indent, Lines (javaStatement n indent)) body ->
  Lines (javaStatements javaStatement body indent).
Proof.
  induction body as [|n body IH]; intros indent H; simpl; [now left|].
  inversion H; subst. apply Lines_plus; auto.
Qed.

Lemma scanfCall_EndsNL : forall formatStr a b c k,
  (forall call, EndsNL (k call)) ->
  EndsNL (andThen (scanfCall float_truthy formatStr a b c) k).
Proof. intros. apply EndsNL_andThen. assumption. Qed.

Lemma generateJavaStatement_Lines : forall node indent,
  Lines (javaStatement node indent).
Proof.
  induction node using Node_induction; intros indent;
    cbn [generateJavaStatement]; try (now left).
  - (* Block *) apply javaStatements_Lines. assumption.
  - (* Variable *) apply EndsNL_Lines. ends_with_nl.
  - (* Assignment *)
    apply EndsNL_Lines.
    destruct (streq op (lit "++") || streq op (lit "--")); ends_with_nl.
  - (* IfStatement *)
    apply EndsNL_Lines. unfold generateJavaIfStatement.
    apply EndsNL_plus. ends_with_nl.
  - (* WhileLoop *)
    apply EndsNL_Lines, EndsNL_plus. ends_with_nl.
  - (* ForLoop *)
    apply EndsNL_Lines. unfold generateJavaForLoop.
    apply EndsNL_andThen. intros initCode. apply EndsNL_plus. ends_with_nl.
  - (* ReturnStatement *) apply EndsNL_Lines. ends_with_nl.
  - (* PrintfStatement *)
    apply EndsNL_Lines. unfold generateJavaPrintf.
    destruct args as [|first others]; [ends_with_nl|].
    destruct (map _ others); [|ends_with_nl].
    destruct (generateJavaExpression float_text first); [|exact I].
    match goal with |- context [if ?c then _ else _] => destruct c end;
      ends_with_nl.
  - (* ScanfStatement *)
    apply EndsNL_Lines. unfold generateJavaScanf.
    destruct args as [|formatStr [|second rest']]; try ends_with_nl.
    apply scanfCall_EndsNL. intros call. ends_with_nl.
  - (* FunctionCall *) apply EndsNL_Lines. ends_with_nl.
Qed.

Lemma generateJava_loop_Lines : forall body classContent hasMain,
  Lines classContent ->
  Lines (fst (generateJava_loop float_text float_truthy inherited body
                classContent hasMain)).
Proof.
  induction body as [|node body IH]; intros classContent hasMain H;
    [exact H|].
  cbn [generateJava_loop].
  assert (L : Lines (fst (generateJava_node float_text float_truthy
                            inherited node))).
  { unfold generateJava_node.
    destruct node; cbn [fst]; try apply generateJavaStatement_Lines.
    - now left.
    - destruct (is_text name "main"); cbn [fst];
        apply EndsNL_Lines, EndsNL_plus; ends_with_nl. }
  destruct (generateJava_node float_text float_truthy inherited node)
    as [code isMain].
  apply IH, Lines_plus; [exact H|exact L].
Qed.

Lemma lines_not_diagnostic : forall s,
  lines s -> s <> java_diagnostic /\ s <> python_diagnostic.
Proof.
  intros s [->|H]; [split; discriminate|].
  apply ends_nl_last in H.
  split; intros ->; vm_compute in H; discriminate.
Qed.

(** For a root whose body is an array, [generateJava] does not return
    the diagnostic. *)
Lemma generateJava_of_array : forall ty body,
  generateJava float_text float_truthy inherited (mkAST ty (ArrayOf body))
  <> Returns java_diagnostic.
Proof.
  intros ty body. unfold generateJava. cbn [ast_body].
  pose proof (generateJava_loop_Lines body (Returns []) false
                (or_introl eq_refl)) as L.
  destruct (generateJava_loop float_text float_truthy inherited body
              (Returns []) false) as [classContent hasMain].
  cbn [fst] in L. destruct classContent as [code|].
  - destruct hasMain; cbn [andThen].
    + intros E. apply (f_equal (fun c => last (returned c) 0)) in E.
      cbn [returned] in E.
      change (lit "}") with [125] in E.
      rewrite !app_assoc, last_last in E. vm_compute in E. discriminate.
    + intros E. apply (f_equal returned) in E. cbn [returned] in E.
      exact (proj1 (lines_not_diagnostic code L) E).
  - destruct hasMain; discriminate.
Qed.

Lemma pythonStatements_EndsNL : forall body indent,
  Forall (fun n => forall indent, Lines (pythonStatement n indent)) body ->
  EndsNL (pythonStatements pythonStatement body indent).
Proof.
  intros body indent H. unfold pythonStatements.
  assert (L : match pythonStatements_loop pythonStatement body indent with
              | Returns (code, hasContent) =>
                  lines code /\ (hasContent = true -> ends_nl code)
              | Throws => True
              end).
  { induction body as [|n body IH]; [split; [now left|discriminate]|].
    inversion H as [|? ? Hn Hb]; subst. specialize (IH Hb).
    specialize (Hn indent). cbn [pythonStatements_loop].
    destruct (pythonStatement n indent) as [stmtCode|]; [|exact I].
    cbn [andThen].
    destruct (pythonStatements_loop pythonStatement body indent)
      as [[code hasContent]|]; [|exact I].
    cbn [andThen]. destruct IH as [Lc Hc].
    destruct (negb (length (trim stmtCode) =? 0)%nat) eqn:B;
      [|split; assumption].
    assert (Es : ends_nl stmtCode).
    { destruct Hn as [->|Es]; [discriminate B|exact Es]. }
    split; [apply lines_app; assumption|]. intros _.
    destruct Lc as [->|Lc]; [now rewrite app_nil_r|].
    apply ends_nl_app, Lc. }
  destruct (pythonStatements_loop pythonStatement body indent)
    as [[code hasContent]|]; [|exact I].
  cbn [andThen]. destruct hasContent; cbn [EndsNL].
  - now apply L.
  - ends_with_nl.
Qed.

Lemma pythonBody_Lines : forall body indent,
  if_any (fun n => forall indent, Lines (pythonStatement n indent)) body ->
  Lines (pythonBody pythonStatement body indent).
Proof.
  intros [n|] indent H; [|now left]. cbn [if_any] in H. unfold pythonBody.
  destruct n; apply H.
Qed.

Lemma generatePythonStatement_Lines : forall node indent,
  Lines (pythonStatement node indent).
Proof.
  induction node using Node_induction; intros indent;
    cbn [generatePythonStatement]; try (now left).
  - (* Block *) apply EndsNL_Lines, pythonStatements_EndsNL. assumption.
  - (* Variable *) apply EndsNL_Lines. ends_with_nl.
  - (* Assignment *)
    apply EndsNL_Lines.
    destruct (streq op (lit "++")); [ends_with_nl|].
    destruct (streq op (lit "--")); ends_with_nl.
  - (* IfStatement *)
    apply EndsNL_Lines. unfold generatePythonIfStatement.
    apply EndsNL_plus_Lines; [apply EndsNL_plus_Lines|].
    + ends_with_nl.
    + apply pythonBody_Lines. assumption.
    + destruct e as [e|]; [|now left].
      destruct e;
        try (apply EndsNL_Lines, EndsNL_plus_Lines;
             [ends_with_nl|apply pythonBody_Lines; assumption]).
      apply EndsNL_Lines, EndsNL_andThen. intros code. ends_with_nl.
  - (* WhileLoop *)
    apply EndsNL_Lines, EndsNL_plus_Lines;
      [ends_with_nl|apply pythonBody_Lines; assumption].
  - (* ForLoop *)
    apply EndsNL_Lines. unfold generatePythonForLoop.
    destruct i as [i|]; [|ends_with_nl].
    destruct c as [c|]; [|ends_with_nl].
    destruct u as [u|]; [|ends_with_nl].
    apply EndsNL_plus_Lines;
      [ends_with_nl|apply pythonBody_Lines; assumption].
  - (* ReturnStatement *) apply EndsNL_Lines. ends_with_nl.
  - (* PrintfStatement *)
    apply EndsNL_Lines. unfold generatePythonPrintf.
    destruct args as [|formatStr args]; [ends_with_nl|].
    destruct args; [ends_with_nl|].
    destruct (or_else float_truthy (field_value formatStr)
                (FObject formatStr)); try exact I.
    ends_with_nl.
  - (* ScanfStatement *)
    apply EndsNL_Lines. unfold generatePythonScanf.
    destruct args as [|formatStr [|second rest']]; try ends_with_nl.
    apply scanfCall_EndsNL. intros call. ends_with_nl.
  - (* FunctionCall *) apply EndsNL_Lines. ends_with_nl.
Qed.

Lemma generatePython_loop_Lines : forall body pythonCode hasMain,
  Lines pythonCode ->
  Lines (fst (generatePython_loop float_text float_truthy inherited body
                pythonCode hasMain)).
Proof.
  induction body as [|node body IH]; intros pythonCode hasMain H;
    [exact H|].
  cbn [generatePython_loop].
  assert (L : Lines (fst (generatePython_node float_text float_truthy
                            inherited node))).
  { unfold generatePython_node.
    destruct node; cbn [fst]; try apply generatePythonStatement_Lines.
    - now left.
    - destruct (is_text name "main"); cbn [fst];
        apply EndsNL_Lines, EndsNL_plus; ends_with_nl. }
  destruct (generatePython_node float_text float_truthy inherited node)
    as [code isMain].
  apply IH, Lines_plus; [exact H|exact L].
Qed.

(** For a root whose body is an array, [generatePython] does not return
    the diagnostic. *)
Lemma generatePython_of_array : forall ty body,
  generatePython float_text float_truthy inherited (mkAST ty (ArrayOf body))
  <> Returns python_diagnostic.
Proof.
  intros ty body. unfold generatePython. cbn [ast_body].
  pose proof (generatePython_loop_Lines body (Returns []) false
                (or_introl eq_refl)) as L.
  destruct (generatePython_loop float_text float_truthy inherited body
              (Returns []) false) as [pythonCode hasMain].
  cbn [fst] in L.
  assert (L' : Lines (if hasMain
                      then pythonCode
                           +++ Returns (lit "if __name__ == " ++ [QUOTE]
                                        ++ lit "__main__" ++ [QUOTE]
                                        ++ lit ":" ++ [NL]
                                        ++ lit "    main()" ++ [NL])
                      else pythonCode)).
  { destruct hasMain; [|exact L].
    apply EndsNL_Lines, EndsNL_plus. ends_with_nl. }
  intros E. rewrite E in L'.
  exact (proj2 (lines_not_diagnostic _ L') eq_refl).
Qed.

End GeneratedLines.

(** ** C6 *)

(** C6. For every root, whatever its [type]: [generateJava] returns the
    line [// Error: Invalid AST structure] exactly when the [body] of the
    root is missing or is not an array, and [generatePython] returns the
    line [# Error: Invalid AST structure] exactly then.  For such a root
    they thus return and do not throw; for a root with an array as
    [body] neither result is one of these lines.  Each of the two texts
    is one line: it holds no line feed. *)
Theorem diagnostic_iff_malformed_root :
  forall (float_text : jsstring -> jsstring)
         (float_truthy : jsstring -> bool)
         (inherited : jsstring -> option jsstring) (ast : ASTNode),
    (generateJava float_text float_truthy inherited ast
     = Returns java_diagnostic <-> malformed ast) /\
    (generatePython float_text float_truthy inherited ast
     = Returns python_diagnostic <-> malformed ast) /\
    ~ In NL java_diagnostic /\ ~ In NL python_diagnostic /\
    starts_with (lit "//") java_diagnostic = true /\
    starts_with (lit "#") python_diagnostic = true.
Proof.
  intros float_text float_truthy inherited [ty body].
  assert (One : forall s, forallb (fun c => negb (c =? NL)) s = true ->
                          ~ In NL s).
  { intros s H Hin. rewrite forallb_forall in H. specialize (H NL Hin).
    discriminate. }
  repeat split; try (apply One; reflexivity); unfold malformed;
    cbn [ast_body]; destruct body as [| |nodes]; try tauto;
    try reflexivity; intros E; exfalso.
  - exact (generateJava_of_array _ _ _ _ _ E).
  - exact (generatePython_of_array _ _ _ _ _ E).
Qed.

(** A placeholder comment is generated code, not the result of the test
    of the root: for a [for] loop without clauses the Python text is a
    comment line, which ends in a line feed. *)
Lemma placeholder_comment_is_code :
  forall (float_text : jsstring -> jsstring)
         (float_truthy : jsstring -> bool)
         (inherited : jsstring -> option jsstring),
    generatePython float_text float_truthy inherited
      (mkAST (lit "Program") (ArrayOf [ForLoop None None None None])) =
    Returns (lit "# For loop conversion needed" ++ [NL]).
Proof. reflexivity. Qed.

(** ** C9 *)

(** C9. For every token list, [parse] ends; the node it returns has the
    type [Program] and an array as [body], and on that node neither
    generator returns its diagnostic line; [parse] returns unless a
    NUMBER token has no text, in which case it throws. *)
Theorem parse_gives_program :
  forall (float_text : jsstring -> jsstring)
         (float_truthy : jsstring -> bool)
         (inherited : jsstring -> option jsstring) (toks : list Token),
    match parse toks with
    | Ok ast _ =>
        ast_type ast = lit "Program" /\
        (exists body, ast_body ast = ArrayOf body) /\
        generateJava float_text float_truthy inherited ast
        <> Returns java_diagnostic /\
        generatePython float_text float_truthy inherited ast
        <> Returns python_diagnostic
    | TypeError => exists t, In t toks /\ type t = NUMBER /\ value t = None
    | OutOfFuel => False
    end.
Proof.
  intros float_text float_truthy inherited toks.
  pose proof (parse_outcome toks) as P.
  destruct (parse toks) as [ast pos| |]; [|exact P..].
  destruct P as (body & -> & _).
  split; [reflexivity|]. split; [exists body; reflexivity|].
  split; [apply generateJava_of_array|apply generatePython_of_array].
Qed.
(* ================================================================== *)
(** * The tokens of the tokenizer *)
(* ================================================================== *)

Section LexerInvariant.

Local Open Scope nat_scope.

Ltac split3 := split; [|split].

Ltac places :=
  unfold reaches, upright, place_lt, place_le, advance, advance_off_end in *;
  repeat match goal with
         | |- context [if ?b then _ else _] => destruct b
         | H : context [if ?b then _ else _] |- _ => destruct b
         end;
  simpl in *; lia.

Lemma advance_reaches : forall c p, reaches p (advance c p).
Proof. intros. places. Qed.

Lemma advance_later : forall c p, place_lt p (advance c p).
Proof. intros. places. Qed.

Lemma reaches_refl : forall p, reaches p p.
Proof. intros. places. Qed.

Lemma reaches_trans : forall p q r, reaches p q -> reaches q r -> reaches p r.
Proof. intros. places. Qed.

Lemma later_reaches : forall p q r,
  place_lt p q -> reaches q r -> place_lt p r.
Proof. intros. places. Qed.

Lemma place_lt_trans : forall p q r,
  place_lt p q -> place_lt q r -> place_lt p r.
Proof. intros. places. Qed.

Lemma skipSingleLineComment_reaches : forall r p,
  reaches p (snd (skipSingleLineComment r p)).
Proof.
  induction r as [|c r IH]; intros p; simpl; [apply reaches_refl|].
  destruct (negb (c =? NL)%N); simpl; [|apply reaches_refl].
  eapply reaches_trans; [apply advance_reaches|apply IH].
Qed.

Lemma skipMultiLineComment_loop_reaches : forall n r p,
  length r <= n -> reaches p (snd (skipMultiLineComment_loop r p)).
Proof.
  induction n as [|n IH]; intros r p Hn.
  - destruct r; [apply reaches_refl|simpl in Hn; lia].
  - destruct r as [|c [|c2 r2]]; try apply reaches_refl.
    rewrite skipMultiLineComment_loop_step.
    destruct ((c =? STAR)%N && (c2 =? SLASH)%N); cbn [snd].
    + eapply reaches_trans; apply advance_reaches.
    + eapply reaches_trans; [apply advance_reaches|].
      apply IH. simpl in *. lia.
Qed.

Lemma skipWhitespace_reaches : forall r p,
  reaches p (snd (skipWhitespace r p)).
Proof.
  induction r as [|c r IH]; intros p; simpl; [apply reaches_refl|].
  destruct (isSpace c && negb (c =? NL)%N); simpl; [|apply reaches_refl].
  eapply reaches_trans; [apply advance_reaches|apply IH].
Qed.

(** The loop of [readIdentifier] adds units of identifiers only. *)
Lemma readIdentifier_loop_reads : forall r p v,
  let out := readIdentifier_loop r p v in
  length (fst (fst out)) <= length r /\
  reaches p (snd (fst out)) /\
  exists w, snd out = v ++ w /\ forallb isIdentifierUnit w = true.
Proof.
  induction r as [|c r IH]; intros p v; cbn zeta.
  - simpl. split3; [lia|apply reaches_refl|].
    exists []. now rewrite app_nil_r.
  - simpl. fold (isIdentifierUnit c). destruct (isIdentifierUnit c) eqn:E.
    + destruct (IH (advance c p) (v ++ [c])) as (L & P & w & Ew & Hw).
      split3; [lia| |].
      * eapply reaches_trans; [apply advance_reaches|exact P].
      * exists (c :: w). rewrite Ew, <- app_assoc. simpl. now rewrite E, Hw.
    + simpl. split3; [lia|apply reaches_refl|].
      exists []. now rewrite app_nil_r.
Qed.

Lemma dots_cons : forall c w,
  dots (c :: w) = (if (c =? DOT)%N then 1 else 0) + dots w.
Proof.
  intros c w. unfold dots. cbn [filter]. rewrite (N.eqb_sym DOT c).
  destruct (c =? DOT)%N; reflexivity.
Qed.

(** The loop of [readNumber] adds digits and, if none was read before,
    at most one decimal point. *)
Lemma readNumber_loop_reads : forall r p d v,
  let out := readNumber_loop r p d v in
  length (fst (fst out)) <= length r /\
  reaches p (snd (fst out)) /\
  exists w, snd out = v ++ w /\ forallb isNumberUnit w = true /\
            dots w <= (if d then 0 else 1).
Proof.
  induction r as [|c r IH]; intros p d v; cbn zeta.
  - simpl. split3; [lia|apply reaches_refl|].
    exists []. rewrite app_nil_r. split3; try reflexivity.
    destruct d; unfold dots; simpl; lia.
  - simpl. destruct (isDigit c || ((c =? DOT)%N && negb d)) eqn:E.
    + destruct (IH (advance c p) (if (c =? DOT)%N then true else d)
                  (v ++ [c])) as (L & P & w & Ew & Hw & Hd).
      split3; [lia| |].
      * eapply reaches_trans; [apply advance_reaches|exact P].
      * exists (c :: w). rewrite Ew, <- app_assoc. simpl.
        split3; [reflexivity| |].
        -- unfold isNumberUnit at 1.
           destruct (isDigit c), (c =? DOT)%N, d; simpl in *;
             try discriminate; exact Hw.
        -- rewrite dots_cons.
           destruct (c =? DOT)%N eqn:Ec, d; simpl in *; try lia.
           apply N.eqb_eq in Ec. subst c. discriminate E.
    + simpl. split3; [lia|apply reaches_refl|].
      exists []. rewrite app_nil_r. split3; try reflexivity.
      destruct d; unfold dots; simpl; lia.
Qed.

Lemma readQuoted_loop_reaches : forall q n r p v,
  length r <= n ->
  reaches p (snd (fst (readQuoted_loop q r p v))).
Proof.
  induction n as [|n IH]; intros r p v Hn.
  - destruct r; [apply reaches_refl|simpl in Hn; lia].
  - destruct r as [|c r]; [apply reaches_refl|]. simpl.
    destruct (negb (c =? q)%N); [|apply reaches_refl].
    destruct r as [|c2 r2].
    + simpl. apply advance_reaches.
    + destruct (c =? BACKSLASH)%N.
      * eapply reaches_trans; [|apply IH; simpl in *; lia].
        eapply reaches_trans; apply advance_reaches.
      * eapply reaches_trans; [|apply IH; simpl in *; lia].
        apply advance_reaches.
Qed.

(** After a first [advance()], a later place. *)
Lemma later_after_advance : forall c p q,
  reaches (advance c p) q -> place_lt p q /\ (upright p -> upright q).
Proof. intros. places. Qed.

Lemma readIdentifier_reads_at : forall c r p,
  isLetter c || (c =? UNDERSCORE)%N = true ->
  reads_at p r (readIdentifier (c :: r) p).
Proof.
  intros c r p H. unfold readIdentifier. cbn [readIdentifier_loop].
  assert (E : isLetter c || isDigit c || (c =? UNDERSCORE)%N = true).
  { destruct (isLetter c), (isDigit c), (c =? UNDERSCORE)%N;
      simpl in *; congruence. }
  rewrite E.
  pose proof (readIdentifier_loop_reads r (advance c p) ([] ++ [c]))
    as (L & P & w & Ew & Hw).
  destruct (readIdentifier_loop r (advance c p) ([] ++ [c]))
    as [[r' p'] v].
  cbn [fst snd] in *. subst v.
  split3; [exact L|apply (later_after_advance c), P|].
  assert (S : identifierShape (c :: w) = true).
  { unfold identifierShape. now rewrite H, Hw. }
  change (([] ++ [c]) ++ w) with (c :: w).
  match goal with
  | |- context [if ?b then KEYWORD else IDENTIFIER] => destruct b eqn:K
  end.
  - exists KEYWORD, (c :: w). split; [reflexivity|].
    unfold text_of_kind. rewrite S. exact K.
  - exists IDENTIFIER, (c :: w). split; [reflexivity|].
    unfold text_of_kind. rewrite S. cbn [andb]. apply negb_true_iff. exact K.
Qed.

Lemma readNumber_reads_at : forall c r p,
  isDigit c = true -> reads_at p r (readNumber (c :: r) p).
Proof.
  intros c r p H. unfold readNumber. cbn [readNumber_loop].
  rewrite H. cbn [orb].
  assert (Ed : (c =? DOT)%N = false).
  { destruct (c =? DOT)%N eqn:E; [|reflexivity].
    apply N.eqb_eq in E. subst c. discriminate H. }
  rewrite Ed.
  pose proof (readNumber_loop_reads r (advance c p) false ([] ++ [c]))
    as (L & P & w & Ew & Hw & Hd).
  destruct (readNumber_loop r (advance c p) false ([] ++ [c]))
    as [[r' p'] v].
  cbn [fst snd] in *. subst v.
  split3; [exact L|apply (later_after_advance c), P|].
  exists NUMBER, (c :: w). split; [reflexivity|].
  unfold text_of_kind, numberShape. rewrite H. cbn [forallb andb].
  unfold isNumberUnit at 1. rewrite H. cbn [orb andb]. rewrite Hw.
  rewrite dots_cons, Ed. apply Nat.leb_le. exact Hd.
Qed.

Lemma readQuoted_reads_at : forall q c r p,
  reads_at p r (readQuoted q (c :: r) p).
Proof.
  intros q c r p. unfold readQuoted.
  pose proof (readQuoted_loop_length q (length r) r (advance c p) []
                (le_n _)) as L.
  pose proof (readQuoted_loop_reaches q (length r) r (advance c p) []
                (le_n _)) as P.
  destruct (readQuoted_loop q r (advance c p) []) as [[r' p'] v].
  cbn [fst snd] in *.
  destruct r' as [|c' r']; cbn [fst snd]; split3;
    try (simpl in *; lia);
    try (exists STRING, v; split; reflexivity).
  - apply (later_after_advance c), P.
  - apply (later_after_advance c).
    eapply reaches_trans; [exact P|apply advance_reaches].
Qed.

Lemma readOperator_reads_at : forall c r p,
  isOperator c = true -> reads_at p r (readOperator c r p).
Proof.
  intros c r p H. unfold readOperator. destruct r as [|next r2].
  - split3; cbn [fst snd];
      [simpl; lia|apply (later_after_advance c), reaches_refl|].
    exists OPERATOR, [c]. split; [reflexivity|exact H].
  - destruct (existsb (is_text (Some [c; next])) twoCharOperators) eqn:E;
      split3; cbn [fst snd]; try (simpl; lia).
    + apply (later_after_advance c), advance_reaches.
    + exists OPERATOR, [c; next]. split; [reflexivity|].
      cbn [text_of_kind]. rewrite H. exact E.
    + apply (later_after_advance c), reaches_refl.
    + exists OPERATOR, [c]. split; [reflexivity|exact H].
Qed.

Lemma readDelimiter_reads_at : forall c r p,
  isDelimiter c = true -> reads_at p r (readDelimiter c r p).
Proof.
  intros c r p H. split3; cbn [fst snd];
    [simpl; lia|apply (later_after_advance c), reaches_refl|].
  exists DELIMITER, [c]. split; [reflexivity|exact H].
Qed.

Lemma starts_before_later : forall p q t,
  starts_before p t -> place_le p q -> starts_before q t.
Proof.
  intros p q t H L. unfold starts_before in *.
  destruct (token_place t); [|exact H]. places.
Qed.

Lemma StronglySorted_snoc : forall (A : Type) (R : A -> A -> Prop) l x,
  StronglySorted R l -> Forall (fun y => R y x) l ->
  StronglySorted R (l ++ [x]).
Proof.
  intros A R l x S F. induction S as [|a l S IH Ha]; simpl.
  - repeat constructor.
  - inversion F; subst. constructor; [apply IH; assumption|].
    apply Forall_app. split; [exact Ha|]. repeat constructor. assumption.
Qed.

(** Pushing the token of a reader keeps the invariant. *)
Lemma pushed_keeps : forall n c r st out,
  rest st = c :: r -> reads_at (place st) r out ->
  lexer_invariant n st -> lexer_invariant n (pushed st out).
Proof.
  intros n c r st [[r' p'] t] Hr (L & (P & U) & ty & v & Et & Hl) I.
  destruct I as [Ic Il Is Ib Iu]. cbn [fst snd] in *. subst t.
  rewrite Hr in Ic. unfold pushed.
  assert (Here : forall q, place_lt (place st) q ->
                 starts_before q
                   (tok ty v (at_line (place st)) (at_column (place st)))).
  { intros q Hq. unfold starts_before, token_place. simpl. places. }
  constructor; cbn [rest place tokens].
  - rewrite length_app. simpl in *. lia.
  - apply Forall_app. split; [exact Il|]. constructor; [|constructor].
    destruct Iu. exists ty, v, (at_line (place st)), (at_column (place st)).
    auto.
  - apply StronglySorted_snoc; [exact Is|].
    eapply Forall_impl; [|exact Ib]. intros t Ht.
    unfold token_before, starts_before in *.
    destruct (token_place t); [|exact Ht].
    unfold token_place. simpl. places.
  - apply Forall_app. split.
    + eapply Forall_impl; [|exact Ib]. intros t Ht.
      apply (starts_before_later (place st)); [exact Ht|]. places.
    + constructor; [|constructor]. apply Here, P.
  - apply U, Iu.
Qed.

(** Moving the cursor on, over a comment or over white space, keeps the
    invariant. *)
Lemma skipped_keeps : forall n st out,
  length (fst out) <= length (rest st) -> reaches (place st) (snd out) ->
  lexer_invariant n st -> lexer_invariant n (skipped st out).
Proof.
  intros n st [r' p'] L P [Ic Il Is Ib Iu]. cbn [fst snd] in *.
  constructor; cbn [skipped fst snd rest place tokens]; auto.
  - lia.
  - eapply Forall_impl; [|exact Ib]. intros t Ht.
    apply (starts_before_later (place st)); [exact Ht|apply P].
  - apply P, Iu.
Qed.

Lemma dispatch_keeps : forall n c r st,
  rest st = c :: r ->
  lexer_invariant n st -> lexer_invariant n (dispatch c st).
Proof.
  intros n c r st Hr I. unfold dispatch. rewrite Hr.
  destruct ((c =? SLASH)%N && peek_is (c :: r) SLASH).
  { apply skipped_keeps; [rewrite Hr; apply skipSingleLineComment_length
                         |apply skipSingleLineComment_reaches|exact I]. }
  destruct ((c =? SLASH)%N && peek_is (c :: r) STAR) eqn:E2.
  { apply andb_prop in E2 as [_ Ep].
    destruct r as [|c2 r2]; [discriminate|].
    apply skipped_keeps; [| |exact I]; unfold skipMultiLineComment.
    - rewrite Hr.
      eapply Nat.le_trans;
        [apply (skipMultiLineComment_loop_length (length r2)), le_n|].
      cbn [length]. lia.
    - eapply reaches_trans; [apply advance_reaches|].
      eapply reaches_trans; [apply advance_reaches|].
      apply (skipMultiLineComment_loop_reaches (length r2)), le_n. }
  destruct (isLetter c || (c =? UNDERSCORE)%N) eqn:E3.
  { apply (pushed_keeps n c r);
      [exact Hr|apply readIdentifier_reads_at, E3|exact I]. }
  destruct (isDigit c) eqn:E4.
  { apply (pushed_keeps n c r);
      [exact Hr|apply readNumber_reads_at, E4|exact I]. }
  destruct (c =? QUOTE)%N.
  { apply (pushed_keeps n c r);
      [exact Hr|apply readQuoted_reads_at|exact I]. }
  destruct (c =? APOSTROPHE)%N.
  { apply (pushed_keeps n c r);
      [exact Hr|apply readQuoted_reads_at|exact I]. }
  destruct (isOperator c) eqn:E7.
  { apply (pushed_keeps n c r);
      [exact Hr|apply readOperator_reads_at, E7|exact I]. }
  destruct (isDelimiter c) eqn:E8.
  { apply (pushed_keeps n c r);
      [exact Hr|apply readDelimiter_reads_at, E8|exact I]. }
  destruct (c =? NL)%N eqn:E9.
  - change (mkLexer (tl (c :: r)) (advance c (place st))
              (tokens st ++ [tok NEWLINE [NL] (at_line (place st))
                               (at_column (place st))]))
      with (pushed st (r, advance c (place st),
                       tok NEWLINE [NL] (at_line (place st))
                         (at_column (place st)))).
    apply (pushed_keeps n c r); [exact Hr| |exact I].
    split3; cbn [fst snd]; [lia|apply (later_after_advance c), reaches_refl|].
    exists NEWLINE, [NL]. split; reflexivity.
  - change (mkLexer (tl (c :: r)) (advance c (place st)) (tokens st))
      with (skipped st (r, advance c (place st))).
    apply skipped_keeps; [rewrite Hr; simpl; lia|apply advance_reaches|exact I].
Qed.

(** The loop of [tokenize] keeps the invariant. *)
Lemma tokenize_loop_keeps : forall n fuel st st',
  lexer_invariant n st -> tokenize_loop fuel st = Some st' ->
  lexer_invariant n st'.
Proof.
  induction fuel as [|fuel IH]; intros st st' I H; [discriminate|].
  rewrite tokenize_loop_step in H.
  destruct (rest st) as [|c0 r0] eqn:Hr; [injection H as <-; exact I|].
  cbv zeta in H.
  assert (I1 : lexer_invariant n
                 (skipped st (skipWhitespace (c0 :: r0) (place st)))).
  { apply skipped_keeps; [rewrite Hr; apply skipWhitespace_length
                         |apply skipWhitespace_reaches|exact I]. }
  destruct (rest (skipped st (skipWhitespace (c0 :: r0) (place st))))
    as [|c r] eqn:Hr1; [injection H as <-; exact I1|].
  apply (IH _ _ (dispatch_keeps n c r _ Hr1 I1) H).
Qed.

(** What holds of the tokens returned for every input. *)
Lemma tokenize_invariant : forall code,
  exists st',
    tokenize code = Some (tokens st' ++ [eof_token]) /\
    lexer_invariant (length code) st'.
Proof.
  intros code. unfold tokenize, tokenize_from.
  destruct (tokenize_loop_total (S (length code)) (new_LexicalAnalyzer code))
    as (st' & E & _); [simpl; lia|constructor|].
  rewrite E. exists st'. split; [reflexivity|].
  eapply tokenize_loop_keeps; [|exact E].
  apply mk_lexer_invariant; cbn [new_LexicalAnalyzer tokens rest place].
  - apply le_n.
  - constructor.
  - constructor.
  - constructor.
  - split; apply le_n.
Qed.

End LexerInvariant.

(** X1.
    Whatever the input, [tokenize] returns at most one token for each code
    unit of it, and the end-of-input token. *)
Theorem tokenize_at_most_one_token_per_unit : forall code : jsstring,
  exists toks,
    tokenize code = Some toks /\ (length toks <= S (length code))%nat.
Proof.
  intros code. destruct (tokenize_invariant code) as (st & E & I).
  exists (tokens st ++ [eof_token]). split; [exact E|].
  destruct I as [Ic _ _ _ _]. rewrite length_app. simpl. lia.
Qed.

(** X2.
    Whatever the input, every token before the end-of-input token has a
    text of its kind, and a line and a column counted from 1: a keyword is
    a word of the table of keywords and an identifier is a word that is
    not; a number starts with a digit and has at most one decimal point; an
    operator is one unit of the operators, or two that the table of
    operators has; a delimiter is one unit of the delimiters; the text of a
    NEWLINE token is a line feed. *)
Theorem tokens_have_the_text_of_their_kind : forall code : jsstring,
  exists body,
    tokenize code = Some (body ++ [eof_token]) /\ Forall lexed body.
Proof.
  intros code. destruct (tokenize_invariant code) as (st & E & I).
  exists (tokens st). split; [exact E|apply I].
Qed.

(** X3.
    Whatever the input, the tokens before the end-of-input token carry
    places that grow strictly, in the order of lines and then of columns:
    no two tokens start at the same place, and a token never starts before
    one that comes earlier in the result. *)
Theorem tokens_in_source_order : forall code : jsstring,
  exists body,
    tokenize code = Some (body ++ [eof_token]) /\
    StronglySorted token_before body.
Proof.
  intros code. destruct (tokenize_invariant code) as (st & E & I).
  exists (tokens st). split; [exact E|apply I].
Qed.

(* ================================================================== *)
(** * Comments *)
(* ================================================================== *)

Section Comments.

Local Open Scope nat_scope.

Lemma pushed_rest : forall st out, rest (pushed st out) = fst (fst out).
Proof. intros st [[r p] t]. reflexivity. Qed.

Lemma dispatch_length : forall c r st,
  rest st = c :: r -> length (rest (dispatch c st)) <= length r.
Proof.
  intros c r st Hr. unfold dispatch. rewrite Hr.
  destruct ((c =? SLASH)%N && peek_is (c :: r) SLASH) eqn:E1.
  { apply andb_prop in E1 as [Ec _]. apply N.eqb_eq in Ec. subst c.
    apply (skipSingleLineComment_length r (advance SLASH (place st))). }
  destruct ((c =? SLASH)%N && peek_is (c :: r) STAR) eqn:E2.
  { apply andb_prop in E2 as [_ Ep].
    destruct r as [|c2 r2]; [discriminate|]. cbn [skipped rest fst].
    unfold skipMultiLineComment.
    eapply Nat.le_trans;
      [apply (skipMultiLineComment_loop_length (length r2)), le_n|].
    cbn [length]. lia. }
  destruct (isLetter c || (c =? UNDERSCORE)%N) eqn:E3.
  { rewrite pushed_rest. now apply readIdentifier_reads. }
  destruct (isDigit c) eqn:E4.
  { rewrite pushed_rest. now apply readNumber_reads. }
  destruct (c =? QUOTE)%N.
  { rewrite pushed_rest. apply readQuoted_reads. }
  destruct (c =? APOSTROPHE)%N.
  { rewrite pushed_rest. apply readQuoted_reads. }
  destruct (isOperator c).
  { rewrite pushed_rest. apply readOperator_reads. }
  destruct (isDelimiter c).
  { rewrite pushed_rest. apply readDelimiter_reads. }
  destruct (c =? NL)%N; simpl; lia.
Qed.

(** Fuel beyond the number of code units left changes nothing. *)
Lemma tokenize_loop_fuel : forall f f' st,
  length (rest st) < f -> length (rest st) < f' ->
  tokenize_loop f st = tokenize_loop f' st.
Proof.
  induction f as [|f IH]; intros f' st H H'; [lia|].
  destruct f' as [|f']; [lia|]. rewrite !tokenize_loop_step.
  destruct (rest st) as [|c0 r0] eqn:Hr; [reflexivity|]. cbv zeta.
  pose proof (skipWhitespace_length (c0 :: r0) (place st)) as Hw.
  destruct (rest (skipped st (skipWhitespace (c0 :: r0) (place st))))
    as [|c r] eqn:Hr1; [reflexivity|].
  pose proof (dispatch_length c r _ Hr1) as L.
  cbn [skipped rest] in Hr1. rewrite Hr1 in Hw. cbn [length] in *.
  apply IH; lia.
Qed.

Lemma tokenize_from_fuel : forall f f' st,
  length (rest st) < f -> length (rest st) < f' ->
  tokenize_from f st = tokenize_from f' st.
Proof.
  intros f f' st H H'. unfold tokenize_from.
  now rewrite (tokenize_loop_fuel f f' st).
Qed.

Lemma skipSingleLineComment_app : forall text tail p,
  on_one_line text = true -> at_line_end tail = true ->
  skipSingleLineComment (text ++ tail) p = (tail, advance_over text p).
Proof.
  induction text as [|c text IH]; intros tail p H T.
  - destruct tail as [|c r]; [reflexivity|]. simpl in *. now rewrite T.
  - simpl in H. apply andb_prop in H as [Hc H]. simpl. rewrite Hc.
    apply IH; assumption.
Qed.

Lemma includes_tail : forall sub c s,
  includes sub (c :: s) = false -> includes sub s = false.
Proof.
  intros sub c s H. cbn [includes] in H.
  apply orb_false_elim in H as [_ H]. exact H.
Qed.

Lemma skipMultiLineComment_loop_app : forall body tail p,
  includes [STAR; SLASH] body = false ->
  skipMultiLineComment_loop (body ++ STAR :: SLASH :: tail) p =
  (tail, advance_over (body ++ [STAR; SLASH]) p).
Proof.
  induction body as [|c body IH]; intros tail p H; [reflexivity|].
  pose proof (includes_tail _ _ _ H) as Hb.
  assert (E : exists c2 r2, body ++ STAR :: SLASH :: tail = c2 :: r2 /\
                            (c =? STAR)%N && (c2 =? SLASH)%N = false).
  { destruct body as [|c2 body'].
    - exists STAR, (SLASH :: tail). split; [reflexivity|].
      apply andb_false_r.
    - exists c2, (body' ++ STAR :: SLASH :: tail). split; [reflexivity|].
      cbn [includes starts_with] in H.
      apply orb_false_elim in H as [H _].
      rewrite andb_true_r in H.
      rewrite (N.eqb_sym c), (N.eqb_sym c2). exact H. }
  destruct E as (c2 & r2 & E & Hc).
  cbn [app]. rewrite E, skipMultiLineComment_loop_step, Hc, <- E.
  rewrite IH by exact Hb. reflexivity.
Qed.

Lemma app_not_nil : forall (ws r : jsstring) c,
  exists y l, ws ++ c :: r = y :: l.
Proof. intros [|w ws] r c; eexists; eexists; reflexivity. Qed.

(** The loop of [tokenize] over white space and then a unit that is no
    white space. *)
Lemma tokenize_from_blanks : forall ws c r p toks fuel,
  forallb blank ws = true -> blank c = false ->
  tokenize_from (S fuel) (mkLexer (ws ++ c :: r) p toks) =
  tokenize_from fuel (dispatch c (mkLexer (c :: r) (advance_over ws p) toks)).
Proof.
  intros ws c r p toks fuel W B. rewrite tokenize_from_step.
  cbn [rest place]. destruct (app_not_nil ws r c) as (y & l & E).
  rewrite E, <- E, skipWhitespace_app by exact W.
  rewrite skipWhitespace_stops by exact B. reflexivity.
Qed.

Lemma whole_input : forall (code tail : jsstring) p,
  length tail < length code ->
  kinds_texts (tokenize_from (length code) (mkLexer tail p [])) =
  kinds_texts (tokenize tail).
Proof.
  intros code tail p H. unfold tokenize, new_LexicalAnalyzer.
  rewrite (tokenize_from_fuel (length code) (S (length tail)))
    by (cbn [rest]; lia).
  apply tokenize_from_same. split; reflexivity.
Qed.

End Comments.

Lemma line_comment_step :
  forall ws text tail : jsstring,
    forallb blank ws = true ->
    on_one_line text = true ->
    at_line_end tail = true ->
    forall p toks fuel,
      tokenize_from (S fuel)
        (mkLexer (ws ++ lit "//" ++ text ++ tail) p toks) =
      tokenize_from fuel
        (mkLexer tail (advance_over (lit "//" ++ text) (advance_over ws p))
           toks).
Proof.
  intros ws text tail W H T p toks fuel.
  change (lit "//" ++ text ++ tail) with (SLASH :: SLASH :: text ++ tail).
  rewrite tokenize_from_blanks by (exact W || reflexivity).
  f_equal.
  change (dispatch SLASH
            (mkLexer (SLASH :: SLASH :: text ++ tail) (advance_over ws p)
               toks))
    with (skipped (mkLexer (SLASH :: SLASH :: text ++ tail)
                     (advance_over ws p) toks)
            (skipSingleLineComment ((SLASH :: SLASH :: text) ++ tail)
               (advance_over ws p))).
  rewrite skipSingleLineComment_app; [reflexivity| |exact T].
  exact H.
Qed.

Lemma block_comment_step :
  forall ws body tail : jsstring,
    forallb blank ws = true ->
    includes [STAR; SLASH] body = false ->
    forall p toks fuel,
      tokenize_from (S fuel)
        (mkLexer (ws ++ [SLASH; STAR] ++ body ++ [STAR; SLASH] ++ tail)
           p toks) =
      tokenize_from fuel
        (mkLexer tail
           (advance_over ([SLASH; STAR] ++ body ++ [STAR; SLASH])
              (advance_over ws p))
           toks).
Proof.
  intros ws body tail W H p toks fuel.
  change ([SLASH; STAR] ++ body ++ [STAR; SLASH] ++ tail)
    with (SLASH :: STAR :: body ++ STAR :: SLASH :: tail).
  rewrite tokenize_from_blanks by (exact W || reflexivity).
  f_equal.
  change (dispatch SLASH
            (mkLexer (SLASH :: STAR :: body ++ STAR :: SLASH :: tail)
               (advance_over ws p) toks))
    with (skipped (mkLexer (SLASH :: STAR :: body ++ STAR :: SLASH :: tail)
                     (advance_over ws p) toks)
            (skipMultiLineComment_loop (body ++ STAR :: SLASH :: tail)
               (advance STAR (advance SLASH (advance_over ws p))))).
  rewrite skipMultiLineComment_loop_app by exact H. reflexivity.
Qed.

(** When the loop of [tokenize] goes from the start of [code] to [tail]
    with no token pushed, the tokens of [code] are those of [tail], but
    for their places. *)
Lemma head_skipped : forall (code tail : jsstring) (after : Place -> Place),
  (length tail < length code)%nat ->
  (forall p toks fuel,
     tokenize_from (S fuel) (mkLexer code p toks) =
     tokenize_from fuel (mkLexer tail (after p) toks)) ->
  kinds_texts (tokenize code) = kinds_texts (tokenize tail).
Proof.
  intros code tail after L Step.
  unfold tokenize at 1, new_LexicalAnalyzer. rewrite Step.
  apply whole_input, L.
Qed.

(** X4.
    A line comment leaves no trace in the tokens.  When the loop of
    [tokenize] comes, over white space [ws] or none, to [//], with a text
    [text] without line feed after it and then the end of the line, then
    from any place and with any tokens pushed before it goes on at the end
    of that line with the same tokens; and the kinds and texts of the
    tokens of the whole input [ws ++ // ++ text ++ tail] are those of
    [tail]. *)
Theorem line_comment_is_skipped :
  forall ws text tail : jsstring,
    forallb blank ws = true ->
    on_one_line text = true ->
    at_line_end tail = true ->
    (forall p toks fuel,
       tokenize_from (S fuel)
         (mkLexer (ws ++ lit "//" ++ text ++ tail) p toks) =
       tokenize_from fuel
         (mkLexer tail (advance_over (lit "//" ++ text) (advance_over ws p))
            toks)) /\
    kinds_texts (tokenize (ws ++ lit "//" ++ text ++ tail)) =
    kinds_texts (tokenize tail).
Proof.
  intros ws text tail W H T.
  split; [apply line_comment_step; assumption|].
  apply (head_skipped _ tail
           (fun p => advance_over (lit "//" ++ text) (advance_over ws p))).
  - rewrite !length_app. simpl. lia.
  - apply line_comment_step; assumption.
Qed.

(** The comment of [x // note], and the line after it. *)
Lemma line_comment_is_skipped_witness :
  kinds_texts (tokenize (lit " // note" ++ [NL] ++ lit "x")) =
  kinds_texts (tokenize ([NL] ++ lit "x")).
Proof.
  apply (line_comment_is_skipped (lit " ") (lit " note") ([NL] ++ lit "x"));
    reflexivity.
Defined.

(** X5.
    A block comment that is closed leaves no trace in the tokens.  When
    the loop of [tokenize] comes, over white space [ws] or none, to the
    opener of a block comment, with a text [body] that does not hold the
    two units of the closer and then the closer, then from any place and
    with any tokens pushed before it goes on after the closer with the
    same tokens; and the kinds and texts of the tokens of the whole input
    are those of what follows the closer. *)
Theorem block_comment_is_skipped :
  forall ws body tail : jsstring,
    forallb blank ws = true ->
    includes [STAR; SLASH] body = false ->
    (forall p toks fuel,
       tokenize_from (S fuel)
         (mkLexer (ws ++ [SLASH; STAR] ++ body ++ [STAR; SLASH] ++ tail)
            p toks) =
       tokenize_from fuel
         (mkLexer tail
            (advance_over ([SLASH; STAR] ++ body ++ [STAR; SLASH])
               (advance_over ws p))
            toks)) /\
    kinds_texts
      (tokenize (ws ++ [SLASH; STAR] ++ body ++ [STAR; SLASH] ++ tail)) =
    kinds_texts (tokenize tail).
Proof.
  intros ws body tail W H.
  split; [apply block_comment_step; assumption|].
  apply (head_skipped _ tail
           (fun p => advance_over ([SLASH; STAR] ++ body ++ [STAR; SLASH])
                       (advance_over ws p))).
  - rewrite !length_app. simpl. lia.
  - apply block_comment_step; assumption.
Qed.

(** A comment of two lines between two statements. *)
Lemma block_comment_is_skipped_witness :
  let body := lit " one" ++ [NL] ++ lit " * two " in
  kinds_texts
    (tokenize (lit " " ++ [SLASH; STAR] ++ body ++ [STAR; SLASH]
               ++ lit " x = 1;")) =
  kinds_texts (tokenize (lit " x = 1;")).
Proof.
  apply (block_comment_is_skipped (lit " ")
           (lit " one" ++ [NL] ++ lit " * two ") (lit " x = 1;"));
    reflexivity.
Defined.

(* ================================================================== *)
(** * Literals that are closed *)
(* ================================================================== *)

Lemma advance_over_app : forall a b p,
  advance_over (a ++ b) p = advance_over b (advance_over a p).
Proof. intros. apply fold_left_app. Qed.

Lemma readQuoted_loop_closed : forall q n body tail p v,
  (length body <= n)%nat -> literal_text q body = true ->
  readQuoted_loop q (body ++ q :: tail) p v =
  (q :: tail, advance_over body p, v ++ body).
Proof.
  induction n as [|n IH]; intros body tail p v Hn Hc.
  - destruct body; [|simpl in Hn; lia]. simpl.
    now rewrite N.eqb_refl, app_nil_r.
  - destruct body as [|c r].
    { simpl. now rewrite N.eqb_refl, app_nil_r. }
    cbn [literal_text] in Hc. cbn [app readQuoted_loop].
    destruct (c =? q) eqn:Ec; [discriminate|]. cbn [negb].
    destruct r as [|c2 r2].
    + cbn [app]. apply negb_true_iff in Hc. rewrite Hc.
      pose proof (IH [] tail (advance c p) (v ++ [c])) as E.
      cbn [app] in E. rewrite E; [now rewrite app_nil_r|simpl; lia|reflexivity].
    + cbn [app]. destruct (c =? BACKSLASH).
      * rewrite (IH r2 tail (advance c2 (advance c p)) (v ++ [c; c2]));
          [|simpl in Hn; lia|exact Hc].
        now rewrite <- !app_assoc.
      * change (c2 :: r2 ++ q :: tail) with ((c2 :: r2) ++ q :: tail).
        rewrite (IH (c2 :: r2) tail (advance c p) (v ++ [c]));
          [|simpl in *; lia|exact Hc].
        now rewrite <- app_assoc.
Qed.

(** X6.
    A literal that is closed gives one STRING token with the text between
    its quotes, unchanged.  When the loop of [tokenize] comes, over white
    space [ws] or none, to a double quote or to a single quote, with a
    text [body] after it that the same quote closes, then from any place
    and with any tokens pushed before it pushes one token of the type
    STRING, for the two kinds of literal alike, whose text is [body] as it
    is written (a backslash and the unit after it are kept as they are),
    with the line and the column of the opening quote, and goes on after
    the closing quote. *)
Theorem closed_literal_gives_its_text :
  forall (q : char) (ws body tail : jsstring),
    q = QUOTE \/ q = APOSTROPHE ->
    forallb blank ws = true ->
    literal_text q body = true ->
    forall p toks fuel,
      let start := advance_over ws p in
      tokenize_from (S fuel) (mkLexer (ws ++ q :: body ++ q :: tail) p toks) =
      tokenize_from fuel
        (mkLexer tail (advance_over (q :: body ++ [q]) start)
           (toks ++ [tok STRING body (at_line start) (at_column start)])).
Proof.
  intros q ws body tail Hq W Hc p toks fuel. cbv zeta.
  rewrite tokenize_from_blanks by (exact W || (destruct Hq; now subst)).
  f_equal.
  assert (D : dispatch q (mkLexer (q :: body ++ q :: tail)
                            (advance_over ws p) toks) =
              pushed (mkLexer (q :: body ++ q :: tail) (advance_over ws p)
                        toks)
                (readQuoted q (q :: body ++ q :: tail) (advance_over ws p)))
    by (destruct Hq; subst; reflexivity).
  rewrite D. unfold readQuoted.
  rewrite (readQuoted_loop_closed q (length body) body tail _ [] (le_n _) Hc).
  cbn [pushed rest place tokens app].
  change (q :: body ++ [q]) with ([q] ++ body ++ [q]).
  rewrite !advance_over_app. reflexivity.
Qed.

(** A text with an escaped quote, after two tokens. *)
Lemma closed_literal_gives_its_text_witness :
  let before := [ tok IDENTIFIER (lit "s") 1 1; tok OPERATOR (lit "=") 1 3 ]
  in
  let body := lit "a\" ++ [QUOTE] ++ lit "b" in
  tokenize_from 3
    (mkLexer (lit " " ++ QUOTE :: body ++ QUOTE :: lit ";") (mkPlace 1 4)
       before) =
  tokenize_from 2
    (mkLexer (lit ";") (mkPlace 1 11)
       (before ++ [tok STRING body 1 5])).
Proof.
  exact (closed_literal_gives_its_text QUOTE (lit " ")
           (lit "a\" ++ [QUOTE] ++ lit "b") (lit ";") (or_introl eq_refl)
           eq_refl eq_refl (mkPlace 1 4)
           [ tok IDENTIFIER (lit "s") 1 1; tok OPERATOR (lit "=") 1 3 ] 2).
Defined.

(* ================================================================== *)
(** * The text of the tokens *)
(* ================================================================== *)

Section TextOfTokens.

Local Open Scope nat_scope.

Lemma streq_eq : forall a b, streq a b = true -> a = b.
Proof.
  induction a as [|x a IH]; intros [|y b] H; try discriminate; [reflexivity|].
  simpl in H. apply andb_prop in H as [Hx H]. apply N.eqb_eq in Hx.
  now rewrite Hx, (IH b H).
Qed.

(** What holds of the texts of a table holds of a text found in it. *)
Lemma text_of_table : forall (P : jsstring -> bool) l v,
  forallb (fun s => P (lit s)) l = true ->
  existsb (is_text (Some v)) l = true -> P v = true.
Proof.
  induction l as [|s l IH]; intros v H E; [discriminate|].
  simpl in H, E. apply andb_prop in H as [Hs H].
  apply orb_prop in E as [E|E]; [|apply (IH v H E)].
  apply streq_eq in E. now rewrite E.
Qed.

Lemma unit_of_text : forall (P : char -> bool) text c,
  forallb P (lit text) = true -> includes_char text c = true -> P c = true.
Proof.
  intros P text c. unfold includes_char.
  induction (lit text) as [|x l IH]; intros H E; [discriminate|].
  simpl in H, E. apply andb_prop in H as [Hx H].
  apply orb_prop in E as [E|E]; [|apply (IH H E)].
  apply N.eqb_eq in E. now rewrite E.
Qed.

Lemma word_not_blank : forall c,
  isLetter c || isDigit c || (c =? UNDERSCORE)%N = true -> blank c = false.
Proof.
  intros c H.
  assert (R : (48 <= c <= 122)%N).
  { unfold isLetter, isDigit, UNDERSCORE in H.
    repeat match goal with
           | H : context [(?a <=? ?b)%N] |- _ => destruct (N.leb_spec a b)
           | H : context [(?a =? ?b)%N] |- _ => destruct (N.eqb_spec a b)
           end; simpl in H; try discriminate; lia. }
  unfold blank, isSpace, NL.
  repeat match goal with
         | |- context [(?a <=? ?b)%N] =>
             first [ replace (a <=? b)%N with true
                       by (symmetry; apply N.leb_le; lia)
                   | replace (a <=? b)%N with false
                       by (symmetry; apply N.leb_gt; lia) ]
         | |- context [(?a =? ?b)%N] =>
             replace (a =? b)%N with false
               by (symmetry; apply N.eqb_neq; lia)
         end.
  reflexivity.
Qed.

Lemma digit_or_dot_not_blank : forall c,
  isDigit c || (c =? DOT)%N = true -> blank c = false.
Proof.
  intros c H. apply orb_prop in H as [H|H].
  - apply word_not_blank. rewrite H. now destruct (isLetter c).
  - apply N.eqb_eq in H. now subst c.
Qed.

Lemma kept : forall v,
  forallb (fun c => negb (blank c)) v = true -> without_blanks v = v.
Proof.
  induction v as [|c v IH]; intros H; [reflexivity|].
  simpl in H. apply andb_prop in H as [Hc H]. unfold without_blanks.
  simpl. rewrite Hc. f_equal. apply IH, H.
Qed.

Lemma readIdentifier_loop_text : forall r p v,
  let out := readIdentifier_loop r p v in
  exists w, snd out = v ++ w /\ w ++ fst (fst out) = r /\
            without_blanks w = w.
Proof.
  induction r as [|c r IH]; intros p v; cbn zeta.
  - exists []. simpl. now rewrite app_nil_r.
  - simpl.
    destruct (isLetter c || isDigit c || (c =? UNDERSCORE)%N) eqn:E.
    + destruct (IH (advance c p) (v ++ [c])) as (w & Ew & Er & Eb).
      exists (c :: w). rewrite Ew, <- app_assoc. simpl. rewrite Er.
      repeat split. unfold without_blanks. simpl.
      rewrite (word_not_blank c E). simpl. f_equal. exact Eb.
    + exists []. simpl. now rewrite app_nil_r.
Qed.

Lemma readNumber_loop_text : forall r p d v,
  let out := readNumber_loop r p d v in
  exists w, snd out = v ++ w /\ w ++ fst (fst out) = r /\
            without_blanks w = w.
Proof.
  induction r as [|c r IH]; intros p d v; cbn zeta.
  - exists []. simpl. now rewrite app_nil_r.
  - simpl.
    destruct (isDigit c || ((c =? DOT)%N && negb d)) eqn:E.
    + destruct (IH (advance c p) (if (c =? DOT)%N then true else d)
                  (v ++ [c])) as (w & Ew & Er & Eb).
      exists (c :: w). rewrite Ew, <- app_assoc. simpl. rewrite Er.
      repeat split. unfold without_blanks. simpl.
      rewrite (digit_or_dot_not_blank c). 
      * simpl. f_equal. exact Eb.
      * destruct (isDigit c), (c =? DOT)%N; simpl in *; congruence.
    + exists []. simpl. now rewrite app_nil_r.
Qed.

Lemma readIdentifier_keeps_text : forall s p,
  keeps_text s (readIdentifier s p).
Proof.
  intros s p. unfold readIdentifier.
  destruct (readIdentifier_loop_text s p []) as (w & Ew & Er & Eb).
  destruct (readIdentifier_loop s p []) as [[r' p'] v].
  cbn [fst snd app] in *. subst v. exists w. repeat split; assumption.
Qed.

Lemma readNumber_keeps_text : forall s p, keeps_text s (readNumber s p).
Proof.
  intros s p. unfold readNumber.
  destruct (readNumber_loop_text s p false []) as (w & Ew & Er & Eb).
  destruct (readNumber_loop s p false []) as [[r' p'] v].
  cbn [fst snd app] in *. subst v. exists w. repeat split; assumption.
Qed.

Lemma readOperator_keeps_text : forall c r p,
  isOperator c = true -> keeps_text (c :: r) (readOperator c r p).
Proof.
  intros c r p H.
  assert (B : negb (blank c) = true).
  { unfold isOperator in H.
    refine (unit_of_text (fun c => negb (blank c)) _ c _ H). reflexivity. }
  unfold readOperator. destruct r as [|next r2].
  - exists [c]. repeat split. apply kept. simpl. now rewrite B.
  - destruct (existsb (is_text (Some [c; next])) twoCharOperators) eqn:E.
    + exists [c; next]. repeat split. apply kept.
      apply (text_of_table (forallb (fun c => negb (blank c)))
               twoCharOperators); [reflexivity|exact E].
    + exists [c]. repeat split. apply kept. simpl. now rewrite B.
Qed.

Lemma readDelimiter_keeps_text : forall c r p,
  isDelimiter c = true -> keeps_text (c :: r) (readDelimiter c r p).
Proof.
  intros c r p H.
  assert (B : negb (blank c) = true).
  { unfold isDelimiter in H.
    refine (unit_of_text (fun c => negb (blank c)) _ c _ H). reflexivity. }
  exists [c]. repeat split. apply kept. simpl. now rewrite B.
Qed.

Lemma skipWhitespace_blanks : forall r p,
  exists ws, r = ws ++ fst (skipWhitespace r p) /\ forallb blank ws = true.
Proof.
  induction r as [|c r IH]; intros p; [exists []; split; reflexivity|].
  simpl. fold (blank c). destruct (blank c) eqn:B.
  - destruct (IH (advance c p)) as (ws & E & W). exists (c :: ws).
    split; [simpl; now rewrite <- E|simpl; now rewrite B].
  - exists []. split; reflexivity.
Qed.

Lemma skipWhitespace_head : forall r p c r',
  fst (skipWhitespace r p) = c :: r' -> blank c = false.
Proof.
  induction r as [|x r IH]; intros p c r' H; [discriminate|].
  simpl in H. fold (blank x) in H. destruct (blank x) eqn:B.
  - apply (IH _ _ _ H).
  - injection H as <- _. exact B.
Qed.

Lemma without_blanks_app : forall a b,
  without_blanks (a ++ b) = without_blanks a ++ without_blanks b.
Proof. intros. apply filter_app. Qed.

Lemma without_blanks_blanks : forall ws,
  forallb blank ws = true -> without_blanks ws = [].
Proof.
  induction ws as [|w ws IH]; intros H; [reflexivity|].
  simpl in H. apply andb_prop in H as [Hw H]. unfold without_blanks.
  simpl. rewrite Hw. apply IH, H.
Qed.

Lemma texts_app : forall a b, texts (a ++ b) = texts a ++ texts b.
Proof. intros. apply flat_map_app. Qed.

Lemma includes_app_r : forall sub pre s,
  includes sub (pre ++ s) = false -> includes sub s = false.
Proof.
  induction pre as [|c pre IH]; intros s H; [exact H|].
  apply IH, (includes_tail _ c), H.
Qed.

Variable code : jsstring.
Hypothesis code_plain : forallb plain code = true.
Hypothesis no_line_comment : includes [SLASH; SLASH] code = false.
Hypothesis no_block_comment : includes [SLASH; STAR] code = false.

Lemma pushed_text : forall st out,
  text_kept code st -> keeps_text (rest st) out ->
  text_kept code (pushed st out).
Proof.
  intros st [[r' p'] t] (pre & E & T) (v & Hv & Hr & Hb).
  cbn [fst snd] in *. exists (pre ++ v). cbn [pushed rest tokens]. split.
  - rewrite <- app_assoc, Hr. exact E.
  - rewrite texts_app, without_blanks_app, T, Hb. unfold texts. simpl.
    now rewrite Hv, app_nil_r.
Qed.

Lemma plain_rest : forall st c r,
  text_kept code st -> rest st = c :: r ->
  plain c = true /\
  starts_with [SLASH; SLASH] (c :: r) = false /\
  starts_with [SLASH; STAR] (c :: r) = false.
Proof.
  intros st c r (pre & E & _) Hr. rewrite Hr in E.
  pose proof code_plain as P. rewrite E, forallb_app in P.
  apply andb_prop in P as [_ P]. simpl in P. apply andb_prop in P as [Pc Pr].
  pose proof no_line_comment as L. rewrite E in L.
  apply includes_app_r in L. cbn [includes] in L.
  apply orb_false_elim in L as [L _].
  pose proof no_block_comment as B. rewrite E in B.
  apply includes_app_r in B. cbn [includes] in B.
  apply orb_false_elim in B as [B _].
  auto.
Qed.

Lemma no_opener : forall c r x,
  starts_with [SLASH; x] (c :: r) = false ->
  (c =? SLASH)%N && peek_is (c :: r) x = false.
Proof.
  intros c r x H. unfold peek_is, peek. destruct r as [|c2 r2]; simpl.
  - apply andb_false_r.
  - simpl in H. rewrite andb_true_r in H.
    now rewrite (N.eqb_sym c), (N.eqb_sym c2).
Qed.

Lemma dispatch_text : forall c r st,
  rest st = c :: r -> blank c = false ->
  text_kept code st -> text_kept code (dispatch c st).
Proof.
  intros c r st Hr B I.
  destruct (plain_rest st c r I Hr) as (P & L1 & L2).
  unfold dispatch. rewrite Hr.
  rewrite (no_opener c r SLASH L1), (no_opener c r STAR L2).
  destruct (isLetter c || (c =? UNDERSCORE)%N) eqn:E3.
  { apply pushed_text; [exact I|rewrite Hr; apply readIdentifier_keeps_text]. }
  destruct (isDigit c) eqn:E4.
  { apply pushed_text; [exact I|rewrite Hr; apply readNumber_keeps_text]. }
  destruct (c =? QUOTE)%N eqn:E5.
  { apply N.eqb_eq in E5. subst c. discriminate P. }
  destruct (c =? APOSTROPHE)%N eqn:E6.
  { apply N.eqb_eq in E6. subst c. discriminate P. }
  destruct (isOperator c) eqn:E7.
  { apply pushed_text;
      [exact I|rewrite Hr; apply readOperator_keeps_text, E7]. }
  destruct (isDelimiter c) eqn:E8.
  { apply pushed_text;
      [exact I|rewrite Hr; apply readDelimiter_keeps_text, E8]. }
  destruct (c =? NL)%N eqn:E9.
  - apply N.eqb_eq in E9. subst c.
    apply (pushed_text st (r, advance NL (place st),
                           tok NEWLINE [NL] (at_line (place st))
                             (at_column (place st)))); [exact I|].
    exists [NL]. rewrite Hr. repeat split.
  - exfalso. unfold plain in P. unfold blank in B.
    rewrite E9, E8, E7, E4 in *.
    destruct (isSpace c), (isLetter c), (c =? UNDERSCORE)%N;
      simpl in *; discriminate.
Qed.

Lemma tokenize_loop_text : forall fuel st st',
  text_kept code st -> tokenize_loop fuel st = Some st' ->
  text_kept code st'.
Proof.
  induction fuel as [|fuel IH]; intros st st' I H; [discriminate|].
  rewrite tokenize_loop_step in H.
  destruct (rest st) as [|c0 r0] eqn:Hr; [injection H as <-; exact I|].
  cbv zeta in H.
  assert (I1 : text_kept code
                 (skipped st (skipWhitespace (c0 :: r0) (place st)))).
  { destruct I as (pre & E & T).
    destruct (skipWhitespace_blanks (c0 :: r0) (place st)) as (ws & Ew & W).
    exists (pre ++ ws). cbn [skipped rest tokens]. split.
    - rewrite <- app_assoc, <- Ew, <- Hr. exact E.
    - rewrite without_blanks_app, (without_blanks_blanks ws W), app_nil_r.
      exact T. }
  destruct (rest (skipped st (skipWhitespace (c0 :: r0) (place st))))
    as [|c r] eqn:Hr1; [injection H as <-; exact I1|].
  refine (IH _ _ (dispatch_text c r _ Hr1 _ I1) H).
  apply (skipWhitespace_head _ _ _ _ Hr1).
Qed.

End TextOfTokens.

(** X7.
    Nothing is lost of a text that has no quote, no comment and no unit
    the tokenizer has no use for: the texts of its tokens, one after the
    other, are the text without the white space other than line feeds. *)
Theorem token_texts_restore_the_source : forall code : jsstring,
  forallb plain code = true ->
  includes [SLASH; SLASH] code = false ->
  includes [SLASH; STAR] code = false ->
  exists toks,
    tokenize code = Some toks /\ texts toks = without_blanks code.
Proof.
  intros code P L B. unfold tokenize, tokenize_from.
  destruct (tokenize_loop_total (S (length code)) (new_LexicalAnalyzer code))
    as (st' & E & R & _); [simpl; lia|constructor|].
  rewrite E. exists (tokens st' ++ [eof_token]). split; [reflexivity|].
  assert (I : text_kept code (new_LexicalAnalyzer code))
    by (exists []; split; reflexivity).
  destruct (tokenize_loop_text code P L B _ _ st' I E) as (pre & Ec & T).
  rewrite R, app_nil_r in Ec. subst pre.
  rewrite texts_app, T. apply app_nil_r.
Qed.

Lemma token_texts_restore_the_source_witness :
  exists toks,
    tokenize (lit "x1 = 3.5 / y;" ++ [NL] ++ lit "y += 2") = Some toks /\
    texts toks = lit "x1=3.5/y;" ++ [NL] ++ lit "y+=2".
Proof.
  apply (token_texts_restore_the_source
           (lit "x1 = 3.5 / y;" ++ [NL] ++ lit "y += 2")); reflexivity.
Defined.

(* ================================================================== *)
(** * The places of the tokens *)
(* ================================================================== *)

Section PlacesOfTokens.

Local Open Scope nat_scope.

Lemma skips_there_refl : forall s p, skips_there s p (s, p).
Proof. intros s p. exists []. split; reflexivity. Qed.

Lemma skips_there_step : forall c r p out,
  skips_there r (advance c p) out -> skips_there (c :: r) p out.
Proof.
  intros c r p out (moved & E & P). exists (c :: moved).
  split; [simpl; now rewrite <- E|exact P].
Qed.

Lemma skipSingleLineComment_there : forall r p,
  skips_there r p (skipSingleLineComment r p).
Proof.
  induction r as [|c r IH]; intros p; simpl; [apply skips_there_refl|].
  destruct (negb (c =? NL)%N); [|apply skips_there_refl].
  apply skips_there_step, IH.
Qed.

Lemma skipWhitespace_there : forall r p,
  skips_there r p (skipWhitespace r p).
Proof.
  induction r as [|c r IH]; intros p; simpl; [apply skips_there_refl|].
  destruct (isSpace c && negb (c =? NL)%N); [|apply skips_there_refl].
  apply skips_there_step, IH.
Qed.

Lemma skipMultiLineComment_loop_there : forall n r p,
  length r <= n -> skips_there r p (skipMultiLineComment_loop r p).
Proof.
  induction n as [|n IH]; intros r p Hn.
  - destruct r; [apply skips_there_refl|simpl in Hn; lia].
  - destruct r as [|c [|c2 r2]]; try apply skips_there_refl.
    rewrite skipMultiLineComment_loop_step.
    destruct ((c =? STAR)%N && (c2 =? SLASH)%N).
    + exists [c; c2]. split; reflexivity.
    + apply skips_there_step, IH. simpl in *. lia.
Qed.

Lemma readIdentifier_loop_there : forall r p v,
  let out := readIdentifier_loop r p v in
  exists w, snd out = v ++ w /\ r = w ++ fst (fst out) /\
            snd (fst out) = advance_over w p.
Proof.
  induction r as [|c r IH]; intros p v; cbn zeta.
  - exists []. simpl. now rewrite app_nil_r.
  - simpl.
    destruct (isLetter c || isDigit c || (c =? UNDERSCORE)%N).
    + destruct (IH (advance c p) (v ++ [c])) as (w & Ew & Er & Ep).
      exists (c :: w). rewrite Ew, <- app_assoc. simpl. rewrite <- Er.
      repeat split. exact Ep.
    + exists []. simpl. now rewrite app_nil_r.
Qed.

Lemma readNumber_loop_there : forall r p d v,
  let out := readNumber_loop r p d v in
  exists w, snd out = v ++ w /\ r = w ++ fst (fst out) /\
            snd (fst out) = advance_over w p.
Proof.
  induction r as [|c r IH]; intros p d v; cbn zeta.
  - exists []. simpl. now rewrite app_nil_r.
  - simpl.
    destruct (isDigit c || ((c =? DOT)%N && negb d)).
    + destruct (IH (advance c p) (if (c =? DOT)%N then true else d)
                  (v ++ [c])) as (w & Ew & Er & Ep).
      exists (c :: w). rewrite Ew, <- app_assoc. simpl. rewrite <- Er.
      repeat split. exact Ep.
    + exists []. simpl. now rewrite app_nil_r.
Qed.

Lemma readQuoted_loop_there : forall q n r p v,
  length r <= n ->
  let out := readQuoted_loop q r p v in
  exists w, snd out = v ++ w /\ r = w ++ fst (fst out) /\
            snd (fst out) = advance_over w p.
Proof.
  induction n as [|n IH]; intros r p v Hn; cbn zeta.
  - destruct r; [|simpl in Hn; lia]. exists []. simpl.
    now rewrite app_nil_r.
  - destruct r as [|c r]; [exists []; simpl; now rewrite app_nil_r|].
    cbn [readQuoted_loop].
    destruct (negb (c =? q)%N);
      [|exists []; simpl; now rewrite app_nil_r].
    destruct r as [|c2 r2].
    + exists [c]. simpl. repeat split.
    + destruct (c =? BACKSLASH)%N.
      * destruct (IH r2 (advance c2 (advance c p)) (v ++ [c] ++ [c2]))
          as (w & Ew & Er & Ep); [simpl in Hn; lia|].
        exists (c :: c2 :: w). split; [|split].
        -- rewrite Ew, <- !app_assoc. reflexivity.
        -- cbn [app]. do 2 f_equal. exact Er.
        -- exact Ep.
      * destruct (IH (c2 :: r2) (advance c p) (v ++ [c]))
          as (w & Ew & Er & Ep); [simpl in *; lia|].
        exists (c :: w). split; [|split].
        -- rewrite Ew, <- !app_assoc. reflexivity.
        -- cbn [app]. f_equal. exact Er.
        -- exact Ep.
Qed.

Lemma token_place_tok : forall ty v p,
  token_place (tok ty v (at_line p) (at_column p)) = Some p.
Proof. intros ty v [l c]. reflexivity. Qed.

Ltac there :=
  cbn [fst snd];
  split; [first [reflexivity | assumption]|];
  split; [first [reflexivity | assumption]|];
  split; [apply token_place_tok|];
  split; [reflexivity|]; left; now rewrite ?app_nil_r.

Lemma readIdentifier_there : forall s p,
  reads_there s p (readIdentifier s p).
Proof.
  intros s p. unfold readIdentifier.
  destruct (readIdentifier_loop_there s p []) as (w & Ew & Er & Ep).
  destruct (readIdentifier_loop s p []) as [[r' p'] v].
  cbn [fst snd app] in *. subst v.
  exists w, w, []. there.
Qed.

Lemma readNumber_there : forall s p, reads_there s p (readNumber s p).
Proof.
  intros s p. unfold readNumber.
  destruct (readNumber_loop_there s p false []) as (w & Ew & Er & Ep).
  destruct (readNumber_loop s p false []) as [[r' p'] v].
  cbn [fst snd app] in *. subst v.
  exists w, w, []. there.
Qed.

Lemma readQuoted_there : forall q c r p,
  reads_there (c :: r) p (readQuoted q (c :: r) p).
Proof.
  intros q c r p. unfold readQuoted.
  destruct (readQuoted_loop_there q (length r) r (advance c p) [] (le_n _))
    as (w & Ew & Er & Ep).
  destruct (readQuoted_loop q r (advance c p) []) as [[r' p'] v].
  cbn [fst snd app] in *. subst v.
  destruct r' as [|close r'].
  - exists (c :: w), w, []. cbn [fst snd]. rewrite app_nil_r in *.
    subst r. split; [reflexivity|]. split; [exact Ep|].
    split; [apply token_place_tok|]. split; [reflexivity|].
    right. split; [reflexivity|]. exists c. now rewrite app_nil_r.
  - exists (c :: w ++ [close]), w, [close]. cbn [fst snd].
    split; [|split; [|split; [apply token_place_tok|split; [reflexivity|]]]].
    + rewrite Er. cbn [app]. now rewrite <- app_assoc.
    + rewrite Ep. unfold advance_over. cbn [fold_left].
      now rewrite fold_left_app.
    + right. split; [reflexivity|]. exists c. reflexivity.
Qed.

Lemma readOperator_there : forall c r p,
  reads_there (c :: r) p (readOperator c r p).
Proof.
  intros c r p. unfold readOperator. destruct r as [|next r2].
  - exists [c], [c], []. there.
  - destruct (existsb (is_text (Some [c; next])) twoCharOperators).
    + exists [c; next], [c; next], []. there.
    + exists [c], [c], []. there.
Qed.

Lemma readDelimiter_there : forall c r p,
  reads_there (c :: r) p (readDelimiter c r p).
Proof.
  intros c r p. exists [c], [c], []. there.
Qed.

Lemma place_after_app : forall a b,
  place_after (a ++ b) = advance_over b (place_after a).
Proof. intros. apply fold_left_app. Qed.

Variable code : jsstring.

Lemma pushed_there : forall st out,
  on_place code st -> reads_there (rest st) (place st) out ->
  on_place code (pushed st out).
Proof.
  intros st [[r' p'] t] (pre & E & P & T)
    (moved & v & post & Er & Ep & Et & Ev & Hv).
  cbn [fst snd] in *. exists (pre ++ moved).
  cbn [pushed rest place tokens]. split; [|split].
  - rewrite <- app_assoc, <- Er. exact E.
  - rewrite place_after_app, <- P. exact Ep.
  - apply Forall_app. split; [exact T|]. constructor; [|constructor].
    exists pre, v. rewrite Et, P.
    destruct Hv as [->|(Hs & q & ->)].
    + exists (post ++ r'). repeat split; [exact Ev|]. left.
      rewrite E, Er, <- !app_assoc. reflexivity.
    + exists (post ++ r'). repeat split; [exact Ev|]. right.
      split; [exact Hs|]. exists q.
      rewrite E, Er. cbn [app]. now rewrite <- !app_assoc.
Qed.

Lemma skipped_there : forall st out,
  on_place code st -> skips_there (rest st) (place st) out ->
  on_place code (skipped st out).
Proof.
  intros st [r' p'] (pre & E & P & T) (moved & Er & Ep).
  cbn [fst snd] in *. exists (pre ++ moved).
  cbn [skipped fst snd rest place tokens]. split; [|split].
  - rewrite <- app_assoc, <- Er. exact E.
  - rewrite place_after_app, <- P. exact Ep.
  - exact T.
Qed.

Lemma dispatch_there : forall c r st,
  rest st = c :: r -> on_place code st -> on_place code (dispatch c st).
Proof.
  intros c r st Hr I. unfold dispatch. rewrite Hr.
  destruct ((c =? SLASH)%N && peek_is (c :: r) SLASH).
  { apply skipped_there; [exact I|].
    rewrite Hr. apply skipSingleLineComment_there. }
  destruct ((c =? SLASH)%N && peek_is (c :: r) STAR) eqn:E2.
  { apply andb_prop in E2 as [_ Ep].
    destruct r as [|c2 r2]; [discriminate|].
    apply skipped_there; [exact I|]. rewrite Hr.
    unfold skipMultiLineComment.
    apply skips_there_step, skips_there_step.
    apply (skipMultiLineComment_loop_there (length r2)), le_n. }
  destruct (isLetter c || (c =? UNDERSCORE)%N).
  { apply pushed_there; [exact I|rewrite Hr; apply readIdentifier_there]. }
  destruct (isDigit c).
  { apply pushed_there; [exact I|rewrite Hr; apply readNumber_there]. }
  destruct (c =? QUOTE)%N.
  { apply pushed_there; [exact I|rewrite Hr; apply readQuoted_there]. }
  destruct (c =? APOSTROPHE)%N.
  { apply pushed_there; [exact I|rewrite Hr; apply readQuoted_there]. }
  destruct (isOperator c).
  { apply pushed_there; [exact I|rewrite Hr; apply readOperator_there]. }
  destruct (isDelimiter c).
  { apply pushed_there; [exact I|rewrite Hr; apply readDelimiter_there]. }
  destruct (c =? NL)%N eqn:E9.
  - apply N.eqb_eq in E9. subst c.
    apply (pushed_there st (r, advance NL (place st),
                            tok NEWLINE [NL] (at_line (place st))
                              (at_column (place st)))); [exact I|].
    rewrite Hr. exists [NL], [NL], []. there.
  - apply (skipped_there st (r, advance c (place st))); [exact I|].
    rewrite Hr. exists [c]. split; reflexivity.
Qed.

Lemma tokenize_loop_there : forall fuel st st',
  on_place code st -> tokenize_loop fuel st = Some st' ->
  on_place code st'.
Proof.
  induction fuel as [|fuel IH]; intros st st' I H; [discriminate|].
  rewrite tokenize_loop_step in H.
  destruct (rest st) as [|c0 r0] eqn:Hr; [injection H as <-; exact I|].
  cbv zeta in H.
  assert (I1 : on_place code
                 (skipped st (skipWhitespace (c0 :: r0) (place st)))).
  { apply skipped_there; [exact I|]. rewrite Hr.
    apply skipWhitespace_there. }
  destruct (rest (skipped st (skipWhitespace (c0 :: r0) (place st))))
    as [|c r] eqn:Hr1; [injection H as <-; exact I1|].
  apply (IH _ _ (dispatch_there c r _ Hr1 I1) H).
Qed.

End PlacesOfTokens.

Lemma last_line_no_feed : forall s,
  existsb (N.eqb NL) s = false -> last_line s = s.
Proof.
  intros [|c r] H; [reflexivity|]. cbn [existsb last_line] in *.
  apply orb_false_elim in H as [Hc Hr]. rewrite Hr.
  rewrite N.eqb_sym in Hc. now rewrite Hc.
Qed.

Lemma last_line_snoc : forall s c,
  last_line (s ++ [c]) = if (c =? NL)%N then [] else last_line s ++ [c].
Proof.
  induction s as [|x s IH]; intros c.
  - cbn [app last_line existsb]. destruct (c =? NL)%N; reflexivity.
  - cbn [app last_line]. rewrite existsb_app. cbn [existsb].
    unfold char in *. rewrite orb_false_r, (N.eqb_sym NL c).
    destruct (c =? NL)%N eqn:Ec.
    + rewrite orb_true_r. rewrite IH, Ec. reflexivity.
    + rewrite orb_false_r. destruct (existsb (N.eqb NL) s) eqn:Es.
      * rewrite IH, Ec. reflexivity.
      * destruct (x =? NL)%N; reflexivity.
Qed.

(** X8.
    The places count lines and columns from 1.  The place after a text
    at the start of the input is on the line whose number is one more
    than the number of line feeds in the text, at the column whose number
    is one more than the number of units after the last of them. *)
Theorem place_counts_lines_and_columns : forall pre : jsstring,
  at_line (place_after pre) = S (count_occ N.eq_dec pre NL) /\
  at_column (place_after pre) = S (length (last_line pre)).
Proof.
  induction pre as [|c pre IH] using rev_ind; [split; reflexivity|].
  rewrite place_after_app. destruct IH as [Il Ic].
  rewrite count_occ_app, last_line_snoc. cbn [advance_over fold_left].
  unfold advance. cbn [count_occ].
  destruct (c =? NL)%N eqn:E.
  - apply N.eqb_eq in E. subst c. cbn [at_line at_column length].
    destruct (N.eq_dec NL NL) as [_|N]; [|now destruct N].
    split; [now rewrite Il, Nat.add_1_r|reflexivity].
  - apply N.eqb_neq in E. cbn [at_line at_column].
    destruct (N.eq_dec c NL) as [N|_]; [now destruct E|].
    split; [now rewrite Il, Nat.add_0_r|].
    now rewrite Ic, length_app, Nat.add_1_r.
Qed.

(** X9.
    Every token is where it says it is.  Whatever the input, every token
    before the end-of-input token carries the place of a unit of the
    input, the place after the text [pre] before that unit, and the text
    of the token is the text of the input from there on; for a STRING
    token, from after the quote that is there. *)
Theorem tokens_are_at_their_places : forall code : jsstring,
  exists body,
    tokenize code = Some (body ++ [eof_token]) /\
    Forall (located code) body.
Proof.
  intros code. unfold tokenize, tokenize_from.
  destruct (tokenize_loop_total (S (length code)) (new_LexicalAnalyzer code))
    as (st' & E & _); [simpl; lia|constructor|].
  rewrite E. exists (tokens st'). split; [reflexivity|].
  assert (I : on_place code (new_LexicalAnalyzer code)).
  { exists []. repeat split. constructor. }
  destruct (tokenize_loop_there code _ _ st' I E) as (pre & _ & _ & T).
  exact T.
Qed.

(* ================================================================== *)
(** * The shape of the trees of the parser *)
(* ================================================================== *)

Section ShapeOfTrees.

Variable tokens : list Token.
Variable named : option jsstring -> bool.

(** The names are those of the IDENTIFIER tokens, at least. *)
Hypothesis identifiers_named : forall t,
  In t tokens -> TokenType_eqb (type t) IDENTIFIER = true ->
  named (value t) = true.

Lemma named_at : forall pos t,
  getCurrentToken tokens pos = Some t ->
  TokenType_eqb (type t) IDENTIFIER = true -> named (value t) = true.
Proof.
  intros pos t E H. apply identifiers_named; [|exact H].
  apply (getCurrentToken_Some _ _ _ E).
Qed.

Lemma identifier_at_here : forall pos t,
  getCurrentToken tokens pos = Some t ->
  TokenType_eqb (type t) IDENTIFIER = true -> identifier_at tokens pos = true.
Proof. intros pos t E H. unfold identifier_at. now rewrite E. Qed.

Lemma expression_statement : forall n,
  expression named n = true -> statement named n = true.
Proof. intros n H. destruct n; try discriminate; exact H. Qed.

Lemma opt_expression_statement : forall o,
  opt_all (expression named) o = true -> opt_all (statement named) o = true.
Proof. intros [n|] H; [apply expression_statement, H|reflexivity]. Qed.

Lemma gives_expression_statement : forall r,
  gives (opt_all (expression named)) r -> gives (opt_all (statement named)) r.
Proof.
  intros [a p| |] H; try exact I. apply opt_expression_statement, H.
Qed.

Lemma forallb_push_if : forall f l o,
  forallb f l = true -> opt_all f o = true -> forallb f (push_if l o) = true.
Proof.
  intros f l [n|] H Ho; [|exact H]. simpl. rewrite forallb_app, H. simpl.
  simpl in Ho. now rewrite Ho.
Qed.

Lemma body_of_shaped : forall b,
  statement named b = true ->
  forallb (statement named) (body_of (Some b)) = true.
Proof. intros b H. destruct b; try reflexivity. exact H. Qed.

Lemma operators_binary : forall lv v,
  one_of (operators_of lv) v = true -> one_of binaryOperators v = true.
Proof.
  intros lv v H. unfold one_of, binaryOperators in *.
  apply existsb_exists in H as (s & Hin & Hs).
  apply existsb_exists. exists s. split; [|exact Hs].
  apply in_flat_map. exists lv. split; [|exact Hin].
  destruct lv; simpl; auto 10.
Qed.

Lemma parseInclude_shaped : forall pos,
  gives (opt_all (statement named)) (parseInclude tokens pos).
Proof.
  intros pos. unfold parseInclude.
  repeat match goal with
         | |- context [match getCurrentToken tokens ?p with _ => _ end] =>
             destruct (getCurrentToken tokens p)
         | |- context [if ?c then _ else _] => destruct c
         end; reflexivity.
Qed.

Lemma parseFunction_params_shaped : forall fuel params pos,
  forallb (parameter named) params = true ->
  gives (forallb (parameter named))
    (parseFunction_params tokens fuel params pos).
Proof.
  induction fuel as [|fuel IH]; intros params pos H; [exact I|].
  cbn [parseFunction_params].
  destruct (getCurrentToken tokens pos) as [t|] eqn:E; [|exact H].
  destruct (is_text (value t) ")"); [exact H|].
  destruct (is_text (value t) ","); [apply IH, H|].
  destruct (TokenType_eqb (type t) KEYWORD && one_of typeKeywords (value t))
    eqn:Ek; [|apply IH, H].
  destruct (value t) as [paramType|] eqn:Ev; [|apply IH, H].
  destruct (getCurrentToken tokens (S pos)) as [t2|] eqn:E2; [|apply IH, H].
  destruct (TokenType_eqb (type t2) IDENTIFIER) eqn:Ei; [|apply IH, H].
  apply IH. rewrite forallb_app, H. apply andb_prop in Ek as [_ Ek].
  unfold parameter. cbn [forallb param_type param_name].
  now rewrite Ek, (named_at _ _ E2 Ei).
Qed.

(** The case analysis of a method body on the tokens it looks at. *)
Ltac look :=
  match goal with
  | |- context [match getCurrentToken tokens ?p with _ => _ end] =>
      let E := fresh "E" in destruct (getCurrentToken tokens p) eqn:E
  | |- context [if ?c then _ else _] =>
      let E := fresh "E" in destruct c eqn:E
  | |- context [match value ?t with _ => _ end] =>
      let E := fresh "E" in destruct (value t) eqn:E
  end.

(** One conjunct of the shape of the tree that is returned. *)
Ltac atom :=
  first
    [ reflexivity
    | assumption
    | apply opt_expression_statement; assumption
    | apply expression_statement; assumption
    | eapply named_at; eassumption
    | apply body_of_shaped; assumption
    | eapply operators_binary; eassumption
    | apply forallb_push_if;
        first [assumption | apply opt_expression_statement; assumption]
    | match goal with
      | E : value ?t = Some ?v |- context [Some ?v] =>
          rewrite <- E; first [assumption | eapply operators_binary;
                                            eassumption]
      end
    | match goal with
      | E : _ && _ = true |- _ =>
          apply andb_prop in E; destruct E; eapply named_at; eassumption
      end ].

(** The shape of a tree. *)
Ltac shape :=
  cbn [opt_all statement expression forallb literal_shape];
  repeat (apply andb_true_intro; split); atom.

(** The end of a path through a method body. *)
Ltac finish := cbn [gives bind]; first [exact I | shape].

(** What the induction hypothesis [Hn] says of the call [r]. *)
Ltac known Hn r P :=
  lazymatch r with
  | parseStatement _ _ ?p => pose proof (shaped_statement _ _ _ Hn p) as P
  | parseDeclarationOrFunction _ _ ?p =>
      pose proof (shaped_declaration _ _ _ Hn p) as P
  | parseFunction _ _ ?a ?b ?p =>
      pose proof (shaped_function _ _ _ Hn a b p ltac:(shape)) as P
  | parseBlock _ _ ?p => pose proof (shaped_block _ _ _ Hn p) as P
  | parseBlock_loop _ _ ?a ?p =>
      pose proof (shaped_block_loop _ _ _ Hn a p ltac:(shape)) as P
  | parseVariable _ _ ?a ?b ?p =>
      pose proof (shaped_variable _ _ _ Hn a b p ltac:(shape)) as P
  | parseIfStatement _ _ ?p => pose proof (shaped_if _ _ _ Hn p) as P
  | parseWhileStatement _ _ ?p => pose proof (shaped_while _ _ _ Hn p) as P
  | parseForStatement _ _ ?p => pose proof (shaped_for _ _ _ Hn p) as P
  | parseReturnStatement _ _ ?p => pose proof (shaped_return _ _ _ Hn p) as P
  | parsePrintfStatement _ _ ?p => pose proof (shaped_printf _ _ _ Hn p) as P
  | parseScanfStatement _ _ ?p => pose proof (shaped_scanf _ _ _ Hn p) as P
  | parseArguments _ _ ?a ?p =>
      pose proof (shaped_arguments _ _ _ Hn a p ltac:(shape)) as P
  | parseAssignmentOrFunctionCall _ _ ?p =>
      pose proof (shaped_assignment _ _ _ Hn p
                    ltac:(eapply identifier_at_here; eassumption)) as P
  | parseExpression _ _ ?p => pose proof (shaped_expression _ _ _ Hn p) as P
  | parseBinary _ _ ?lv ?p => pose proof (shaped_binary _ _ _ Hn lv p) as P
  | parseBinary_loop _ _ ?lv ?a ?p =>
      pose proof (shaped_binary_loop _ _ _ Hn lv a p ltac:(shape)) as P
  | parsePrimaryExpression _ _ ?p =>
      pose proof (shaped_primary _ _ _ Hn p) as P
  | parseFunction_params _ ?n ?a ?p =>
      pose proof (parseFunction_params_shaped n a p eq_refl) as P
  end.

(** The next call of the method body; the proof goes on when it
    returns, with what is known of the value. *)
Ltac call Hn :=
  let P := fresh "P" in
  lazymatch goal with
  | |- context [bind ?r _] =>
      known Hn r P; destruct r;
      cbn [gives bind] in P |- *; [ | exact I | exact I ]
  | |- gives _ ?r =>
      known Hn r P;
      first [exact P | apply gives_expression_statement; exact P]
  end.

Ltac walk Hn :=
  repeat first [ progress cbn [bind] | look | call Hn ]; try finish.

Lemma all_shaped_holds : forall fuel, all_shaped tokens named fuel.
Proof.
  induction fuel as [fuel IH] using lt_wf_ind.
  destruct fuel as [|n].
  { constructor; intros; exact I. }
  pose proof (IH n (Nat.lt_succ_diag_r n)) as Hn.
  constructor.
  - (* parseStatement *)
    intros pos. cbn [parseStatement].
    look; [|finish].
    look; [finish|].
    look; [apply parseInclude_shaped|].
    walk Hn.
  - (* parseDeclarationOrFunction *)
    intros pos. cbn [parseDeclarationOrFunction]. walk Hn.
  - (* parseFunction *)
    intros rt nm pos L. cbn [parseFunction]. walk Hn.
  - (* parseBlock *)
    intros pos. cbn [parseBlock]. walk Hn.
  - (* parseBlock_loop *)
    intros sts pos L. cbn [parseBlock_loop]. walk Hn.
  - (* parseVariable *)
    intros vt nm pos L. cbn [parseVariable]. walk Hn.
  - (* parseIfStatement *)
    intros pos. cbn [parseIfStatement]. walk Hn.
  - (* parseWhileStatement *)
    intros pos. cbn [parseWhileStatement]. walk Hn.
  - (* parseForStatement *)
    intros pos. cbn [parseForStatement]. walk Hn.
  - (* parseReturnStatement *)
    intros pos. cbn [parseReturnStatement]. walk Hn.
  - (* parsePrintfStatement *)
    intros pos. cbn [parsePrintfStatement]. walk Hn.
  - (* parseScanfStatement *)
    intros pos. cbn [parseScanfStatement]. walk Hn.
  - (* parseArguments *)
    intros args pos L. cbn [parseArguments]. walk Hn.
  - (* parseAssignmentOrFunctionCall *)
    intros pos L. cbn [parseAssignmentOrFunctionCall Nat.pred].
    unfold identifier_at in L.
    destruct (getCurrentToken tokens pos) as [t|] eqn:E; [|finish].
    walk Hn.
  - (* parseExpression *)
    intros pos. cbn [parseExpression]. walk Hn.
  - (* parseBinary *)
    intros lv pos. cbn [parseBinary]. destruct lv; walk Hn.
  - (* parseBinary_loop *)
    intros lv lhs pos L. cbn [parseBinary_loop]. destruct lv; walk Hn.
  - (* parsePrimaryExpression *)
    intros pos. cbn [parsePrimaryExpression Nat.pred].
    destruct (getCurrentToken tokens pos) as [t|] eqn:E; [|finish].
    destruct (TokenType_eqb (type t) NUMBER).
    { destruct (value t) as [lexeme|]; [|exact I].
      cbn [gives opt_all expression literal_shape].
      destruct (existsb (N.eqb DOT) lexeme); reflexivity. }
    destruct (TokenType_eqb (type t) STRING); [finish|].
    destruct (TokenType_eqb (type t) IDENTIFIER) eqn:Ei; [|walk Hn].
    destruct (current_is tokens (S pos) "(") eqn:Ec; [|finish].
    destruct n as [|n']; [exact I|].
    rewrite (assignment_call_branch tokens n' pos t E Ec).
    pose proof (IH n' ltac:(lia)) as Hn'. walk Hn'.
Qed.

End ShapeOfTrees.

Lemma parse_loop_shaped : forall tokens named,
  (forall t, In t tokens -> TokenType_eqb (type t) IDENTIFIER = true ->
             named (value t) = true) ->
  forall fuel body pos,
    forallb (statement named) body = true ->
    gives (forallb (statement named)) (parse_loop tokens fuel body pos).
Proof.
  intros tokens named Hnamed.
  induction fuel as [|n IH]; intros body pos H; [exact I|].
  cbn [parse_loop].
  destruct (getCurrentToken tokens pos) as [t|]; [|exact H].
  destruct (negb (TokenType_eqb (type t) EOF)); [|exact H].
  pose proof (shaped_statement tokens named n
                (all_shaped_holds tokens named Hnamed n) pos) as P.
  destruct (parseStatement tokens n pos) as [node pos'| |];
    cbn [gives bind] in P |- *; try exact I.
  apply IH, forallb_push_if; assumption.
Qed.

Lemma streq_refl : forall a, streq a a = true.
Proof.
  induction a as [|x a IH]; [reflexivity|]. simpl.
  now rewrite N.eqb_refl, IH.
Qed.

Lemma identifiers_of_tokens : forall toks t,
  In t (without_newlines toks) ->
  TokenType_eqb (type t) IDENTIFIER = true ->
  is_identifier toks (value t) = true.
Proof.
  intros toks t Hin Hty. apply existsb_exists. exists t.
  apply filter_In in Hin as [Hin _]. split; [exact Hin|].
  rewrite Hty. destruct (value t); [apply streq_refl|reflexivity].
Qed.

Lemma parse_shaped : forall toks named ast pos,
  (forall t, In t (without_newlines toks) ->
             TokenType_eqb (type t) IDENTIFIER = true ->
             named (value t) = true) ->
  parse toks = Ok ast pos ->
  exists body, ast = mkAST (lit "Program") (ArrayOf body) /\
               forallb (statement named) body = true.
Proof.
  intros toks named ast pos Hnamed H. unfold parse, parse_with in H.
  pose proof (parse_loop_shaped (without_newlines toks) named Hnamed
                (parse_budget (without_newlines toks)) [] 0 eq_refl) as P.
  destruct (parse_loop (without_newlines toks) _ [] 0) as [body p| |];
    try discriminate.
  cbn [bind] in H. injection H as <- _. exists body. split; [reflexivity|].
  exact P.
Qed.

(** X10.
    The trees of the parser have the shape of the grammar.  For every
    token list, when [parse] returns, every node of the body of the
    program is the tree of a statement: a field for an expression holds
    the tree of an expression (a call, a binary expression with an
    operator of the six levels, an address-of expression, a literal with
    the data type of its token, an identifier) or [null]; a field for a
    statement holds the tree of a statement or [null]; the operator of an
    assignment is an assignment operator; the type of a parameter is a type
    keyword; and every name of a function, a parameter, a variable or a
    call is the text of an IDENTIFIER token of the list. *)
Theorem parse_gives_the_trees_of_the_grammar : forall toks : list Token,
  match parse toks with
  | Ok ast _ =>
      exists body, ast = mkAST (lit "Program") (ArrayOf body) /\
                   forallb (statement (is_identifier toks)) body = true
  | TypeError => exists t, In t toks /\ type t = NUMBER /\ value t = None
  | OutOfFuel => False
  end.
Proof.
  intros toks. pose proof (parse_outcome toks) as O.
  destruct (parse toks) as [ast pos| |] eqn:E; [|exact O..].
  apply (parse_shaped toks _ ast pos); [|exact E].
  apply identifiers_of_tokens.
Qed.

Lemma lexed_identifier : forall t,
  lexed t -> TokenType_eqb (type t) IDENTIFIER = true ->
  identifier_name (value t) = true.
Proof.
  intros t (ty & v & l & c & -> & Hl & _) Hty. simpl in *.
  destruct ty; try discriminate. exact Hl.
Qed.

Lemma source_shaped : forall code,
  exists body pos,
    parse_source code = Ok (mkAST (lit "Program") (ArrayOf body)) pos /\
    forallb (statement identifier_name) body = true.
Proof.
  intros code. unfold parse_source.
  destruct (tokenize_invariant code) as (st & E & I). rewrite E.
  pose proof (parse_outcome (tokens st ++ [eof_token])) as O.
  destruct (parse (tokens st ++ [eof_token])) as [ast pos| |] eqn:Ep.
  - destruct (parse_shaped (tokens st ++ [eof_token]) identifier_name ast pos)
      as (body & -> & H);
      [|exact Ep|exists body, pos; split; [reflexivity|exact H]].
    intros t Hin Hty. apply filter_In in Hin as [Hin _].
    apply in_app_or in Hin as [Hin|[<-|[]]]; [|discriminate].
    apply lexed_identifier; [|exact Hty].
    destruct I as [_ Il _ _ _]. rewrite Forall_forall in Il. apply Il, Hin.
  - exfalso. destruct O as (t & Hin & Hty & Hv).
    apply in_app_or in Hin as [Hin|[<-|[]]]; [|discriminate].
    destruct I as [_ Il _ _ _]. rewrite Forall_forall in Il.
    destruct (Il t Hin) as (ty & v & l & c & -> & _). discriminate.
  - destruct O.
Qed.

(** X11.
    From a source text, the tree of the grammar with the names of the
    language.  For every text, [tokenize] returns tokens and [parse]
    returns for them: a program whose body has at most as many nodes as
    there are tokens and holds trees of statements in which every name, of
    a function, a parameter, a variable or a call, is a word (a letter or
    an underscore, then letters, digits and underscores) that is no
    keyword. *)
Theorem source_gives_the_trees_of_the_grammar : forall code : jsstring,
  exists toks body pos,
    tokenize code = Some toks /\
    parse toks = Ok (mkAST (lit "Program") (ArrayOf body)) pos /\
    (length body <= length toks)%nat /\
    forallb (statement identifier_name) body = true.
Proof.
  intros code. destruct (source_shaped code) as (body & pos & E & S).
  unfold parse_source in E.
  destruct (tokenize code) as [toks|]; [|discriminate].
  exists toks, body, pos. split; [reflexivity|]. split; [exact E|].
  split; [|exact S].
  pose proof (parse_outcome toks) as O. rewrite E in O.
  destruct O as (body' & Eb & L). injection Eb as <-. exact L.
Qed.

Section NoMain.

Variable float_text : jsstring -> jsstring.
Variable float_truthy : jsstring -> bool.
Variable inherited : jsstring -> option jsstring.
Variable named : option jsstring -> bool.
Hypothesis main_not_named : named (Some (lit "main")) = false.

Lemma is_text_eq : forall v s, is_text v s = true -> v = Some (lit s).
Proof.
  intros [x|] s H; [|discriminate]. apply streq_eq in H. now subst.
Qed.

Lemma not_main : forall rt name ps b,
  statement named (Function_ rt name ps b) = true ->
  is_text name "main" = false.
Proof.
  intros rt name ps b H. destruct (is_text name "main") eqn:E; [|reflexivity].
  apply is_text_eq in E. subst name. cbn [statement] in H.
  rewrite main_not_named in H. discriminate.
Qed.

Lemma generateJava_loop_no_main : forall body c h,
  forallb (statement named) body = true ->
  snd (generateJava_loop float_text float_truthy inherited body c h) = h.
Proof.
  induction body as [|node body IH]; intros c h H; [reflexivity|].
  cbn [forallb] in H. apply andb_prop in H as [Hn H].
  cbn [generateJava_loop].
  assert (E : snd (generateJava_node float_text float_truthy inherited node)
              = false).
  { destruct node; try reflexivity. cbn [generateJava_node].
    now rewrite (not_main _ _ _ _ Hn). }
  destruct (generateJava_node float_text float_truthy inherited node)
    as [code isMain].
  cbn [snd] in E. subst isMain. rewrite IH by exact H. apply orb_false_r.
Qed.

Lemma generatePython_loop_no_main : forall body c h,
  forallb (statement named) body = true ->
  snd (generatePython_loop float_text float_truthy inherited body c h) = h.
Proof.
  induction body as [|node body IH]; intros c h H; [reflexivity|].
  cbn [forallb] in H. apply andb_prop in H as [Hn H].
  cbn [generatePython_loop].
  assert (E : snd (generatePython_node float_text float_truthy inherited node)
              = false).
  { destruct node; try reflexivity. cbn [generatePython_node].
    now rewrite (not_main _ _ _ _ Hn). }
  destruct (generatePython_node float_text float_truthy inherited node)
    as [code isMain].
  cbn [snd] in E. subst isMain. rewrite IH by exact H. apply orb_false_r.
Qed.

End NoMain.

(** X12.
    No source text gives a function [main].  The tokenizer makes [main]
    a KEYWORD token and the parser takes the name of a function from an
    IDENTIFIER token; so for every text, no node of the program that
    tokenizing and parsing returns is a function of the name [main], and
    both generators return what their loop has put together: the generator
    for Java without the import and the class [Main] around it, the
    generator for Python without the call of [main] after it. *)
Theorem source_never_gives_main :
  forall (float_text : jsstring -> jsstring)
         (float_truthy : jsstring -> bool)
         (inherited : jsstring -> option jsstring) (code : jsstring),
  exists body pos,
    parse_source code = Ok (mkAST (lit "Program") (ArrayOf body)) pos /\
    Forall (fun node => forall rt ps b,
              node <> Function_ rt (Some (lit "main")) ps b) body /\
    generateJava float_text float_truthy inherited
      (mkAST (lit "Program") (ArrayOf body)) =
    fst (generateJava_loop float_text float_truthy inherited body
           (Returns []) false) /\
    generatePython float_text float_truthy inherited
      (mkAST (lit "Program") (ArrayOf body)) =
    fst (generatePython_loop float_text float_truthy inherited body
           (Returns []) false).
Proof.
  intros float_text float_truthy inherited code.
  destruct (source_shaped code) as (body & pos & E & H).
  exists body, pos. split; [exact E|]. split; [|split].
  - apply Forall_forall. intros node Hin rt ps b ->.
    rewrite forallb_forall in H. specialize (H _ Hin). discriminate H.
  - unfold generateJava. cbn [ast_body].
    pose proof (generateJava_loop_no_main float_text float_truthy inherited
                  identifier_name eq_refl body (Returns []) false H) as M.
    destruct (generateJava_loop float_text float_truthy inherited body
                (Returns []) false) as [c h].
    cbn [fst snd] in *. now subst h.
  - unfold generatePython. cbn [ast_body].
    pose proof (generatePython_loop_no_main float_text float_truthy inherited
                  identifier_name eq_refl body (Returns []) false H) as M.
    destruct (generatePython_loop float_text float_truthy inherited body
                (Returns []) false) as [c h].
    cbn [fst snd] in *. now subst h.
Qed.

(* ================================================================== *)
(** * What the parser reads of the tokens *)
(* ================================================================== *)

Section ParserReadsKindsAndTexts.

Variable tokens : list Token.

Lemma getCurrentToken_strip : forall pos,
  getCurrentToken (map strip tokens) pos =
  option_map strip (getCurrentToken tokens pos).
Proof. intros pos. unfold getCurrentToken. apply nth_error_map. Qed.

Lemma skipToken_strip : forall s pos,
  skipToken (map strip tokens) s pos = skipToken tokens s pos.
Proof.
  intros s pos. unfold skipToken. rewrite getCurrentToken_strip.
  destruct (getCurrentToken tokens pos); reflexivity.
Qed.

Lemma current_is_strip : forall pos s,
  current_is (map strip tokens) pos s = current_is tokens pos s.
Proof.
  intros pos s. unfold current_is. rewrite getCurrentToken_strip.
  destruct (getCurrentToken tokens pos); reflexivity.
Qed.

Ltac same_tokens :=
  repeat first
    [ rewrite getCurrentToken_strip
    | rewrite skipToken_strip
    | rewrite current_is_strip
    | progress cbn [option_map strip type value bind] ].

Lemma parseInclude_strip : forall pos,
  parseInclude (map strip tokens) pos = parseInclude tokens pos.
Proof.
  intros pos. unfold parseInclude.
  repeat (same_tokens;
          match goal with
          | |- context [match getCurrentToken tokens ?p with _ => _ end] =>
              destruct (getCurrentToken tokens p)
          | |- context [if ?c then _ else _] => destruct c
          end); same_tokens; reflexivity.
Qed.

Lemma parseFunction_params_strip : forall fuel params pos,
  parseFunction_params (map strip tokens) fuel params pos =
  parseFunction_params tokens fuel params pos.
Proof.
  induction fuel as [|fuel IH]; intros params pos; [reflexivity|].
  cbn [parseFunction_params].
  repeat (same_tokens; rewrite ?IH;
          match goal with
          | |- context [match getCurrentToken tokens ?p with _ => _ end] =>
              destruct (getCurrentToken tokens p)
          | |- context [if ?c then _ else _] => destruct c
          | |- context [match value ?t with _ => _ end] =>
              destruct (value t)
          end); same_tokens; rewrite ?IH; reflexivity.
Qed.

(** One step through a method body, on both sides. *)
Ltac step Hn :=
  same_tokens;
  rewrite ?parseInclude_strip, ?parseFunction_params_strip,
    ?(same_statement _ _ Hn), ?(same_declaration _ _ Hn),
    ?(same_function _ _ Hn), ?(same_block _ _ Hn),
    ?(same_block_loop _ _ Hn), ?(same_variable _ _ Hn),
    ?(same_if _ _ Hn), ?(same_while _ _ Hn), ?(same_for _ _ Hn),
    ?(same_return _ _ Hn), ?(same_printf _ _ Hn), ?(same_scanf _ _ Hn),
    ?(same_arguments _ _ Hn), ?(same_assignment _ _ Hn),
    ?(same_expression _ _ Hn), ?(same_binary _ _ Hn),
    ?(same_binary_loop _ _ Hn), ?(same_primary _ _ Hn).

Ltac open_next :=
  match goal with
  | |- context [match getCurrentToken tokens ?p with _ => _ end] =>
      destruct (getCurrentToken tokens p)
  | |- context [if ?c then _ else _] => destruct c
  | |- context [match value ?t with _ => _ end] =>
      destruct (value t)
  | |- bind ?r _ = _ => destruct r
  end.

Ltac both Hn := repeat (step Hn; try reflexivity; open_next); step Hn;
                try reflexivity.

Lemma all_same_holds : forall fuel, all_same tokens fuel.
Proof.
  induction fuel as [|n Hn].
  { constructor; intros; reflexivity. }
  constructor.
  - intros pos. cbn [parseStatement]. both Hn.
  - intros pos. cbn [parseDeclarationOrFunction]. both Hn.
  - intros rt nm pos. cbn [parseFunction]. both Hn.
  - intros pos. cbn [parseBlock]. both Hn.
  - intros sts pos. cbn [parseBlock_loop]. both Hn.
  - intros vt nm pos. cbn [parseVariable]. both Hn.
  - intros pos. cbn [parseIfStatement]. both Hn.
  - intros pos. cbn [parseWhileStatement]. both Hn.
  - intros pos. cbn [parseForStatement]. both Hn.
  - intros pos. cbn [parseReturnStatement]. both Hn.
  - intros pos. cbn [parsePrintfStatement]. both Hn.
  - intros pos. cbn [parseScanfStatement]. both Hn.
  - intros args pos. cbn [parseArguments]. both Hn.
  - intros pos. cbn [parseAssignmentOrFunctionCall]. both Hn.
  - intros pos. cbn [parseExpression]. both Hn.
  - intros lv pos. cbn [parseBinary]. destruct lv; both Hn.
  - intros lv lhs pos. cbn [parseBinary_loop]. destruct lv; both Hn.
  - intros pos. cbn [parsePrimaryExpression]. both Hn.
Qed.

Lemma parse_loop_strip : forall fuel body pos,
  parse_loop (map strip tokens) fuel body pos =
  parse_loop tokens fuel body pos.
Proof.
  induction fuel as [|n IH]; intros body pos; [reflexivity|].
  cbn [parse_loop]. rewrite getCurrentToken_strip.
  destruct (getCurrentToken tokens pos) as [t|]; [|reflexivity].
  cbn [option_map strip type].
  destruct (negb (TokenType_eqb (type t) EOF)); [|reflexivity].
  rewrite (same_statement _ _ (all_same_holds n)).
  destruct (parseStatement tokens n pos); try reflexivity.
  cbn [bind]. apply IH.
Qed.

End ParserReadsKindsAndTexts.

Lemma without_newlines_strip : forall toks,
  without_newlines (map strip toks) = map strip (without_newlines toks).
Proof.
  induction toks as [|t toks IH]; [reflexivity|].
  cbn [map without_newlines filter]. fold (without_newlines toks).
  fold (without_newlines (map strip toks)). rewrite IH.
  cbn [strip type]. destruct (negb (TokenType_eqb (type t) NEWLINE));
    reflexivity.
Qed.

Lemma parse_strip : forall toks, parse (map strip toks) = parse toks.
Proof.
  intros toks. unfold parse, parse_with, parse_budget.
  rewrite without_newlines_strip, length_map, parse_loop_strip.
  reflexivity.
Qed.

Lemma strip_of_kinds : forall a b,
  map kind_text a = map kind_text b -> map strip a = map strip b.
Proof.
  intros a b H.
  assert (E : forall l, map strip l =
                        map (fun k => mkToken (fst k) (snd k) None None)
                          (map kind_text l)).
  { intros l. rewrite map_map. reflexivity. }
  now rewrite (E a), (E b), H.
Qed.

Lemma parse_of_kinds : forall a b,
  map kind_text a = map kind_text b -> parse a = parse b.
Proof.
  intros a b H. rewrite <- (parse_strip a), <- (parse_strip b).
  now rewrite (strip_of_kinds a b H).
Qed.

(** X13.
    The parser reads the kinds and the texts of the tokens only.  Two
    token lists with the same kinds and texts, whatever their lines and
    columns, give the same outcome of [parse]; and two source texts whose
    tokens have the same kinds and texts give the same outcome of
    tokenizing and parsing. *)
Theorem tree_depends_on_kinds_and_texts :
  (forall a b : list Token,
     map kind_text a = map kind_text b -> parse a = parse b) /\
  (forall a b : jsstring,
     kinds_texts (tokenize a) = kinds_texts (tokenize b) ->
     parse_source a = parse_source b).
Proof.
  split; [exact parse_of_kinds|].
  intros a b H. unfold parse_source.
  destruct (tokenize a) as [ta|], (tokenize b) as [tb|];
    try discriminate H; [|reflexivity].
  apply parse_of_kinds. injection H as H. exact H.
Qed.

Lemma tree_depends_on_kinds_and_texts_witness :
  parse [ tok IDENTIFIER (lit "x") 1 1; tok DELIMITER (lit ";") 1 2 ] =
  parse [ tok IDENTIFIER (lit "x") 7 3; tok DELIMITER (lit ";") 9 1 ] /\
  parse_source (lit "x = 1;") = parse_source (lit "  x=1 ;").
Proof.
  split.
  - apply (proj1 tree_depends_on_kinds_and_texts). reflexivity.
  - apply (proj2 tree_depends_on_kinds_and_texts). reflexivity.
Defined.




(* ================================================================== *)
(** * An include directive *)
(* ================================================================== *)

Lemma type_keyword_text : forall v,
  one_of typeKeywords v = true ->
  is_text v "(" = false /\ is_text v "&" = false.
Proof.
  intros [v|] H; [|discriminate].
  pose proof (text_of_table
                (fun s => negb (streq s (lit "(")) && negb (streq s (lit "&")))
                typeKeywords v eq_refl H) as P.
  apply andb_prop in P as [P1 P2].
  apply negb_true_iff in P1, P2. split; assumption.
Qed.

Lemma no_operator_at_level : forall lv v,
  one_of binaryOperators v = false -> one_of (operators_of lv) v = false.
Proof.
  intros lv v H. destruct (one_of (operators_of lv) v) eqn:E; [|reflexivity].
  apply operators_binary in E. congruence.
Qed.

Section OneStep.

Variable tokens : list Token.

Lemma parse_loop_S : forall n body pos,
  parse_loop tokens (S n) body pos =
  ltac:(let t := eval cbn [parse_loop] in (parse_loop tokens (S n) body pos)
        in exact t).
Proof. reflexivity. Qed.

Lemma parseStatement_S : forall n pos,
  parseStatement tokens (S n) pos =
  ltac:(let t := eval cbn [parseStatement] in (parseStatement tokens (S n) pos)
        in exact t).
Proof. reflexivity. Qed.

Lemma parseAssignmentOrFunctionCall_S : forall n pos,
  parseAssignmentOrFunctionCall tokens (S n) pos =
  ltac:(let t := eval cbn [parseAssignmentOrFunctionCall] in
                 (parseAssignmentOrFunctionCall tokens (S n) pos)
        in exact t).
Proof. reflexivity. Qed.

Lemma parseExpression_S : forall n pos,
  parseExpression tokens (S n) pos = parseBinary tokens n LOr pos.
Proof. reflexivity. Qed.

Lemma parseBinary_S : forall n lv pos,
  parseBinary tokens (S n) lv pos =
  ltac:(let t := eval cbn [parseBinary] in (parseBinary tokens (S n) lv pos)
        in exact t).
Proof. reflexivity. Qed.

Lemma parseBinary_loop_S : forall n lv lhs pos,
  parseBinary_loop tokens (S n) lv lhs pos =
  ltac:(let t := eval cbn [parseBinary_loop] in
                 (parseBinary_loop tokens (S n) lv lhs pos)
        in exact t).
Proof. reflexivity. Qed.

Lemma parsePrimaryExpression_S : forall n pos,
  parsePrimaryExpression tokens (S n) pos =
  ltac:(let t := eval cbn [parsePrimaryExpression] in
                 (parsePrimaryExpression tokens (S n) pos)
        in exact t).
Proof. reflexivity. Qed.

End OneStep.

Ltac run G0 G1 G2 G3 G5 G6 G7 G8 K1 K2 N1 N2 N3 N4 N5 N6 :=
  repeat
    (first [ rewrite parseStatement_S
           | rewrite parseAssignmentOrFunctionCall_S
           | rewrite parseExpression_S | rewrite parseBinary_S
           | rewrite parseBinary_loop_S | rewrite parsePrimaryExpression_S ];
     unfold parseInclude, current_is, skipToken;
     repeat
       (progress
          (rewrite ?G0, ?G1, ?G2, ?G3, ?G5, ?G6, ?G7, ?G8, ?K1, ?K2, ?N1,
             ?N2, ?N3, ?N4, ?N5, ?N6;
           cbn [type value TokenType_eqb negb andb orb bind Nat.pred push_if
                app];
           repeat match goal with
                  | |- context [is_text (Some (lit ?a)) ?b] =>
                      let r :=
                        eval vm_compute in (is_text (Some (lit a)) b) in
                      change (is_text (Some (lit a)) b) with r
                  | |- context [is_str (Some (lit ?a)) ?b] =>
                      let r :=
                        eval vm_compute in (is_str (Some (lit a)) b) in
                      change (is_str (Some (lit a)) b) with r
                  | |- context [one_of ?l (Some (lit ?a))] =>
                      let r :=
                        eval vm_compute in (one_of l (Some (lit a))) in
                      change (one_of l (Some (lit a))) with r
                  end))).

(** X15.
    An include directive with a header name of two words swallows the
    token after it.  [parseInclude] moves the cursor two tokens past the
    name of the library, to the second word of [name.ext]; the statement
    that [parseStatement] reads there is the expression [ext > ...],
    whose right operand is looked for at the token after the directive;
    [parsePrimaryExpression] finds a type keyword there, returns [null]
    and moves past it.  So for every token list that starts with such a
    directive, a type keyword and a token that is no binary operator, the
    loop of [parse] goes on after the type keyword, with the two nodes
    [Include] and [BinaryExpression]: the type keyword of the first
    declaration is in no node. *)
Theorem include_swallows_the_next_token :
  forall (library extension : option jsstring) (l1 c1 l2 c2 l3 c3 l4 c4
          l6 c6 l7 c7 l8 c8 : option nat) (dot next : Token)
         (swallowed : option jsstring) (rest : list Token) (fuel : nat),
    one_of typeKeywords swallowed = true ->
    one_of binaryOperators (value next) = false ->
    let tokens :=
      [ mkToken DELIMITER (Some (lit "#")) l1 c1;
        mkToken KEYWORD (Some (lit "include")) l2 c2;
        mkToken OPERATOR (Some (lit "<")) l3 c3;
        mkToken IDENTIFIER library l4 c4;
        dot;
        mkToken IDENTIFIER extension l6 c6;
        mkToken OPERATOR (Some (lit ">")) l7 c7;
        mkToken KEYWORD swallowed l8 c8;
        next ] ++ rest in
    parse_loop tokens (20 + fuel) [] 0 =
    parse_loop tokens (18 + fuel)
      [ Include library;
        BinaryExpression (Some (Identifier extension)) (lit ">") None ] 8.
Proof.
  intros library extension l1 c1 l2 c2 l3 c3 l4 c4 l6 c6 l7 c7 l8 c8
    dot next swallowed rest fuel K N tokens.
  destruct (type_keyword_text swallowed K) as [K1 K2].
  pose proof (fun lv => no_operator_at_level lv _ N) as NL.
  pose proof (NL LOr) as N1. pose proof (NL LAnd) as N2.
  pose proof (NL LEquality) as N3. pose proof (NL LRelational) as N4.
  pose proof (NL LAdditive) as N5. pose proof (NL LMultiplicative) as N6.
  assert (G0 : getCurrentToken tokens 0 =
               Some (mkToken DELIMITER (Some (lit "#")) l1 c1))
    by reflexivity.
  assert (G1 : getCurrentToken tokens 1 =
               Some (mkToken KEYWORD (Some (lit "include")) l2 c2))
    by reflexivity.
  assert (G2 : getCurrentToken tokens 2 =
               Some (mkToken OPERATOR (Some (lit "<")) l3 c3))
    by reflexivity.
  assert (G3 : getCurrentToken tokens 3 =
               Some (mkToken IDENTIFIER library l4 c4)) by reflexivity.
  assert (G5 : getCurrentToken tokens 5 =
               Some (mkToken IDENTIFIER extension l6 c6)) by reflexivity.
  assert (G6 : getCurrentToken tokens 6 =
               Some (mkToken OPERATOR (Some (lit ">")) l7 c7))
    by reflexivity.
  assert (G7 : getCurrentToken tokens 7 =
               Some (mkToken KEYWORD swallowed l8 c8)) by reflexivity.
  assert (G8 : getCurrentToken tokens 8 = Some next) by reflexivity.
  clearbody tokens.
  assert (S1 : forall n, parseStatement tokens (S n) 0 =
                         Ok (Some (Include library)) 5).
  { intros n. run G0 G1 G2 G3 G5 G6 G7 G8 K1 K2 N1 N2 N3 N4 N5 N6.
    reflexivity. }
  assert (S2 : parseStatement tokens (18 + fuel) 5 =
               Ok (Some (BinaryExpression (Some (Identifier extension))
                           (lit ">") None)) 8).
  { cbn [Nat.add]. run G0 G1 G2 G3 G5 G6 G7 G8 K1 K2 N1 N2 N3 N4 N5 N6.
    reflexivity. }
  change (20 + fuel)%nat with (S (S (18 + fuel))).
  generalize dependent (18 + fuel)%nat. intros m S2.
  rewrite parse_loop_S, G0. cbn [type TokenType_eqb negb].
  rewrite S1. cbn [bind push_if app].
  rewrite parse_loop_S, G5. cbn [type TokenType_eqb negb].
  rewrite S2. reflexivity.
Qed.

(** The tokens of [#include <stdio.h>] and [int x = 5;], and the tree of
    that text. *)
Lemma include_swallows_the_next_token_witness :
  let tokens :=
    [ mkToken DELIMITER (Some (lit "#")) None None;
      mkToken KEYWORD (Some (lit "include")) None None;
      mkToken OPERATOR (Some (lit "<")) None None;
      mkToken IDENTIFIER (Some (lit "stdio")) None None;
      mkToken DELIMITER (Some (lit ".")) None None;
      mkToken IDENTIFIER (Some (lit "h")) None None;
      mkToken OPERATOR (Some (lit ">")) None None;
      mkToken KEYWORD (Some (lit "int")) None None;
      mkToken IDENTIFIER (Some (lit "x")) None None ] ++ [] in
  parse_loop tokens (20 + 0) [] 0 =
  parse_loop tokens (18 + 0)
    [ Include (Some (lit "stdio"));
      BinaryExpression (Some (Identifier (Some (lit "h")))) (lit ">") None ]
    8 /\
  parse_source (lit "#include <stdio.h>" ++ [NL] ++ lit "int x = 5;") =
  Ok (mkAST (lit "Program")
        (ArrayOf
           [ Include (Some (lit "stdio"));
             BinaryExpression (Some (Identifier (Some (lit "h")))) (lit ">")
               None;
             Assignment (Some (lit "x")) (lit "=")
               (Some (Literal (NumberOf (lit "5")) (lit "int"))) ]))
     12.
Proof.
  split; [|vm_compute; reflexivity].
  exact (include_swallows_the_next_token (Some (lit "stdio"))
           (Some (lit "h")) None None None None None None None None None
           None None None None None
           (mkToken DELIMITER (Some (lit ".")) None None)
           (mkToken IDENTIFIER (Some (lit "x")) None None)
           (Some (lit "int")) [] 0%nat eq_refl eq_refl).
Defined.

(* ================================================================== *)
(** * The nesting of binary expressions *)
(* ================================================================== *)

(** X16.
    Binary operators nest by their level, and to the left within a
    level.  For the five tokens [a op1 b op2 c], with identifiers of any
    names and operators of the six levels of [parseExpression]: when the
    level of [op2] comes later in the chain of the methods than the level
    of [op1] (as the level of [*] does after that of [+]), the tree is
    [a op1 (b op2 c)]; in every other case, that of two operators of one
    level among them, it is [(a op1 b) op2 c]. *)
Theorem binary_operators_nest_by_level :
  forall (lv1 lv2 : Level) (op1 op2 : string) (a b c : option jsstring),
    In op1 (operators_of lv1) ->
    In op2 (operators_of lv2) ->
    parse [ identifier_token a; operator_token op1; identifier_token b;
            operator_token op2; identifier_token c ] =
    Ok (mkAST (lit "Program")
          (ArrayOf
             [ if Nat.ltb (level_index lv1) (level_index lv2)
               then BinaryExpression (Some (Identifier a)) (lit op1)
                      (Some (BinaryExpression (Some (Identifier b)) (lit op2)
                               (Some (Identifier c))))
               else BinaryExpression
                      (Some (BinaryExpression (Some (Identifier a)) (lit op1)
                               (Some (Identifier b))))
                      (lit op2) (Some (Identifier c)) ]))
       5.
Proof.
  intros lv1 lv2 op1 op2 a b c H1 H2.
  destruct lv1; cbn [operators_of In] in H1;
    repeat (destruct H1 as [<-|H1]); try destruct H1;
    destruct lv2; cbn [operators_of In] in H2;
    repeat (destruct H2 as [<-|H2]); try destruct H2;
    vm_compute; reflexivity.
Qed.

(** [a - b - c] and [a + b * c]. *)
Lemma binary_operators_nest_by_level_witness :
  let a := Some (lit "a") in
  let b := Some (lit "b") in
  let c := Some (lit "c") in
  parse [ identifier_token a; operator_token "-"; identifier_token b;
          operator_token "-"; identifier_token c ] =
  Ok (mkAST (lit "Program")
        (ArrayOf
           [ BinaryExpression
               (Some (BinaryExpression (Some (Identifier a)) (lit "-")
                        (Some (Identifier b))))
               (lit "-") (Some (Identifier c)) ]))
     5 /\
  parse [ identifier_token a; operator_token "+"; identifier_token b;
          operator_token "*"; identifier_token c ] =
  Ok (mkAST (lit "Program")
        (ArrayOf
           [ BinaryExpression (Some (Identifier a)) (lit "+")
               (Some (BinaryExpression (Some (Identifier b)) (lit "*")
                        (Some (Identifier c)))) ]))
     5.
Proof.
  intros a b c. split.
  - exact (binary_operators_nest_by_level LAdditive LAdditive "-" "-" a b c
             (or_intror (or_introl eq_refl)) (or_intror (or_introl eq_refl))).
  - exact (binary_operators_nest_by_level LAdditive LMultiplicative "+" "*"
             a b c (or_introl eq_refl) (or_introl eq_refl)).
Defined.

(* ================================================================== *)
(** * What the generators return *)
(* ================================================================== *)

Lemma Returned_plus : forall a b,
  Returned a -> Returned b -> Returned (a +++ b).
Proof. intros [a|] [b|]; simpl; auto. Qed.

Lemma Returned_andThen : forall A B (c : completion A) (k : A -> completion B),
  Returned c -> (forall a, Returned (k a)) -> Returned (andThen c k).
Proof. intros A B [a|] k H Hk; simpl; [apply Hk|exact H]. Qed.

Lemma Forall_conditions : forall (f g : Node -> bool) (P Q : Node -> Prop) l,
  (forall n, P n -> f n = true -> g n = true -> Q n) ->
  Forall P l -> forallb f l = true -> forallb g l = true -> Forall Q l.
Proof.
  intros f g P Q l H. induction l as [|n l IH]; intros HP Hf Hg;
    [constructor|].
  inversion HP; subst. simpl in Hf, Hg.
  apply andb_prop in Hf as [? ?]. apply andb_prop in Hg as [? ?].
  constructor; auto.
Qed.

Lemma if_any_conditions : forall (f g : Node -> bool) (P Q : Node -> Prop) o,
  (forall n, P n -> f n = true -> g n = true -> Q n) ->
  if_any P o -> opt_all f o = true -> opt_all g o = true -> if_any Q o.
Proof. intros f g P Q [n|] H; simpl; auto. Qed.

Section GeneratorsReturn.

Variable float_text : jsstring -> jsstring.
Variable float_truthy : jsstring -> bool.
Variable inherited : jsstring -> option jsstring.
Variable named : option jsstring -> bool.
Hypothesis null_not_named : named None = false.

Local Notation "'javaStatement'" :=
  (generateJavaStatement float_text float_truthy inherited).
Local Notation "'pythonStatement'" :=
  (generatePythonStatement float_text float_truthy inherited).

Ltac crack :=
  repeat match goal with
         | H : _ && _ = true |- _ =>
             let H1 := fresh H in apply andb_prop in H; destruct H as [H H1]
         end.

(** The text of an expression of the grammar is a string. *)
Lemma generateJavaExpression_text : forall n,
  expression named n = true -> generateJavaExpression float_text n <> None.
Proof.
  induction n using Node_induction; intros S; try discriminate S;
    cbn [generateJavaExpression]; try discriminate.
  - (* UnaryExpression *)
    cbn [expression] in S. crack. rewrite S.
    destruct e as [e|]; [|discriminate]. apply H, S0.
  - (* Literal *)
    destruct (streq dt (lit "string")); discriminate.
  - (* Identifier *)
    cbn [expression] in S. destruct nm; [discriminate|].
    rewrite null_not_named in S. discriminate.
Qed.

Lemma scanfCall_Returned : forall formatStr a b c,
  no_number formatStr = true ->
  Returned (scanfCall float_truthy formatStr a b c).
Proof.
  intros formatStr a b c H. unfold scanfCall, no_number in *.
  destruct (field_value formatStr) as [| |s|l|n]; try discriminate;
    try exact I.
  destruct (truthy float_truthy (FString s)); [|exact I].
  repeat match goal with
         | |- context [if ?x then _ else _] => destruct x
         end; exact I.
Qed.

Lemma javaStatements_Returned : forall body indent,
  Forall (fun n => forall indent, Returned (javaStatement n indent)) body ->
  Returned (javaStatements javaStatement body indent).
Proof.
  induction body as [|n body IH]; intros indent H; simpl; [exact I|].
  inversion H; subst. apply Returned_plus; auto.
Qed.

Lemma javaBody_Returned : forall body indent,
  if_any (fun n => forall indent, Returned (javaStatement n indent)) body ->
  Returned (javaBody javaStatement body indent).
Proof.
  intros [n|] indent H; [|exact I]. cbn [if_any] in H. unfold javaBody.
  destruct n; apply H.
Qed.

(** What the induction gives for the statements in the fields of a
    node. *)
Ltac unconditional :=
  repeat match goal with
         | H : if_any (fun node => statement named node = true -> _) ?o,
           S : opt_all (statement named) ?o = true,
           F : opt_all formats_are_texts ?o = true |- _ =>
             let U := fresh "U" in
             pose proof (if_any_conditions _ _ _ _ o (fun n Hn => Hn) H S F)
               as U;
             clear H
         | H : Forall (fun node => statement named node = true -> _) ?l,
           S : forallb (statement named) ?l = true,
           F : forallb formats_are_texts ?l = true |- _ =>
             let U := fresh "U" in
             pose proof (Forall_conditions _ _ _ _ l (fun n Hn => Hn) H S F)
               as U;
             clear H
         end.

Lemma generateJavaStatement_Returned : forall node,
  statement named node = true -> formats_are_texts node = true ->
  forall indent, Returned (javaStatement node indent).
Proof.
  induction node using Node_induction; intros S F indent;
    cbn [generateJavaStatement]; try exact I;
    cbn [statement formats_are_texts] in S, F; crack; unconditional.
  - (* Block *)
    apply javaStatements_Returned. assumption.
  - (* Assignment *)
    destruct (streq op (lit "++") || streq op (lit "--")); exact I.
  - (* IfStatement *)
    unfold generateJavaIfStatement.
    repeat apply Returned_plus; try exact I.
    + apply javaBody_Returned. assumption.
    + destruct e as [e|]; [|exact I].
      match goal with U : if_any _ (Some e) |- _ => cbn [if_any] in U end.
      repeat apply Returned_plus; try exact I.
      destruct e; try match goal with U : forall _, Returned _ |- _ =>
                        apply U end.
      apply Returned_andThen; [|intros; exact I].
      match goal with U : forall _, Returned _ |- _ => apply U end.
  - (* WhileLoop *)
    repeat apply Returned_plus; try exact I.
    apply javaBody_Returned. assumption.
  - (* ForLoop *)
    unfold generateJavaForLoop. apply Returned_andThen.
    + destruct i as [i|]; [|exact I].
      apply Returned_andThen; [|intros; exact I].
      match goal with U : if_any _ (Some i) |- _ => apply U end.
    + intros initCode. repeat apply Returned_plus; try exact I.
      apply javaBody_Returned. assumption.
  - (* PrintfStatement *)
    unfold generateJavaPrintf. destruct args as [|first others]; [exact I|].
    destruct others as [|second others]; [|exact I]. cbn [map].
    cbn [forallb] in S. crack.
    pose proof (generateJavaExpression_text first S) as T.
    destruct (generateJavaExpression float_text first); [|congruence].
    match goal with |- context [if ?c then _ else _] => destruct c end;
      exact I.
  - (* ScanfStatement *)
    unfold generateJavaScanf.
    destruct args as [|formatStr [|second others]]; try exact I.
    apply Returned_andThen; [|intros; exact I].
    apply scanfCall_Returned, F.
Qed.

Lemma pythonStatements_Returned : forall body indent,
  Forall (fun n => forall indent, Returned (pythonStatement n indent)) body ->
  Returned (pythonStatements pythonStatement body indent).
Proof.
  intros body indent H. unfold pythonStatements.
  apply Returned_andThen; [|intros [code [|]]; exact I].
  induction body as [|n body IH]; [exact I|].
  inversion H; subst. cbn [pythonStatements_loop].
  apply Returned_andThen; [auto|]. intros stmtCode.
  apply Returned_andThen; [auto|]. intros [code hasContent].
  destruct (negb (length (trim stmtCode) =? 0)%nat); exact I.
Qed.

Lemma pythonBody_Returned : forall body indent,
  if_any (fun n => forall indent, Returned (pythonStatement n indent)) body ->
  Returned (pythonBody pythonStatement body indent).
Proof.
  intros [n|] indent H; [|exact I]. cbn [if_any] in H. unfold pythonBody.
  destruct n; apply H.
Qed.

Lemma generatePythonStatement_Returned : forall node,
  statement named node = true -> formats_are_texts node = true ->
  forall indent, Returned (pythonStatement node indent).
Proof.
  induction node using Node_induction; intros S F indent;
    cbn [generatePythonStatement]; try exact I;
    cbn [statement formats_are_texts] in S, F; crack; unconditional.
  - (* Block *)
    apply pythonStatements_Returned. assumption.
  - (* Assignment *)
    destruct (streq op (lit "++")); [exact I|].
    destruct (streq op (lit "--")); exact I.
  - (* IfStatement *)
    unfold generatePythonIfStatement.
    repeat apply Returned_plus; try exact I.
    + apply pythonBody_Returned. assumption.
    + destruct e as [e|]; [|exact I].
      destruct e;
        try (apply Returned_plus;
             [exact I|apply pythonBody_Returned; assumption]).
      apply Returned_andThen; [|intros; exact I].
      match goal with U : if_any _ (Some _) |- _ => apply U end.
  - (* WhileLoop *)
    repeat apply Returned_plus; try exact I.
    apply pythonBody_Returned. assumption.
  - (* ForLoop *)
    unfold generatePythonForLoop.
    destruct i as [i|]; [|exact I].
    destruct c as [c|]; [|exact I].
    destruct u as [u|]; [|exact I].
    apply Returned_plus; [exact I|apply pythonBody_Returned; assumption].
  - (* PrintfStatement *)
    unfold generatePythonPrintf.
    destruct args as [|formatStr [|second others]]; try exact I.
    destruct formatStr as [| | | | | | | | | | | | | |[lexeme|[s|]] dt|];
      try discriminate F.
    cbn [is_format] in F. cbn [field_value of_text].
    unfold or_else. cbn [truthy]. rewrite F. exact I.
  - (* ScanfStatement *)
    unfold generatePythonScanf.
    destruct args as [|formatStr [|second others]]; try exact I.
    apply Returned_andThen; [|intros; exact I].
    apply scanfCall_Returned, F.
Qed.

Lemma generateJavaStatements_Returned : forall body indent,
  forallb (statement named) body = true ->
  forallb formats_are_texts body = true ->
  Returned (generateJavaStatements float_text float_truthy inherited body
              indent).
Proof.
  intros body indent S F.
  apply javaStatements_Returned, Forall_forall. intros n Hin indent'.
  rewrite forallb_forall in S, F.
  apply generateJavaStatement_Returned; auto.
Qed.

Lemma generatePythonStatements_Returned : forall body indent,
  forallb (statement named) body = true ->
  forallb formats_are_texts body = true ->
  Returned (generatePythonStatements float_text float_truthy inherited body
              indent).
Proof.
  intros body indent S F.
  apply pythonStatements_Returned, Forall_forall. intros n Hin indent'.
  rewrite forallb_forall in S, F.
  apply generatePythonStatement_Returned; auto.
Qed.

Lemma generateJava_loop_Returned : forall body c h,
  forallb (statement named) body = true ->
  forallb formats_are_texts body = true ->
  Returned c ->
  Returned (fst (generateJava_loop float_text float_truthy inherited body
                   c h)).
Proof.
  induction body as [|node body IH]; intros c h S F H; [exact H|].
  cbn [forallb] in S, F. crack. cbn [generateJava_loop].
  assert (R : Returned (fst (generateJava_node float_text float_truthy
                               inherited node))).
  { pose proof (generateJavaStatement_Returned node S F) as G.
    unfold generateJava_node.
    destruct node; cbn [fst]; try exact I; try apply G.
    cbn [statement formats_are_texts] in S, F. crack.
    match goal with |- context [if ?c then _ else _] => destruct c end;
      cbn [fst]; repeat apply Returned_plus; try exact I;
      apply generateJavaStatements_Returned; assumption. }
  destruct (generateJava_node float_text float_truthy inherited node)
    as [code isMain].
  apply IH; try assumption. apply Returned_plus; assumption.
Qed.

Lemma generatePython_loop_Returned : forall body c h,
  forallb (statement named) body = true ->
  forallb formats_are_texts body = true ->
  Returned c ->
  Returned (fst (generatePython_loop float_text float_truthy inherited body
                   c h)).
Proof.
  induction body as [|node body IH]; intros c h S F H; [exact H|].
  cbn [forallb] in S, F. crack. cbn [generatePython_loop].
  assert (R : Returned (fst (generatePython_node float_text float_truthy
                               inherited node))).
  { pose proof (generatePythonStatement_Returned node S F) as G.
    unfold generatePython_node.
    destruct node; cbn [fst]; try exact I; try apply G.
    cbn [statement formats_are_texts] in S, F. crack.
    match goal with |- context [if ?c then _ else _] => destruct c end;
      cbn [fst]; repeat apply Returned_plus; try exact I;
      apply generatePythonStatements_Returned; assumption. }
  destruct (generatePython_node float_text float_truthy inherited node)
    as [code isMain].
  apply IH; try assumption. apply Returned_plus; assumption.
Qed.

Lemma generators_Returned : forall ty body,
  forallb (statement named) body = true ->
  forallb formats_are_texts body = true ->
  Returned (generateJava float_text float_truthy inherited
              (mkAST ty (ArrayOf body))) /\
  Returned (generatePython float_text float_truthy inherited
              (mkAST ty (ArrayOf body))).
Proof.
  intros ty body S F. unfold generateJava, generatePython. cbn [ast_body].
  pose proof (generateJava_loop_Returned body (Returns []) false S F I) as J.
  pose proof (generatePython_loop_Returned body (Returns []) false S F I)
    as P.
  destruct (generateJava_loop _ _ _ body _ _) as [classContent hasMain].
  destruct (generatePython_loop _ _ _ body _ _) as [pythonCode hasMain'].
  cbn [fst] in *. split.
  - destruct hasMain; [|exact J].
    apply Returned_andThen; [exact J|intros; exact I].
  - destruct hasMain'; [|exact P]. apply Returned_plus; [exact P|exact I].
Qed.

End GeneratorsReturn.

(** X17.
    The generators return for the trees of the grammar whose calls of
    [printf] and [scanf] have their format.  For a program whose body
    holds trees of statements with names that are not [null], in which
    every [printf] with arguments after the first has a literal of a text
    that is not empty as the first, and no [scanf] with two arguments has a
    number (or a node with a node as [value]) as the first: [generateJava]
    and [generatePython] return a text, they do not throw. *)
Theorem generators_return_for_formats :
  forall (float_text : jsstring -> jsstring)
         (float_truthy : jsstring -> bool)
         (inherited : jsstring -> option jsstring)
         (named : option jsstring -> bool) (ty : jsstring)
         (body : list Node),
    named None = false ->
    forallb (statement named) body = true ->
    forallb formats_are_texts body = true ->
    Returned (generateJava float_text float_truthy inherited
                (mkAST ty (ArrayOf body))) /\
    Returned (generatePython float_text float_truthy inherited
                (mkAST ty (ArrayOf body))).
Proof.
  intros float_text float_truthy inherited named ty body N S F.
  apply (generators_Returned float_text float_truthy inherited named N);
    assumption.
Qed.

Lemma generators_return_for_formats_witness :
  let body :=
    [ PrintfStatement
        [ Literal (Text (Some (lit "%d items"))) (lit "string");
          Identifier (Some (lit "n")) ];
      ScanfStatement
        [ Literal (Text (Some (lit "%d"))) (lit "string");
          UnaryExpression (lit "&") (Some (Identifier (Some (lit "n")))) ] ]
  in
  Returned (generateJava (fun s => s) (fun _ => true) (fun _ => None)
              (mkAST (lit "Program") (ArrayOf body))) /\
  Returned (generatePython (fun s => s) (fun _ => true) (fun _ => None)
              (mkAST (lit "Program") (ArrayOf body))).
Proof.
  apply (generators_return_for_formats (fun s => s) (fun _ => true)
           (fun _ => None) identifier_name); reflexivity.
Defined.

(** X18.
    A source text whose calls of [printf] and [scanf] have their format
    is translated.  When tokenizing and parsing a text gives a program in
    which every [printf] with arguments after the first has a literal of
    a text that is not empty as the first, and no [scanf] with two
    arguments has a number as the first, both generators return a text
    for it: the pipeline does not throw. *)
Theorem source_with_formats_is_translated :
  forall (float_text : jsstring -> jsstring)
         (float_truthy : jsstring -> bool)
         (inherited : jsstring -> option jsstring)
         (code : jsstring) (body : list Node) (pos : nat),
    parse_source code = Ok (mkAST (lit "Program") (ArrayOf body)) pos ->
    forallb formats_are_texts body = true ->
    Returned (generateJava float_text float_truthy inherited
                (mkAST (lit "Program") (ArrayOf body))) /\
    Returned (generatePython float_text float_truthy inherited
                (mkAST (lit "Program") (ArrayOf body))).
Proof.
  intros float_text float_truthy inherited code body pos E F.
  destruct (source_shaped code) as (body' & pos' & E' & S).
  rewrite E in E'. injection E' as <- _.
  apply (generators_Returned float_text float_truthy inherited
           identifier_name eq_refl); assumption.
Qed.

Lemma source_with_formats_is_translated_witness :
  let code :=
    lit "int n; scanf(" ++ [QUOTE] ++ lit "%d" ++ [QUOTE]
    ++ lit ", &n); if (n > 0) { printf(" ++ [QUOTE] ++ lit "%d items"
    ++ [QUOTE] ++ lit ", n); }" in
  exists body pos,
    parse_source code = Ok (mkAST (lit "Program") (ArrayOf body)) pos /\
    Returned (generateJava (fun s => s) (fun _ => true) (fun _ => None)
                (mkAST (lit "Program") (ArrayOf body))) /\
    Returned (generatePython (fun s => s) (fun _ => true) (fun _ => None)
                (mkAST (lit "Program") (ArrayOf body))).
Proof.
  intros code.
  let r := eval vm_compute in (parse_source code) in
  match r with
  | Ok (mkAST _ (ArrayOf ?b)) ?p =>
      exists b, p;
      assert (E : parse_source code = Ok (mkAST (lit "Program") (ArrayOf b)) p)
        by (vm_compute; reflexivity);
      split; [exact E|];
      exact (source_with_formats_is_translated (fun s => s) (fun _ => true)
               (fun _ => None) code b p E eq_refl)
  end.
Defined.

(* ================================================================== *)
(** * The lines of the generated code *)
(* ================================================================== *)

Section BlocksAndLines.

Variable float_text : jsstring -> jsstring.
Variable float_truthy : jsstring -> bool.
Variable inherited : jsstring -> option jsstring.

Lemma all_space_trim : forall s, forallb isSpace s = true -> trim s = [].
Proof.
  intros s H. unfold trim.
  assert (E : trimStart s = []).
  { induction s as [|c s IH]; [reflexivity|]. simpl in *.
    apply andb_prop in H as [Hc H]. rewrite Hc. apply IH, H. }
  now rewrite E.
Qed.

Lemma pythonStatements_not_blank :
  forall (statement : Node -> jsstring -> completion jsstring) body indent,
    match pythonStatements statement body indent with
    | Returns code => forallb isSpace code = false
    | Throws => True
    end.
Proof.
  intros statement body indent. unfold pythonStatements.
  assert (L : match pythonStatements_loop statement body indent with
              | Returns (code, hasContent) =>
                  hasContent = true -> forallb isSpace code = false
              | Throws => True
              end).
  { induction body as [|n body IH]; [discriminate|].
    cbn [pythonStatements_loop].
    destruct (statement n indent) as [stmtCode|]; [|exact I].
    cbn [andThen].
    destruct (pythonStatements_loop statement body indent)
      as [[code hasContent]|]; [|exact I].
    cbn [andThen].
    destruct (negb (length (trim stmtCode) =? 0)%nat) eqn:B; [|exact IH].
    intros _. rewrite forallb_app.
    destruct (forallb isSpace stmtCode) eqn:A; [|reflexivity].
    rewrite (all_space_trim _ A) in B. discriminate B. }
  destruct (pythonStatements_loop statement body indent)
    as [[code hasContent]|]; [|exact I].
  cbn [andThen]. destruct hasContent; [now apply L|].
  rewrite !forallb_app. change (forallb isSpace (lit "pass")) with false.
  cbn [andb]. rewrite andb_false_r. apply andb_false_r.
Qed.

End BlocksAndLines.

(** X19.
    A block of Python is never left empty.  Whatever the statements of a
    body and the indentation, when [generatePythonStatements] returns,
    the text it returns is not blank: it holds the code of a statement
    that is not blank, or the line [pass]; and it ends in a line feed. *)
Theorem python_block_is_never_blank :
  forall (float_text : jsstring -> jsstring)
         (float_truthy : jsstring -> bool)
         (inherited : jsstring -> option jsstring)
         (body : list Node) (indent : jsstring),
    match generatePythonStatements float_text float_truthy inherited body
            indent with
    | Returns code => forallb isSpace code = false /\ ends_nl code
    | Throws => True
    end.
Proof.
  intros float_text float_truthy inherited body indent.
  pose proof (pythonStatements_not_blank
                (generatePythonStatement float_text float_truthy inherited)
                body indent) as B.
  pose proof (pythonStatements_EndsNL float_text float_truthy inherited
                body indent) as N.
  unfold generatePythonStatements.
  destruct (pythonStatements _ body indent) as [code|]; [|exact I].
  split; [exact B|]. apply N, Forall_forall. intros n _ indent'.
  apply generatePythonStatement_Lines.
Qed.

(** X20.
    The generated code is made of whole lines.  The text that
    [generateJavaStatement] or [generatePythonStatement] returns for a
    node, whatever the node and the indentation, is empty or ends in a
    line feed; so does the text that [generatePython] returns for a
    program, and the text that the loop of [generateJava] puts
    together. *)
Theorem generated_code_is_whole_lines :
  forall (float_text : jsstring -> jsstring)
         (float_truthy : jsstring -> bool)
         (inherited : jsstring -> option jsstring),
    (forall node indent,
       Lines (generateJavaStatement float_text float_truthy inherited node
                indent) /\
       Lines (generatePythonStatement float_text float_truthy inherited node
                indent)) /\
    (forall ty body,
       Lines (fst (generateJava_loop float_text float_truthy inherited body
                     (Returns []) false)) /\
       Lines (generatePython float_text float_truthy inherited
                (mkAST ty (ArrayOf body)))).
Proof.
  intros float_text float_truthy inherited. split.
  - intros node indent. split;
      [apply generateJavaStatement_Lines|apply generatePythonStatement_Lines].
  - intros ty body. split.
    + apply generateJava_loop_Lines. now left.
    + unfold generatePython. cbn [ast_body].
      pose proof (generatePython_loop_Lines float_text float_truthy inherited
                    body (Returns []) false (or_introl eq_refl)) as L.
      destruct (generatePython_loop float_text float_truthy inherited body
                  (Returns []) false) as [pythonCode hasMain].
      cbn [fst] in L. destruct hasMain; [|exact L].
      apply EndsNL_Lines, EndsNL_plus. ends_with_nl.
Qed.

(* ================================================================== *)
(** * The expressions of the two languages *)
(* ================================================================== *)

Lemma map_agree : forall (f g : Node -> option jsstring) (h : Node -> bool) l,
  Forall (fun n => h n = true -> f n = g n) l ->
  forallb h l = true -> map f l = map g l.
Proof.
  intros f g h l H. induction H as [|n l Hn Hl IH]; intros Hh; [reflexivity|].
  simpl in Hh. apply andb_prop in Hh as [H1 H2]. simpl.
  now rewrite (Hn H1), (IH H2).
Qed.

(** X21.
    But for the operators [&&] and [||], an expression has the same text
    in the two languages: for every tree that holds none of the two,
    [generatePythonExpression] returns what [generateJavaExpression]
    returns. *)
Theorem expressions_agree_but_for_logical_operators :
  forall (float_text : jsstring -> jsstring) (expr : Node),
    no_logical_operator expr = true ->
    generatePythonExpression float_text expr =
    generateJavaExpression float_text expr.
Proof.
  intros float_text.
  induction expr using Node_induction; intros N; try reflexivity;
    cbn [generatePythonExpression generateJavaExpression];
    cbn [no_logical_operator] in N.
  - (* FunctionCall *)
    match goal with
    | F : Forall _ args |- _ => now rewrite (map_agree _ _ _ args F N)
    end.
  - (* BinaryExpression *)
    apply andb_prop in N as [N Nr]. apply andb_prop in N as [N Nl].
    apply andb_prop in N as [Na No].
    apply negb_true_iff in Na, No. rewrite Na, No.
    destruct l as [l|], r as [r|]; cbn [if_any opt_all] in *;
      repeat match goal with
             | IH : no_logical_operator ?n = true -> _,
               C : no_logical_operator ?n = true |- _ =>
                 rewrite (IH C); clear IH
             end; reflexivity.
  - (* UnaryExpression *)
    destruct e as [e|]; cbn [if_any opt_all] in *;
      repeat match goal with
             | IH : no_logical_operator ?n = true -> _,
               C : no_logical_operator ?n = true |- _ =>
                 rewrite (IH C); clear IH
             end; reflexivity.
Qed.

Lemma expressions_agree_but_for_logical_operators_witness :
  let expr :=
    BinaryExpression
      (Some (FunctionCall (Some (lit "f")) [Identifier (Some (lit "x"))]))
      (lit "<=")
      (Some (Literal (NumberOf (lit "10")) (lit "int"))) in
  generatePythonExpression (fun s => s) expr =
  generateJavaExpression (fun s => s) expr.
Proof.
  apply (expressions_agree_but_for_logical_operators (fun s => s)).
  reflexivity.
Defined.

(* ================================================================== *)
(** * When the generators throw *)
(* ================================================================== *)

(** X22.
    The calls of [printf] that make a generator throw.  The generator
    for Python throws for a [printf] exactly when it has arguments after
    the first and the first is no literal of a text that is not empty (it
    calls [replace] on what is then no string).  The generator for Java
    throws for a [printf] exactly when it has one argument and the text
    of that argument is [null]. *)
Theorem printf_throws_exactly :
  forall (float_text : jsstring -> jsstring)
         (float_truthy : jsstring -> bool)
         (arguments : list Node) (indent : jsstring),
    (generatePythonPrintf float_text float_truthy arguments indent = Throws
     <-> exists first second others,
           arguments = first :: second :: others /\
           is_format first = false) /\
    (generateJavaPrintf float_text arguments indent = Throws
     <-> exists first,
           arguments = [first] /\
           generateJavaExpression float_text first = None).
Proof.
  intros float_text float_truthy arguments indent. split.
  - unfold generatePythonPrintf.
    destruct arguments as [|first [|second others]].
    + split; [discriminate|]. intros (? & ? & ? & E & _). discriminate E.
    + split; [discriminate|]. intros (? & ? & ? & E & _). discriminate E.
    + assert (F : match or_else float_truthy (field_value first)
                          (FObject first) with
                  | FString _ => is_format first = true
                  | _ => is_format first = false
                  end).
      { unfold or_else.
        destruct first; cbn [field_value is_format];
          repeat match goal with
                 | v : option Node |- _ => destruct v
                 | v : LiteralValue |- _ => destruct v
                 | s : option jsstring |- _ => destruct s
                 end;
          cbn [of_node of_text truthy]; try reflexivity.
        - destruct (numberTruthy float_truthy _); reflexivity.
        - destruct (negb (length _ =? 0)%nat); reflexivity. }
      destruct (or_else float_truthy (field_value first) (FObject first));
        (split;
         [ intros E;
           first [ discriminate E
                 | exists first, second, others;
                   split; [reflexivity|exact F] ]
         | intros (f & s' & o & E & N); injection E as <- <- <-;
           first [reflexivity | congruence] ]).
  - unfold generateJavaPrintf.
    destruct arguments as [|first [|second others]].
    + split; [discriminate|]. intros (? & E & _). discriminate E.
    + cbn [map].
      destruct (generateJavaExpression float_text first) as [text|] eqn:G.
      * split.
        -- match goal with
           | |- context [if ?c then _ else _] => destruct c
           end; discriminate.
        -- intros (f & E & N). injection E as <-. congruence.
      * split; [|reflexivity]. intros _. exists first. split; auto.
    + split; [discriminate|]. intros (? & E & _). discriminate E.
Qed.

(* ================================================================== *)
(** * The page *)
(* ================================================================== *)

(** X23.
    The status of the phases on the page.  While the phase of the run is
    one of the five phases, a phase before it has the status
    [completed], the phase itself [active] and a phase after it
    [pending].  When the phase of the run is [error], each of the five
    phases has the status [pending]: [error] is not among the five, so
    its index is -1 and no index of a phase is at most that; only a text
    that is no phase is given the status [error]. *)
Theorem status_of_the_phases :
  (forall i j : nat,
     (i < 5)%nat -> (j < 5)%nat ->
     getPhaseStatus (lit (nth i phases EmptyString))
       (lit (nth j phases EmptyString)) =
     match Nat.compare j i with
     | Lt => "completed"
     | Eq => "active"
     | Gt => "pending"
     end%string) /\
  (forall phase : jsstring,
     getPhaseStatus (lit "error") phase =
     if one_of phases (Some phase) then "pending"%string
     else "error"%string).
Proof.
  split.
  - intros i j Hi Hj.
    do 5 (destruct i as [|i]; [do 5 (destruct j as [|j]; [reflexivity|]);
                               lia|]).
    lia.
  - intros phase.
    unfold getPhaseStatus, indexOf, phases, one_of.
    cbn [indexOf_from existsb is_text is_str].
    change (streq (lit "error") (lit "error")) with true. cbv iota.
    repeat match goal with
           | |- context [streq phase ?s] => destruct (streq phase s)
           end; reflexivity.
Qed.

Lemma status_of_the_phases_witness :
  getPhaseStatus (lit "syntax") (lit "lexical") = "completed"%string /\
  getPhaseStatus (lit "syntax") (lit "syntax") = "active"%string /\
  getPhaseStatus (lit "syntax") (lit "codegen") = "pending"%string /\
  getPhaseStatus (lit "error") (lit "codegen") = "pending"%string.
Proof.
  destruct status_of_the_phases as [Order Error].
  split; [apply (Order 2%nat 1%nat); lia|].
  split; [apply (Order 2%nat 2%nat); lia|].
  split; [apply (Order 2%nat 3%nat); lia|].
  apply (Error (lit "codegen")).
Defined.


